(** * The Matroska tag registry of python-ebml ([tags.py])

    A shallow embedding of the classes [Tag] and [TagDict] and of the
    module-level registry [MATROSKA_TAGS], followed by the properties the
    specification states about them.

    Python objects are mutable and shared: the registry stores one [Tag]
    under two keys, parents hold their children, overrides are applied in
    place.  The embedding therefore keeps every [Tag] in a heap (a list,
    the address of an object being its index) and lets the dictionary, the
    parent links and the child lists hold addresses.  Methods that may
    raise run in a state-and-exception monad over the whole program state. *)

From stdpp Require Import base gmap list strings.
From Stdlib Require Import ZArith Lia.

Set Default Proof Using "Type".
#[local] Set Warnings "-clear-no-such-hyp".

(** ** Values *)

Abbreviation addr := nat (only parsing).

(** The keys of [TagDict._dict]: EBML ids (integers) and tag names. *)
Inductive Key :=
| KInt (z : Z)
| KStr (s : string).

#[global] Instance Key_eq_dec : EqDecision Key.
Proof. solve_decision. Defined.

#[global] Instance Key_countable : Countable Key.
Proof.
  refine (inj_countable'
            (λ k, match k with KInt z => inl z | KStr s => inr s end)
            (λ x, match x with inl z => KInt z | inr s => KStr s end) _).
  by intros [].
Defined.

(** The Element classes [delayed_init] imports into its local namespace. *)
Inductive ElementClass :=
| ElementUnsupported | ElementPlaceholder | ElementVoid | ElementMaster
| ElementMasterDefer
| ElementAtomic | ElementRaw | ElementUnsigned | ElementSigned
| ElementBoolean | ElementEnum | ElementBitField | ElementFloat
| ElementString | ElementUnicode | ElementDate | ElementID
| ElementEBML | ElementSegment | ElementSeek | ElementInfo
| ElementTrackEntry | ElementVideo | ElementAudio | ElementAttachedFile
| ElementTag | ElementTargets | ElementSimpleTag | ElementEditionEntry
| ElementChapterAtom.

(** Attribute values.  Floats are only stored, never computed with, and are
    kept by their literal; [VOther n] is a Python object that is neither a
    [Tag] nor one of the other shapes, named by the variable holding it. *)
Inductive PyVal :=
| VNone
| VBool (b : bool)
| VInt (z : Z)
| VFloat (lit : string)
| VStr (s : string)
| VClass (c : ElementClass)
| VTag (a : addr)
| VDict (d : list (Z * string))
| VList (l : list string)
| VOther (n : string).

(** The attributes of a [Tag] that are assigned by name through [setattr]:
    [cls] and the two size floors always exist, the other five exist only
    once assigned (class docstring, "sometimes defined"). *)
Inductive Attr :=
| attr_cls
| attr_header_size_min
| attr_data_size_min
| attr_min_val
| attr_max_val
| attr_default
| attr_recursive
| attr_values.

#[global] Instance Attr_eq_dec : EqDecision Attr.
Proof. solve_decision. Defined.

Definition Attr_to_nat (a : Attr) : nat :=
  match a with
  | attr_cls => 0 | attr_header_size_min => 1 | attr_data_size_min => 2
  | attr_min_val => 3 | attr_max_val => 4 | attr_default => 5
  | attr_recursive => 6 | attr_values => 7
  end.

Definition Attr_of_nat (n : nat) : Attr :=
  match n with
  | 0 => attr_cls | 1 => attr_header_size_min | 2 => attr_data_size_min
  | 3 => attr_min_val | 4 => attr_max_val | 5 => attr_default
  | 6 => attr_recursive | _ => attr_values
  end.

#[global] Instance Attr_countable : Countable Attr.
Proof. refine (inj_countable' Attr_to_nat Attr_of_nat _). by intros []. Defined.

(** [Tag.parent]: [None] for level-zero tags, ["*"] for global tags, else
    the parent [Tag] instance. *)
Inductive ParentRef :=
| ParentNone
| ParentStar
| ParentTag (a : addr).

#[global] Instance ParentRef_eq_dec : EqDecision ParentRef.
Proof. solve_decision. Defined.

(** A [Tag] instance. *)
Record Tag := mkTag {
  ebml_id : Z;
  name : string;
  parent : ParentRef;
  _mandatory : bool;
  multiple : bool;
  webm : bool;
  minver : Z;
  maxver : Z;
  attrs : gmap Attr PyVal;
  children : list addr
}.

(** One entry of [MATROSKA_TAG_DATA] (module [tagdata], not part of this
    file): the nine keys every entry has, and the optional ones, which reach
    [Tag.__init__] as [**kwargs].  [row_parent] is [None], [Some (KStr "*")]
    or the key of the parent. *)
Record Row := mkRow {
  row_ebml_id : Z;
  row_name : string;
  row_cls_name : string;
  row_parent : option Key;
  row_mandatory : bool;
  row_multiple : bool;
  row_webm : bool;
  row_minver : Z;
  row_maxver : Z;
  row_extra : list (Attr * PyVal)
}.

(** ** Program state

    The heap of [Tag] objects, the fields of the one [TagDict] instance
    [MATROSKA_TAGS], and the list [MATROSKA_TAG_DATA], which [delayed_init]
    appends to. *)
Record World := mkWorld {
  heap : list Tag;
  _dict : gmap Key addr;
  _initialized : bool;
  version : Z;
  is_webm : bool;
  MATROSKA_TAG_DATA : list Row
}.

Definition with_heap (w : World) (h : list Tag) : World :=
  mkWorld h (_dict w) (_initialized w) (version w) (is_webm w)
          (MATROSKA_TAG_DATA w).

Definition with_dict (w : World) (d : gmap Key addr) : World :=
  mkWorld (heap w) d (_initialized w) (version w) (is_webm w)
          (MATROSKA_TAG_DATA w).

Definition with_initialized (w : World) (b : bool) : World :=
  mkWorld (heap w) (_dict w) b (version w) (is_webm w) (MATROSKA_TAG_DATA w).

Definition with_version (w : World) (v : Z) : World :=
  mkWorld (heap w) (_dict w) (_initialized w) v (is_webm w)
          (MATROSKA_TAG_DATA w).

Definition with_is_webm (w : World) (b : bool) : World :=
  mkWorld (heap w) (_dict w) (_initialized w) (version w) b
          (MATROSKA_TAG_DATA w).

Definition with_table (w : World) (t : list Row) : World :=
  mkWorld (heap w) (_dict w) (_initialized w) (version w) (is_webm w) t.

(** [MATROSKA_TAGS = TagDict()] at import time, over a given table. *)
Definition TagDict_init (table : list Row) : World :=
  mkWorld [] ∅ false 4 false table.

(** ** Exceptions and the monad *)

Inductive Exn :=
| KeyError (k : Key)
| ValueError
| AssertionError.

Inductive Res (A : Type) :=
| Ok (a : A)
| Raise (e : Exn).
Arguments Ok {A} a.
Arguments Raise {A} e.

Definition M (A : Type) : Type := World → World * Res A.

Definition ret {A} (a : A) : M A := λ w, (w, Ok a).

Definition raise {A} (e : Exn) : M A := λ w, (w, Raise e).

Definition bind {A B} (m : M A) (k : A → M B) : M B :=
  λ w, match m w with
       | (w', Ok a) => k a w'
       | (w', Raise e) => (w', Raise e)
       end.

Declare Scope py_scope.
Delimit Scope py_scope with py.
Notation "x <- m ;; k" := (bind m (λ x, k))
  (at level 100, m at next level, right associativity) : py_scope.
Notation "m ;; k" := (bind m (λ _, k))
  (at level 100, right associativity) : py_scope.
Local Open Scope py_scope.

(** ** class Tag *)

Definition hasattr (t : Tag) (a : Attr) : bool :=
  match attrs t !! a with Some _ => true | None => false end.

Definition getattr (t : Tag) (a : Attr) : option PyVal := attrs t !! a.

Definition setattr (t : Tag) (a : Attr) (v : PyVal) : Tag :=
  mkTag (ebml_id t) (name t) (parent t) (_mandatory t) (multiple t) (webm t)
        (minver t) (maxver t) (<[a := v]> (attrs t)) (children t).

Definition append_child (c : addr) (t : Tag) : Tag :=
  mkTag (ebml_id t) (name t) (parent t) (_mandatory t) (multiple t) (webm t)
        (minver t) (maxver t) (attrs t) (children t ++ [c]).

(** The body of [Tag.__init__] once the parent is known.  The new object
    takes the next free address; with a concrete parent it is appended to
    the parent's [children] (line 67); [cls] and the two defaults are set
    before the keyword arguments, [children] last. *)
Definition Tag_construct (id : Z) (nm : string) (cls : PyVal) (p : ParentRef)
    (mandatory multiple webm : bool) (minver maxver : Z)
    (kwargs : list (Attr * PyVal)) : M addr :=
  λ w,
    let self := length (heap w) in
    let h := match p with
             | ParentTag pa => alter (append_child self) pa (heap w)
             | _ => heap w
             end in
    let t0 := mkTag id nm p mandatory multiple webm minver maxver
                    (<[attr_data_size_min := VInt 0]>
                       (<[attr_header_size_min := VInt 0]>
                          (<[attr_cls := cls]> ∅))) [] in
    let t := fold_left (λ t kv, setattr t kv.1 kv.2) kwargs t0 in
    (with_heap w (h ++ [t]), Ok self).

(** [Tag.__init__]; [lookup] is [MATROSKA_TAGS[...]]. *)
Definition Tag_init_with (lookup : Key → M addr) (id : Z) (nm : string)
    (cls : PyVal) (parent : option Key) (mandatory multiple webm : bool)
    (minver maxver : Z) (kwargs : list (Attr * PyVal)) : M addr :=
  match parent with
  | None =>
      Tag_construct id nm cls ParentNone mandatory multiple webm
                    minver maxver kwargs
  | Some k =>
      if bool_decide (k = KStr "*") then
        Tag_construct id nm cls ParentStar mandatory multiple webm
                      minver maxver kwargs
      else
        pa <- lookup k ;;
        Tag_construct id nm cls (ParentTag pa) mandatory multiple webm
                      minver maxver kwargs
  end.

(** The property [mandatory]. *)
Definition Tag_mandatory (t : Tag) : bool :=
  if hasattr t attr_default then false else _mandatory t.

(** The properties [required_children] and [unique_children], as the
    sequences the generators produce, in order. *)
Definition Tag_required_children (h : list Tag) (t : Tag) : list addr :=
  List.filter (λ c, match h !! c with
                    | Some tc => Tag_mandatory tc
                    | None => false
                    end) (children t).

Definition Tag_unique_children (h : list Tag) (t : Tag) : list addr :=
  List.filter (λ c, match h !! c with
                    | Some tc => negb (multiple tc)
                    | None => false
                    end) (children t).

(** [Tag.__eq__] between two [Tag] instances. *)
Definition Tag_eq (x y : Tag) : bool := bool_decide (ebml_id x = ebml_id y).

(** [self.parent == tag] for a [Tag] instance [tag]: [None] and ["*"] are
    not [Tag]s, so [Tag.__eq__] answers [False] for them. *)
Definition parent_eq (h : list Tag) (p : ParentRef) (tag : Tag) : bool :=
  match p with
  | ParentTag a => match h !! a with
                   | Some pt => Tag_eq pt tag
                   | None => false
                   end
  | _ => false
  end.

Definition is_star (p : ParentRef) : bool :=
  match p with ParentStar => true | _ => false end.

(** [Tag.is_child]; the container is [None] or a [Tag]. *)
Definition Tag_is_child (h : list Tag) (self : Tag) (tag : option Tag) : bool :=
  match tag with
  | None =>
      match parent self with
      | ParentNone | ParentStar => true
      | ParentTag _ => false
      end
  | Some tg =>
      if parent_eq h (parent self) tg || is_star (parent self) then true
      else hasattr self attr_recursive && Tag_eq tg self
  end.

(** ** class TagDict

    The dictionary [_dict] is a finite map from keys to addresses; the order
    in which Python iterates over it is not kept, so [__iter__], [keys],
    [items], [values] and [level0s] are given up to order: the first two as
    the set of keys, the others as lists in the order of [map_to_list].
    [Tag.__call__], which instantiates the Element class, is left out. *)

(** The constant at the end of the module. *)
Definition INTERNAL_ID : Z := 66.

(** [__getitem__] after its call to [delayed_init]: the [try] block. *)
Definition getitem_body (key : Key) : M addr :=
  λ w, match _dict w !! key with
       | Some a => (w, Ok a)
       | None =>
           match key with
           | KInt k =>
               Tag_construct k "Unknown" (VStr "ElementUnsupported") ParentStar
                             false true true 1 4 [] w
           | KStr _ => (w, Raise (KeyError key))
           end
       end.

(** [insert]: [isinstance(tag, Tag)] holds of a reference to a live
    [Tag] object and of nothing else. *)
Definition TagDict_insert (tag : PyVal) : M unit :=
  λ w, match tag with
       | VTag a =>
           match heap w !! a with
           | Some t =>
               (with_dict w (<[KStr (name t) := a]>
                               (<[KInt (ebml_id t) := a]> (_dict w))), Ok tt)
           | None => (w, Raise ValueError)
           end
       | _ => (w, Raise ValueError)
       end.

(** [remove]: no call to [delayed_init]; each of the three dictionary
    accesses raises [KeyError] on a missing key. *)
Definition TagDict_remove (key : Key) : M unit :=
  λ w, match _dict w !! key with
       | None => (w, Raise (KeyError key))
       | Some a =>
           let d := delete key (_dict w) in
           let nm := match heap w !! a with
                     | Some t => name t
                     | None => ""
                     end in
           match d !! KStr nm with
           | None => (with_dict w d, Raise (KeyError (KStr nm)))
           | Some _ => (with_dict w (delete (KStr nm) d), Ok tt)
           end
       end.

(** The names bound in [delayed_init] when [locals()[cls_name]] is
    evaluated: the thirty imported classes, and [self],
    [MATROSKA_TAG_DATA], [tag_data] and [cls_name] itself. *)
Definition element_classes : list (string * ElementClass) :=
  [ ("ElementUnsupported", ElementUnsupported);
    ("ElementPlaceholder", ElementPlaceholder);
    ("ElementVoid", ElementVoid);
    ("ElementMaster", ElementMaster);
    ("ElementMasterDefer", ElementMasterDefer);
    ("ElementAtomic", ElementAtomic);
    ("ElementRaw", ElementRaw);
    ("ElementUnsigned", ElementUnsigned);
    ("ElementSigned", ElementSigned);
    ("ElementBoolean", ElementBoolean);
    ("ElementEnum", ElementEnum);
    ("ElementBitField", ElementBitField);
    ("ElementFloat", ElementFloat);
    ("ElementString", ElementString);
    ("ElementUnicode", ElementUnicode);
    ("ElementDate", ElementDate);
    ("ElementID", ElementID);
    ("ElementEBML", ElementEBML);
    ("ElementSegment", ElementSegment);
    ("ElementSeek", ElementSeek);
    ("ElementInfo", ElementInfo);
    ("ElementTrackEntry", ElementTrackEntry);
    ("ElementVideo", ElementVideo);
    ("ElementAudio", ElementAudio);
    ("ElementAttachedFile", ElementAttachedFile);
    ("ElementTag", ElementTag);
    ("ElementTargets", ElementTargets);
    ("ElementSimpleTag", ElementSimpleTag);
    ("ElementEditionEntry", ElementEditionEntry);
    ("ElementChapterAtom", ElementChapterAtom) ].

Fixpoint assoc {A} (l : list (string * A)) (k : string) : option A :=
  match l with
  | [] => None
  | (k', v) :: l' => if String.eqb k k' then Some v else assoc l' k
  end.

Definition locals_lookup (cls_name : string) : M PyVal :=
  match assoc element_classes cls_name with
  | Some c => ret (VClass c)
  | None =>
      if String.eqb cls_name "cls_name" then ret (VStr cls_name)
      else if String.eqb cls_name "self" then ret (VOther cls_name)
      else if String.eqb cls_name "MATROSKA_TAG_DATA" then ret (VOther cls_name)
      else if String.eqb cls_name "tag_data" then ret (VOther cls_name)
      else raise (KeyError (KStr cls_name))
  end.

(** The two dictionaries appended "for internal use". *)
Definition LibInternal : Row :=
  mkRow INTERNAL_ID "LibInternal" "ElementPlaceholder" (Some (KStr "*"))
        false true true 1 4 [].

Definition LibInternal2 : Row :=
  mkRow INTERNAL_ID "LibInternal2" "ElementPlaceholder" (Some (KStr "*"))
        false true true 1 4 [].

(** The test at the head of the loading loop: [true] when the row is
    skipped ([continue]). *)
Definition row_skipped (w : World) (r : Row) : bool :=
  if is_webm w then negb (row_webm r)
  else (version w <? row_minver r)%Z || (version w >? row_maxver r)%Z.

(** The rest of the loop body.  [tag_data['cls'] = ...] rebinds the key
    [cls], which then reaches [__init__] as the parameter of that name and
    never through [kwargs].  While [delayed_init] runs, [_initialized] is
    already set, so the [MATROSKA_TAGS[parent]] inside [__init__] is
    [getitem_body]. *)
Definition load_row (r : Row) : M unit :=
  cls <- locals_lookup (row_cls_name r) ;;
  a <- Tag_init_with getitem_body (row_ebml_id r) (row_name r) cls
         (row_parent r) (row_mandatory r) (row_multiple r) (row_webm r)
         (row_minver r) (row_maxver r)
         (List.filter (λ kv, negb (bool_decide (kv.1 = attr_cls)))
                      (row_extra r)) ;;
  TagDict_insert (VTag a).

Fixpoint load_rows (rows : list Row) : M unit :=
  match rows with
  | [] => ret tt
  | r :: rows' =>
      (λ w, if row_skipped w r then (w, Ok tt) else load_row r w) ;;
      load_rows rows'
  end.

(** The dictionary [overrides].  Its three [default] values are the results
    of [self['PixelWidth']], [self['PixelHeight']] and
    [self['SamplingFrequency']], evaluated while the literal is built. *)
Definition overrides_table (pixel_width pixel_height sampling_frequency : addr)
  : list (string * list (Attr * PyVal)) :=
  let codec := [(0%Z, "Matroska Script"); (1%Z, "DVD-menu")] in
  [ ("EBML", [(attr_cls, VClass ElementEBML)]);
    ("Void", [(attr_cls, VClass ElementVoid)]);
    ("SignedElement", [(attr_cls, VClass ElementID)]);
    ("Segment", [(attr_cls, VClass ElementSegment);
                 (attr_header_size_min, VInt 8)]);
    ("Seek", [(attr_cls, VClass ElementSeek)]);
    ("SeekID", [(attr_cls, VClass ElementID)]);
    ("SeekPosition", [(attr_data_size_min, VInt 8)]);
    ("Info", [(attr_cls, VClass ElementInfo)]);
    ("Title", [(attr_data_size_min, VInt 100)]);
    ("EditionEntry", [(attr_cls, VClass ElementEditionEntry)]);
    ("ChapterAtom", [(attr_cls, VClass ElementChapterAtom)]);
    ("ChapterTranslateCodec", [(attr_cls, VClass ElementEnum);
                               (attr_values, VDict codec)]);
    ("SimpleBlock", [(attr_cls, VClass ElementRaw)]);
    ("Block", [(attr_cls, VClass ElementUnsupported)]);
    ("BlockVirtual", [(attr_cls, VClass ElementUnsupported)]);
    ("BlockAdditional", [(attr_cls, VClass ElementUnsupported)]);
    ("CodecState", [(attr_cls, VClass ElementUnsupported)]);
    ("EncryptedBlock", [(attr_cls, VClass ElementUnsupported)]);
    ("TrackEntry", [(attr_cls, VClass ElementTrackEntry)]);
    ("TrackType",
     [(attr_cls, VClass ElementEnum);
      (attr_values,
       VDict [(1%Z, "video"); (2%Z, "audio"); (3%Z, "complex");
              (16%Z, "logo"); (17%Z, "subtitle"); (18%Z, "buttons");
              (32%Z, "control")])]);
    ("TrackTranslateCodec", [(attr_cls, VClass ElementEnum);
                             (attr_values, VDict codec)]);
    ("Video", [(attr_cls, VClass ElementVideo)]);
    ("StereoMode",
     [(attr_cls, VClass ElementEnum);
      (attr_values,
       VDict [(0%Z, "mono"); (1%Z, "side-by-side (left)");
              (2%Z, "top-bottom (right)"); (3%Z, "top-bottom (left)");
              (4%Z, "checkerboard (right)"); (5%Z, "checkerboard (left)");
              (6%Z, "row interleaved (right)");
              (7%Z, "row interleaved (left)");
              (8%Z, "col interleaved (right)");
              (9%Z, "col interleaved (left)");
              (10%Z, "anaglyph (cyan/red)"); (11%Z, "side-by-side (right)");
              (12%Z, "anaglyph (green/magenta)"); (13%Z, "both (left)");
              (14%Z, "both (right)")])]);
    ("DisplayWidth", [(attr_default, VTag pixel_width)]);
    ("DisplayHeight", [(attr_default, VTag pixel_height)]);
    ("DisplayUnit",
     [(attr_cls, VClass ElementEnum);
      (attr_values,
       VDict [(0%Z, "pixels"); (1%Z, "centimeters"); (2%Z, "inches");
              (3%Z, "Display Aspect Ratio")])]);
    ("AspectRatioType",
     [(attr_cls, VClass ElementEnum);
      (attr_values,
       VDict [(0%Z, "free resizing"); (1%Z, "keep aspect ratio");
              (2%Z, "fixed")])]);
    ("Colour", [(attr_cls, VClass ElementRaw)]);
    ("Audio", [(attr_cls, VClass ElementAudio)]);
    ("OutputSamplingFrequency", [(attr_default, VTag sampling_frequency)]);
    ("TrackPlaneType",
     [(attr_cls, VClass ElementEnum);
      (attr_values,
       VDict [(0%Z, "left eye"); (1%Z, "right eye"); (2%Z, "background")])]);
    ("ContentEncodingScope",
     [(attr_cls, VClass ElementBitField);
      (attr_values,
       VList ["all-frame-contents"; "track-private-data";
              "the-next-ContentEncoding"])]);
    ("ContentEncodingType",
     [(attr_cls, VClass ElementEnum);
      (attr_values, VDict [(0%Z, "compression"); (1%Z, "encryption")])]);
    ("ContentCompAlgo",
     [(attr_cls, VClass ElementEnum);
      (attr_values,
       VDict [(0%Z, "zlib"); (1%Z, "bzlib"); (2%Z, "lzo1x");
              (3%Z, "Header Stripping")])]);
    ("ContentEncAlgo",
     [(attr_cls, VClass ElementEnum);
      (attr_values,
       VDict [(0%Z, "signed only"); (1%Z, "DES"); (2%Z, "3DES");
              (3%Z, "Twofish"); (4%Z, "Blowfish"); (5%Z, "AES")])]);
    ("ContentSigAlgo",
     [(attr_cls, VClass ElementEnum);
      (attr_values, VDict [(0%Z, "signed only"); (1%Z, "RSA")])]);
    ("ContentSigHashAlgo",
     [(attr_cls, VClass ElementEnum);
      (attr_values,
       VDict [(0%Z, "signed only"); (1%Z, "SHA1-160"); (2%Z, "MD5")])]);
    ("Cues", [(attr_cls, VClass ElementMasterDefer)]);
    ("Attachments", [(attr_header_size_min, VInt 4)]);
    ("AttachedFile", [(attr_cls, VClass ElementAttachedFile);
                      (attr_header_size_min, VInt 4)]);
    ("FileUID", [(attr_cls, VClass ElementRaw)]);
    ("Tag", [(attr_cls, VClass ElementTag)]);
    ("Targets", [(attr_cls, VClass ElementTargets)]);
    ("SimpleTag", [(attr_cls, VClass ElementSimpleTag)]) ].

(** [setattr(tag, attr_name, value)] on the object at an address. *)
Definition setattr_at (a : addr) (attr_name : Attr) (value : PyVal) : M unit :=
  λ w, (with_heap w (alter (λ t, setattr t attr_name value) a (heap w)), Ok tt).

Fixpoint setattrs_at (a : addr) (tag_overrides : list (Attr * PyVal)) : M unit :=
  match tag_overrides with
  | [] => ret tt
  | (attr_name, value) :: rest =>
      setattr_at a attr_name value ;; setattrs_at a rest
  end.

(** [__contains__] after its call to [delayed_init]. *)
Definition contains_body (key : Key) : M bool :=
  λ w, (w, Ok (bool_decide (is_Some (_dict w !! key)))).

(** The loop over [overrides.items()]. *)
Fixpoint apply_overrides (overrides : list (string * list (Attr * PyVal)))
  : M unit :=
  match overrides with
  | [] => ret tt
  | (tag_name, tag_overrides) :: rest =>
      present <- contains_body (KStr tag_name) ;;
      (if present : bool then
         tag <- getitem_body (KStr tag_name) ;;
         setattrs_at tag tag_overrides
       else ret tt) ;;
      apply_overrides rest
  end.

(** [delayed_init]. *)
Definition delayed_init : M unit :=
  λ w,
    if _initialized w then (w, Ok tt)
    else
      let w := with_initialized w true in
      let w := with_table w (MATROSKA_TAG_DATA w ++ [LibInternal; LibInternal2]) in
      (load_rows (MATROSKA_TAG_DATA w) ;;
       pixel_width <- getitem_body (KStr "PixelWidth") ;;
       pixel_height <- getitem_body (KStr "PixelHeight") ;;
       sampling_frequency <- getitem_body (KStr "SamplingFrequency") ;;
       apply_overrides
         (overrides_table pixel_width pixel_height sampling_frequency)) w.

(** The read interface: each method calls [delayed_init] first. *)
Definition TagDict_getitem (key : Key) : M addr :=
  delayed_init ;; getitem_body key.

Definition TagDict_len : M nat :=
  delayed_init ;; (λ w, (w, Ok (size (_dict w)))).

Definition TagDict_contains (key : Key) : M bool :=
  delayed_init ;; contains_body key.

Definition TagDict_keys : M (gset Key) :=
  delayed_init ;; (λ w, (w, Ok (dom (_dict w)))).

Definition TagDict_get (key : Key) : M (option addr) :=
  delayed_init ;; (λ w, (w, Ok (_dict w !! key))).

(** [__iter__], [items] and [values], up to the order of iteration. *)
Definition TagDict_iter : M (gset Key) :=
  delayed_init ;; (λ w, (w, Ok (dom (_dict w)))).

Definition TagDict_items : M (list (Key * addr)) :=
  delayed_init ;; (λ w, (w, Ok (map_to_list (_dict w)))).

Definition TagDict_values : M (list addr) :=
  delayed_init ;; (λ w, (w, Ok (map_to_list (_dict w)).*2)).

(** [Tag.__init__] as any caller outside [delayed_init] runs it. *)
Definition Tag_init : Z → string → PyVal → option Key → bool → bool → bool →
                      Z → Z → list (Attr * PyVal) → M addr :=
  Tag_init_with TagDict_getitem.

(** [set_doc_type_and_version]; the [assert] is taken to be checked. *)
Definition set_doc_type_and_version (doc_type : string) (ver : Z) : M unit :=
  λ w,
    if String.eqb doc_type "webm" then
      let w := with_is_webm w true in
      let w := with_version w ver in
      let w := with_initialized w false in
      let w := with_dict w ∅ in
      delayed_init w
    else if String.eqb doc_type "matroska" then
      let w := with_is_webm w false in
      let w := with_version w ver in
      let w := with_initialized w false in
      let w := with_dict w ∅ in
      delayed_init w
    else (w, Raise AssertionError).

(** [level0s]: the generator runs [self.items()], hence [delayed_init], and
    yields the values filed under an integer key whose [parent] is [None].
    The entries are visited in the order of [map_to_list], which is not
    Python's insertion order; the results about it speak of membership and
    multiplicity only. *)
Definition level0s_items (h : list Tag) (items : list (Key * addr))
  : list addr :=
  (List.filter
     (λ kv, match kv.1 with
            | KInt _ =>
                match h !! kv.2 with
                | Some val => bool_decide (parent val = ParentNone)
                | None => false
                end
            | KStr _ => false
            end) items).*2.

Definition TagDict_level0s : M (list addr) :=
  delayed_init ;;
  (λ w, (w, Ok (level0s_items (heap w) (map_to_list (_dict w))))).

(** ** A sample table

    [MATROSKA_TAG_DATA] itself lives in module [tagdata]; the general
    results below hold for every table.  The rows here have the shape of
    its entries and serve to run the code on a concrete input. *)
Definition sample_table : list Row :=
  [ mkRow 0x1A45DFA3 "EBML" "ElementMaster" None true true true 1 4 [];
    mkRow 0xEC "Void" "ElementRaw" (Some (KStr "*")) false true true 1 4 [];
    mkRow 0x18538067 "Segment" "ElementMaster" None true true true 1 4 [];
    mkRow 0x1549A966 "Info" "ElementMaster" (Some (KStr "Segment"))
          true true true 1 4 [];
    mkRow 0x73A4 "SegmentUID" "ElementRaw" (Some (KStr "Info"))
          false false false 1 4 [];
    mkRow 0x2AD7B1 "TimecodeScale" "ElementUnsigned" (Some (KStr "Info"))
          true false true 1 4 [(attr_default, VInt 1000000)];
    mkRow 0x1654AE6B "Tracks" "ElementMaster" (Some (KStr "Segment"))
          false true true 1 4 [];
    mkRow 0xAE "TrackEntry" "ElementMaster" (Some (KStr "Tracks"))
          true true true 1 4 [];
    mkRow 0xD7 "TrackNumber" "ElementUnsigned" (Some (KStr "TrackEntry"))
          true false true 1 4 [(attr_min_val, VInt 1)];
    mkRow 0xE0 "Video" "ElementMaster" (Some (KStr "TrackEntry"))
          false false true 1 4 [];
    mkRow 0x53B8 "StereoMode" "ElementUnsigned" (Some (KStr "Video"))
          false false true 3 4 [(attr_default, VInt 0)];
    mkRow 0xB0 "PixelWidth" "ElementUnsigned" (Some (KStr "Video"))
          true false true 1 4 [(attr_min_val, VInt 1)];
    mkRow 0xBA "PixelHeight" "ElementUnsigned" (Some (KStr "Video"))
          true false true 1 4 [(attr_min_val, VInt 1)];
    mkRow 0x54B0 "DisplayWidth" "ElementUnsigned" (Some (KStr "Video"))
          false false true 1 4 [(attr_min_val, VInt 1)];
    mkRow 0xE1 "Audio" "ElementMaster" (Some (KStr "TrackEntry"))
          false false true 1 4 [];
    mkRow 0xB5 "SamplingFrequency" "ElementFloat" (Some (KStr "Audio"))
          true false true 1 4
          [(attr_min_val, VFloat "0.0"); (attr_default, VFloat "8000.0")];
    mkRow 0x1043A770 "Chapters" "ElementMaster" (Some (KStr "Segment"))
          false false true 1 4 [];
    mkRow 0x45B9 "EditionEntry" "ElementMaster" (Some (KStr "Chapters"))
          true true true 1 4 [];
    mkRow 0xB6 "ChapterAtom" "ElementMaster" (Some (KStr "EditionEntry"))
          true true true 1 4 [(attr_recursive, VBool true)] ].

Definition sample_world : World :=
  (delayed_init (TagDict_init sample_table)).1.

(** * Vocabulary of the properties

    The predicates, relations and auxiliary functions in which the
    properties below are stated and proved. *)

(** A triple with a normal and an exceptional postcondition: Python keeps
    the state reached when an exception is raised. *)
Definition hoare {A} (P : World → Prop) (m : M A)
    (Q : A → World → Prop) (E : World → Prop) : Prop :=
  ∀ w, P w → match m w with
             | (w', Ok a) => Q a w'
             | (w', Raise _) => E w'
             end.

(** The fields of a [Tag] that no method assigns after [__init__]. *)
Definition statics (t : Tag)
  : Z * string * ParentRef * (bool * bool * bool) * (Z * Z) :=
  (ebml_id t, name t, parent t, (_mandatory t, multiple t, webm t),
   (minver t, maxver t)).

(** The heap only grows, an object keeps its identifying fields, and its
    child list is only appended to. *)
Definition heap_evolves (h h' : list Tag) : Prop :=
  length h ≤ length h' ∧
  ∀ a t, h !! a = Some t →
         ∃ t', h' !! a = Some t' ∧ statics t' = statics t ∧
               children t `prefix_of` children t'.

(** Two states of a run that neither removes a key nor starts an
    initialization: the configuration and the table are as they were, the
    heap has evolved, the dictionary has kept its keys. *)
Record evolves (w w' : World) : Prop := mk_evolves {
  ev_initialized : _initialized w' = _initialized w;
  ev_version : version w' = version w;
  ev_is_webm : is_webm w' = is_webm w;
  ev_table : MATROSKA_TAG_DATA w' = MATROSKA_TAG_DATA w;
  ev_heap : heap_evolves (heap w) (heap w');
  ev_dom : dom (_dict w) ⊆ dom (_dict w')
}.

(** An operation whose final state, normal or exceptional, has evolved from
    its initial state. *)
Definition preserves {A} (m : M A) : Prop := ∀ w, evolves w (m w).1.

(** The part of [delayed_init] after the flag is set and the two rows are
    appended. *)
Definition init_body : M unit :=
  λ w,
    (load_rows (MATROSKA_TAG_DATA w) ;;
     pixel_width <- getitem_body (KStr "PixelWidth") ;;
     pixel_height <- getitem_body (KStr "PixelHeight") ;;
     sampling_frequency <- getitem_body (KStr "SamplingFrequency") ;;
     apply_overrides
       (overrides_table pixel_width pixel_height sampling_frequency)) w.

(** The state in which that part starts. *)
Definition init_start (w : World) : World :=
  with_table (with_initialized w true)
             (MATROSKA_TAG_DATA w ++ [LibInternal; LibInternal2]).

(** The object [Tag_construct] allocates. *)
Definition constructed (id : Z) (nm : string) (cls : PyVal) (p : ParentRef)
    (mandatory multiple webm : bool) (minver maxver : Z)
    (kwargs : list (Attr * PyVal)) : Tag :=
  fold_left (λ t kv, setattr t kv.1 kv.2) kwargs
    (mkTag id nm p mandatory multiple webm minver maxver
           (<[attr_data_size_min := VInt 0]>
              (<[attr_header_size_min := VInt 0]> (<[attr_cls := cls]> ∅))) []).

(** "The parent equals the container", equality of descriptors being
    equality of ids; the top-level container is [None]. *)
Definition parent_is (h : list Tag) (p : ParentRef) (c : option Tag) : Prop :=
  match p, c with
  | ParentNone, None => True
  | ParentTag a, Some tc => ∃ pt, h !! a = Some pt ∧ ebml_id pt = ebml_id tc
  | _, _ => False
  end.

(** An operation that leaves [_dict] as it is. *)
Definition dict_frame {A} (m : M A) : Prop := ∀ w, _dict (m w).1 = _dict w.

(** Every entry of the dictionary is filed under the id or the name of the
    object it refers to, both keys of that object are present, and the
    object satisfies a property [G] of its identifying fields. *)
Definition dict_wf_on (G : Tag → Prop) (h : list Tag) (d : gmap Key addr)
  : Prop :=
  ∀ k a, d !! k = Some a →
    ∃ t, h !! a = Some t ∧
         (k = KInt (ebml_id t) ∨ k = KStr (name t)) ∧
         is_Some (d !! KInt (ebml_id t)) ∧
         is_Some (d !! KStr (name t)) ∧
         G t.

Definition dict_wf (G : Tag → Prop) (w : World) : Prop :=
  dict_wf_on G (heap w) (_dict w).

(** What a row passes to the constructor. *)
Definition built_from (r : Row) (t : Tag) : Prop :=
  ebml_id t = row_ebml_id r ∧ name t = row_name r ∧
  _mandatory t = row_mandatory r ∧ multiple t = row_multiple r ∧
  webm t = row_webm r ∧ minver t = row_minver r ∧ maxver t = row_maxver r.

(** The second half of [delayed_init]: the [overrides] dictionary is built,
    then applied. *)
Definition overrides_pass : M unit :=
  pixel_width <- getitem_body (KStr "PixelWidth") ;;
  pixel_height <- getitem_body (KStr "PixelHeight") ;;
  sampling_frequency <- getitem_body (KStr "SamplingFrequency") ;;
  apply_overrides (overrides_table pixel_width pixel_height sampling_frequency).

(** The state [set_doc_type_and_version] hands to [delayed_init]. *)
Definition profile_world (w : World) (web : bool) (ver : Z) : World :=
  with_dict (with_initialized (with_version (with_is_webm w web) ver) false) ∅.

(** A row applies to a profile: the web subset keeps the rows marked
    [webm], the full specification those whose version range contains the
    version. *)
Definition row_active (web : bool) (ver : Z) (r : Row) : Prop :=
  if web then row_webm r = true
  else (row_minver r ≤ ver ∧ ver ≤ row_maxver r)%Z.

(** The invariant of the dictionary, without a further property. *)
Definition registry_ok (w : World) : Prop := dict_wf (λ _, True) w.

(** The object at [a] is a value of the dictionary. *)
Definition registered (w : World) (a : addr) : Prop :=
  ∃ k, _dict w !! k = Some a.

(** What [insert] does to the dictionary, given the heap: both keys of
    the object at [a] lead to [a]. *)
Definition file (h : list Tag) (d : gmap Key addr) (a : addr)
  : gmap Key addr :=
  match h !! a with
  | Some t => <[KStr (name t) := a]> (<[KInt (ebml_id t) := a]> d)
  | None => d
  end.

(** The registry has been filled by [insert] alone: its dictionary is what
    the inserts of the objects at [l], in this order, make of an empty
    one. *)
Definition inserted (w : World) (l : list addr) : Prop :=
  Forall (λ a, a < length (heap w)) l ∧
  _dict w = fold_left (file (heap w)) l ∅.

(** The key is the id or the name of the object. *)
Definition key_of (t : Tag) (k : Key) : Prop :=
  k = KInt (ebml_id t) ∨ k = KStr (name t).

#[global] Instance key_of_dec t k : Decision (key_of t k).
Proof. unfold key_of. apply _. Defined.

(** The property as the specification words it: every registered descriptor
    is what a lookup by its id returns and what a lookup by its name
    returns. *)
Definition dual_key_identity (w : World) : Prop :=
  ∀ a t, registered w a → heap w !! a = Some t →
         (TagDict_getitem (KInt (ebml_id t)) w).2 = Ok a ∧
         (TagDict_getitem (KStr (name t)) w).2 = Ok a.

(** The operations of the registry, their results dropped. *)
Inductive Op :=
| op_getitem (key : Key)
| op_len
| op_contains (key : Key)
| op_keys
| op_get (key : Key)
| op_iter
| op_items
| op_values
| op_level0s
| op_insert (tag : PyVal)
| op_remove (key : Key)
| op_delayed_init
| op_set_doc_type_and_version (doc_type : string) (ver : Z).

Definition run_op (o : Op) : M unit :=
  match o with
  | op_getitem key => TagDict_getitem key ;; ret tt
  | op_len => TagDict_len ;; ret tt
  | op_contains key => TagDict_contains key ;; ret tt
  | op_keys => TagDict_keys ;; ret tt
  | op_get key => TagDict_get key ;; ret tt
  | op_iter => TagDict_iter ;; ret tt
  | op_items => TagDict_items ;; ret tt
  | op_values => TagDict_values ;; ret tt
  | op_level0s => TagDict_level0s ;; ret tt
  | op_insert tag => TagDict_insert tag
  | op_remove key => TagDict_remove key
  | op_delayed_init => delayed_init
  | op_set_doc_type_and_version doc_type ver =>
      set_doc_type_and_version doc_type ver
  end.

(** The two failures the specification lists. *)
Definition listed_failure (w : World) (o : Op) (e : Exn) : Prop :=
  (∃ tag, o = op_insert tag ∧ e = ValueError ∧
          ∀ a, tag = VTag a → heap w !! a = None) ∨
  (∃ s, o = op_getitem (KStr s) ∧ e = KeyError (KStr s) ∧
        _dict (delayed_init w).1 !! KStr s = None).

(** The property as the specification words it: an operation that raises
    is one of the two. *)
Definition only_listed_failures (w : World) : Prop :=
  ∀ o e, (run_op o w).2 = Raise e → listed_failure w o e.

(** The three lookups made while [overrides] is built. *)
Definition overrides_lookup (d : gmap Key addr) : Res (addr * addr * addr) :=
  match d !! KStr "PixelWidth" with
  | None => Raise (KeyError (KStr "PixelWidth"))
  | Some pw =>
      match d !! KStr "PixelHeight" with
      | None => Raise (KeyError (KStr "PixelHeight"))
      | Some ph =>
          match d !! KStr "SamplingFrequency" with
          | None => Raise (KeyError (KStr "SamplingFrequency"))
          | Some sf => Ok (pw, ph, sf)
          end
      end
  end.

(** A class name that [locals()] does not hold when [locals()[cls_name]] is
    evaluated. *)
Definition unbound (cls_name : string) : Prop :=
  assoc element_classes cls_name = None ∧
  cls_name ∉ ["cls_name"; "self"; "MATROSKA_TAG_DATA"; "tag_data"].

(** The two ways a row fails to load in a state: its class name is not
    bound; or it is, and the parent is a name, other than ["*"], that the
    dictionary does not hold. *)
Inductive row_fails (w : World) (r : Row) : Exn → Prop :=
| row_fails_class :
    unbound (row_cls_name r) →
    row_fails w r (KeyError (KStr (row_cls_name r)))
| row_fails_parent p :
    ¬ unbound (row_cls_name r) →
    row_parent r = Some (KStr p) → p ≠ "*" →
    _dict w !! KStr p = None →
    row_fails w r (KeyError (KStr p)).

(** The ways [delayed_init] fails: the registry is not initialized and
    either the rows before some row [r] load, [r] is not skipped and fails
    in the state they leave, or all rows load and one of the three lookups
    made for [overrides] fails. *)
Inductive init_fails (w : World) : Exn → Prop :=
| init_fails_row pre r post w1 e :
    _initialized w = false →
    MATROSKA_TAG_DATA w ++ [LibInternal; LibInternal2] = pre ++ r :: post →
    load_rows pre (init_start w) = (w1, Ok tt) →
    row_skipped w r = false →
    row_fails w1 r e →
    init_fails w e
| init_fails_overrides w1 e :
    _initialized w = false →
    load_rows (MATROSKA_TAG_DATA w ++ [LibInternal; LibInternal2])
              (init_start w) = (w1, Ok tt) →
    overrides_lookup (_dict w1) = Raise e →
    init_fails w e.

(** The state in which an operation runs [delayed_init], for those that
    do. *)
Definition init_state (o : Op) (w : World) : option World :=
  match o with
  | op_insert _ | op_remove _ => None
  | op_set_doc_type_and_version doc_type ver =>
      if String.eqb doc_type "webm" then Some (profile_world w true ver)
      else if String.eqb doc_type "matroska"
           then Some (profile_world w false ver)
           else None
  | _ => Some w
  end.

(** The failures of the operations, one constructor for each. *)
Inductive failure (w : World) : Op → Exn → Prop :=
| fail_insert_not_a_tag tag :
    (∀ a, tag = VTag a → heap w !! a = None) →
    failure w (op_insert tag) ValueError
| fail_getitem_unknown_name s :
    (delayed_init w).2 = Ok tt →
    _dict (delayed_init w).1 !! KStr s = None →
    failure w (op_getitem (KStr s)) (KeyError (KStr s))
| fail_remove_unknown_key key :
    _dict w !! key = None →
    failure w (op_remove key) (KeyError key)
| fail_remove_unknown_name key a t :
    _dict w !! key = Some a → heap w !! a = Some t →
    key = KStr (name t) ∨ _dict w !! KStr (name t) = None →
    failure w (op_remove key) (KeyError (KStr (name t)))
| fail_doc_type doc_type ver :
    doc_type ≠ "webm" → doc_type ≠ "matroska" →
    failure w (op_set_doc_type_and_version doc_type ver) AssertionError
| fail_init o w0 e :
    init_state o w = Some w0 → init_fails w0 e →
    failure w o e.

(** The assignments of one entry of [overrides], in order. *)
Definition setattrs (l : list (Attr * PyVal)) (t : Tag) : Tag :=
  fold_left (λ t kv, setattr t kv.1 kv.2) l t.

(** What the loop over [overrides.items()] does to the object at [a]. *)
Definition overridden (ovs : list (string * list (Attr * PyVal)))
    (d : gmap Key addr) (a : addr) (t : Tag) : Tag :=
  match assoc ovs (name t) with
  | Some l => if decide (d !! KStr (name t) = Some a) then setattrs l t else t
  | None => t
  end.

(** Every name in the dictionary leads to an object of that name. *)
Definition names_ok (w : World) : Prop :=
  ∀ n a, _dict w !! KStr n = Some a →
         ∃ t, heap w !! a = Some t ∧ name t = n.

(** The heap is well formed when every child list holds objects whose parent
    is the owner of the list, and every object with a concrete parent occurs
    exactly once in that parent's child list. *)
Definition heap_wf (h : list Tag) : Prop :=
  ∀ d td, h !! d = Some td →
    (∀ c, c ∈ children td → ∃ tc, h !! c = Some tc ∧ parent tc = ParentTag d) ∧
    (∀ p, parent td = ParentTag p →
          ∃ tp, h !! p = Some tp ∧ count_occ Nat.eq_dec (children tp) d = 1).

(** Every value of the dictionary is the address of an object. *)
Definition dict_valid (w : World) : Prop :=
  ∀ k a, _dict w !! k = Some a → a < length (heap w).

(** A well-formed state. *)
Definition world_wf (w : World) : Prop := heap_wf (heap w) ∧ dict_valid w.

(** The heap [Tag_construct] leaves, before the new object is added. *)
Definition linked (h : list Tag) (p : ParentRef) : list Tag :=
  match p with
  | ParentTag pa => alter (append_child (length h)) pa h
  | _ => h
  end.

(** A well-formed state and an address in its heap. *)
Definition wf_at (a : addr) (w : World) : Prop :=
  world_wf w ∧ a < length (heap w).

(** [delayed_init] over a given list of rows. *)
Definition init_over (rows : list Row) : M unit :=
  load_rows rows ;; overrides_pass.

(** [n] copies of the appended pair. *)
Fixpoint internal_rows (n : nat) : list Row :=
  match n with
  | 0 => []
  | S n' => LibInternal :: LibInternal2 :: internal_rows n'
  end.

(** Profile changes in sequence, each run whatever the previous one
    returned. *)
Fixpoint reinit (profiles : list (string * Z)) (w : World) : World :=
  match profiles with
  | [] => w
  | (doc_type, ver) :: rest =>
      reinit rest (set_doc_type_and_version doc_type ver w).1
  end.

(** What a key leads to. *)
Definition view (w : World) (k : Key) : option Tag :=
  match _dict w !! k with
  | Some a => heap w !! a
  | None => None
  end.

(** The objects built for the two appended rows. *)
Definition tag_LibInternal : Tag :=
  constructed INTERNAL_ID "LibInternal" (VClass ElementPlaceholder) ParentStar
              false true true 1 4 [].

Definition tag_LibInternal2 : Tag :=
  constructed INTERNAL_ID "LibInternal2" (VClass ElementPlaceholder)
              ParentStar false true true 1 4 [].

(** The state after the pair has been loaded. *)
Definition add_internal (w : World) : World :=
  let n := length (heap w) in
  with_dict (with_heap w (heap w ++ [tag_LibInternal; tag_LibInternal2]))
    (<[KStr "LibInternal2" := S n]>
       (<[KInt INTERNAL_ID := S n]>
          (<[KStr "LibInternal" := n]>
             (<[KInt INTERNAL_ID := n]> (_dict w))))).

(** The keys under which these two objects are filed. *)
Definition internal_key (k : Key) : Prop :=
  k = KInt INTERNAL_ID ∨ k = KStr "LibInternal" ∨ k = KStr "LibInternal2".

(** The object an internal key leads to once the pair is loaded: the id is
    taken by the second row. *)
Definition internal_tag (k : Key) : Tag :=
  if decide (k = KStr "LibInternal") then tag_LibInternal else tag_LibInternal2.

(** Two states of which the second has loaded further copies of the pair. *)
Record sim (w1 w2 : World) : Prop := mk_sim {
  sim_heap : ∃ ext, heap w2 = heap w1 ++ ext;
  sim_is_webm : is_webm w2 = is_webm w1;
  sim_version : version w2 = version w1;
  sim_other : ∀ k, ¬ internal_key k → _dict w2 !! k = _dict w1 !! k;
  sim_internal : ∀ k, internal_key k →
                      view w1 k = Some (internal_tag k) ∧
                      view w2 k = Some (internal_tag k)
}.

(** An object keeps its attributes as well as its identifying fields: what
    loading rows does to the objects already there. *)
Definition attrs_kept (h h' : list Tag) : Prop :=
  ∀ a t, h !! a = Some t →
         ∃ t', h' !! a = Some t' ∧ statics t' = statics t ∧ attrs t' = attrs t.

Definition keeps_attrs {A} (m : M A) : Prop :=
  ∀ w, attrs_kept (heap w) (heap (m w).1).

(** The attributes [Tag.__init__] gives the object built for a row whose
    class name resolved to [cls]. *)
Definition row_attrs (r : Row) (cls : PyVal) : gmap Attr PyVal :=
  attrs (constructed (row_ebml_id r) (row_name r) cls ParentNone
           (row_mandatory r) (row_multiple r) (row_webm r)
           (row_minver r) (row_maxver r)
           (List.filter (λ kv, negb (bool_decide (kv.1 = attr_cls)))
                        (row_extra r))).

(** The assignments of an entry of [overrides], on the attributes alone. *)
Definition apply_attrs (l : list (Attr * PyVal)) (m : gmap Attr PyVal)
  : gmap Attr PyVal :=
  fold_left (λ m kv, <[kv.1 := kv.2]> m) l m.

(** The object was built from a row of [rows] that applies to the profile,
    with the class its [cls_name] resolves to, and has the attributes the
    constructor gave it. *)
Definition loaded_from (rows : list Row) (web : bool) (ver : Z) (t : Tag)
  : Prop :=
  ∃ r cls, r ∈ rows ∧ row_active web ver r ∧ built_from r t ∧
           (∀ w, locals_lookup (row_cls_name r) w = (w, Ok cls)) ∧
           attrs t = row_attrs r cls.

(** Every value of the dictionary is such an object. *)
Definition dict_loaded (rows : list Row) (w : World) : Prop :=
  ∀ k a, _dict w !! k = Some a →
         ∃ t, heap w !! a = Some t ∧
              loaded_from rows (is_webm w) (version w) t.

(** The objects of an earlier heap [h0] are all still as they were, and the
    dictionary refers to none of them. *)
Definition built_anew (h0 : list Tag) (w : World) : Prop :=
  h0 `prefix_of` heap w ∧ ∀ k a, _dict w !! k = Some a → length h0 ≤ a.

(** * Properties *)

(** ** Reasoning about monadic code *)

Lemma hoare_bind {A B} (P : World → Prop) (m : M A) (k : A → M B)
    (Q1 : A → World → Prop) (Q : B → World → Prop) (E : World → Prop) :
  hoare P m Q1 E → (∀ a, hoare (Q1 a) (k a) Q E) → hoare P (bind m k) Q E.
Proof.
  intros Hm Hk w HP. unfold bind. specialize (Hm w HP).
  destruct (m w) as [w1 [a|e]]; [by apply Hk | done].
Qed.

Lemma hoare_ret {A} (P : World → Prop) (a : A) (Q : A → World → Prop) E :
  (∀ w, P w → Q a w) → hoare P (ret a) Q E.
Proof. intros H w HP. by apply H. Qed.

Lemma hoare_raise {A} (P : World → Prop) e (Q : A → World → Prop)
    (E : World → Prop) :
  (∀ w, P w → E w) → hoare P (raise e) Q E.
Proof. intros H w HP. by apply H. Qed.

Lemma hoare_conseq {A} (P P' : World → Prop) (m : M A)
    (Q Q' : A → World → Prop) (E E' : World → Prop) :
  hoare P' m Q' E' → (∀ w, P w → P' w) → (∀ a w, Q' a w → Q a w) →
  (∀ w, E' w → E w) → hoare P m Q E.
Proof.
  intros Hm HP HQ HE w Hw. specialize (Hm w (HP w Hw)).
  destruct (m w) as [w1 [a|e]]; auto.
Qed.

(** ** What the registry code never undoes

    Between two states of a run that neither removes a key nor starts an
    initialization, the configuration and the table stay as they are, the
    heap only grows, an object keeps its identifying fields, its child list
    is only appended to, and the dictionary keeps its keys. *)

Lemma heap_evolves_refl h : heap_evolves h h.
Proof. split; [done|]. intros a t Ht. by exists t. Qed.

Lemma heap_evolves_trans h1 h2 h3 :
  heap_evolves h1 h2 → heap_evolves h2 h3 → heap_evolves h1 h3.
Proof.
  intros [Hl1 H1] [Hl2 H2]. split; [lia|].
  intros a t Ht. destruct (H1 a t Ht) as (t2 & Ht2 & Hs2 & Hc2).
  destruct (H2 a t2 Ht2) as (t3 & Ht3 & Hs3 & Hc3).
  exists t3. split_and!; [done|congruence|by etrans].
Qed.

#[global] Instance evolves_preorder : PreOrder evolves.
Proof.
  split.
  - intros w. split; try done. apply heap_evolves_refl.
  - intros w1 w2 w3 [] []. split; try congruence.
    + by eapply heap_evolves_trans.
    + by etrans.
Qed.

Lemma preserves_bind {A B} (m : M A) (k : A → M B) :
  preserves m → (∀ a, preserves (k a)) → preserves (bind m k).
Proof.
  intros Hm Hk w. unfold bind. specialize (Hm w).
  destruct (m w) as [w1 [a|e]]; simpl in *; [|done].
  etrans; [exact Hm | apply Hk].
Qed.

Lemma preserves_ret {A} (a : A) : preserves (ret a).
Proof. intros w. reflexivity. Qed.

Lemma preserves_raise {A} e : preserves (@raise A e).
Proof. intros w. reflexivity. Qed.

Lemma setattr_statics t a v : statics (setattr t a v) = statics t.
Proof. done. Qed.

Lemma append_child_statics c t : statics (append_child c t) = statics t.
Proof. done. Qed.

Lemma heap_evolves_alter_app (f : Tag → Tag) pa h ext :
  (∀ t, statics (f t) = statics t ∧ children t `prefix_of` children (f t)) →
  heap_evolves h (alter f pa h ++ ext).
Proof.
  intros Hf. split.
  - rewrite length_app, length_alter. lia.
  - intros a t Ht.
    assert (a < length h) as Hlt by by eapply lookup_lt_Some.
    rewrite lookup_app_l by by rewrite length_alter.
    destruct (decide (pa = a)) as [->|Hne].
    + rewrite list_lookup_alter_eq, Ht. simpl. eexists; split; [done|apply Hf].
    + rewrite list_lookup_alter_ne by done. by exists t.
Qed.

Lemma heap_evolves_app h ext : heap_evolves h (h ++ ext).
Proof.
  split; [rewrite length_app; lia|].
  intros a t Ht. exists t. split_and!; [by apply lookup_app_l_Some|done|done].
Qed.

Lemma preserves_Tag_construct id nm cls p ma mu we mi mx kw :
  preserves (Tag_construct id nm cls p ma mu we mi mx kw).
Proof.
  intros w. unfold Tag_construct. simpl. split; simpl; try done.
  destruct p; try apply heap_evolves_app.
  apply heap_evolves_alter_app. intros t. split; [done|].
  by apply prefix_app_r.
Qed.

Lemma preserves_getitem_body key : preserves (getitem_body key).
Proof.
  intros w. unfold getitem_body.
  destruct (_dict w !! key); [reflexivity|].
  destruct key; [apply preserves_Tag_construct | reflexivity].
Qed.

Lemma preserves_Tag_init_with lookup id nm cls p ma mu we mi mx kw :
  (∀ k, preserves (lookup k)) →
  preserves (Tag_init_with lookup id nm cls p ma mu we mi mx kw).
Proof.
  intros Hl. unfold Tag_init_with. destruct p as [k|].
  - case_bool_decide.
    + apply preserves_Tag_construct.
    + apply preserves_bind; [apply Hl|]. intros. apply preserves_Tag_construct.
  - apply preserves_Tag_construct.
Qed.

Lemma preserves_insert v : preserves (TagDict_insert v).
Proof.
  intros w. unfold TagDict_insert.
  destruct v; try reflexivity.
  destruct (heap w !! a); [|reflexivity].
  split; simpl; try done; [apply heap_evolves_refl|].
  rewrite !dom_insert_L. set_solver.
Qed.

Lemma preserves_locals_lookup s : preserves (locals_lookup s).
Proof.
  unfold locals_lookup. destruct (assoc element_classes s).
  - apply preserves_ret.
  - repeat case_match; (apply preserves_ret || apply preserves_raise).
Qed.

Lemma preserves_load_row r : preserves (load_row r).
Proof.
  unfold load_row. apply preserves_bind; [apply preserves_locals_lookup|].
  intros cls. apply preserves_bind.
  - apply preserves_Tag_init_with, preserves_getitem_body.
  - intros a. apply preserves_insert.
Qed.

Lemma preserves_load_rows rows : preserves (load_rows rows).
Proof.
  induction rows as [|r rows IH]; simpl; [apply preserves_ret|].
  apply preserves_bind; [|done].
  intros w. destruct (row_skipped w r); [reflexivity|apply preserves_load_row].
Qed.

Lemma preserves_setattr_at a n v : preserves (setattr_at a n v).
Proof.
  intros w. unfold setattr_at. split; simpl; try done.
  rewrite <- (app_nil_r (alter _ _ _)).
  apply heap_evolves_alter_app. intros t. by split.
Qed.

Lemma preserves_setattrs_at a l : preserves (setattrs_at a l).
Proof.
  induction l as [|[n v] l IH]; simpl; [apply preserves_ret|].
  apply preserves_bind; [apply preserves_setattr_at|done].
Qed.

Lemma preserves_contains_body k : preserves (contains_body k).
Proof. intros w. reflexivity. Qed.

Lemma preserves_apply_overrides ovs : preserves (apply_overrides ovs).
Proof.
  induction ovs as [|[n l] ovs IH]; simpl; [apply preserves_ret|].
  apply preserves_bind; [apply preserves_contains_body|].
  intros b. apply preserves_bind; [|done].
  destruct b; [|apply preserves_ret].
  apply preserves_bind; [apply preserves_getitem_body|].
  intros a. apply preserves_setattrs_at.
Qed.

Lemma delayed_init_unfold w :
  delayed_init w =
  if _initialized w then (w, Ok tt) else init_body (init_start w).
Proof. done. Qed.

Lemma preserves_init_body : preserves init_body.
Proof.
  intros w. unfold init_body.
  apply (preserves_bind (load_rows (MATROSKA_TAG_DATA w))).
  - apply preserves_load_rows.
  - intros _. repeat (apply preserves_bind; [apply preserves_getitem_body|intros ?]).
    apply preserves_apply_overrides.
Qed.

Lemma delayed_init_initialized w : _initialized (delayed_init w).1 = true.
Proof.
  rewrite delayed_init_unfold. destruct (_initialized w) eqn:Hi; [done|].
  by rewrite (ev_initialized _ _ (preserves_init_body (init_start w))).
Qed.

Lemma delayed_init_done w :
  _initialized w = true → delayed_init w = (w, Ok tt).
Proof. intros H. by rewrite delayed_init_unfold, H. Qed.

Lemma delayed_init_table w :
  _initialized w = false →
  MATROSKA_TAG_DATA (delayed_init w).1 =
  MATROSKA_TAG_DATA w ++ [LibInternal; LibInternal2].
Proof.
  intros H. rewrite delayed_init_unfold, H.
  by rewrite (ev_table _ _ (preserves_init_body (init_start w))).
Qed.

(** ** Attributes set at construction *)

Lemma fold_setattr_statics kw t :
  statics (fold_left (λ t kv, setattr t kv.1 kv.2) kw t) = statics t.
Proof. revert t. induction kw as [|[a v] kw IH]; intros t; [done|]. simpl. by rewrite IH. Qed.

Lemma fold_setattr_children (kw : list (Attr * PyVal)) t :
  children (fold_left (λ t kv, setattr t kv.1 kv.2) kw t) = children t.
Proof. revert t. induction kw as [|[a v] kw IH]; intros t; [done|]. simpl. by rewrite IH. Qed.

Lemma fold_setattr_hasattr (kw : list (Attr * PyVal)) t a :
  hasattr (fold_left (λ t kv, setattr t kv.1 kv.2) kw t) a =
  hasattr t a || bool_decide (a ∈ kw.*1).
Proof.
  revert t. induction kw as [|[b v] kw IH]; intros t; cbn [fold_left].
  - rewrite fmap_nil, bool_decide_eq_false_2 by apply not_elem_of_nil.
    by rewrite orb_false_r.
  - rewrite IH, fmap_cons. unfold hasattr at 1. cbn [setattr attrs fst snd].
    destruct (decide (a = b)) as [->|Hne].
    + rewrite lookup_insert_eq.
      rewrite (bool_decide_eq_true_2 (b ∈ b :: kw.*1)) by (apply elem_of_cons; by left).
      by rewrite orb_true_r.
    + rewrite lookup_insert_ne by done. fold (hasattr t a). f_equal.
      apply bool_decide_ext. rewrite elem_of_cons. naive_solver.
Qed.

Lemma constructed_statics id nm cls p ma mu we mi mx kw :
  statics (constructed id nm cls p ma mu we mi mx kw) =
  (id, nm, p, (ma, mu, we), (mi, mx)).
Proof. unfold constructed. by rewrite fold_setattr_statics. Qed.

Lemma constructed_children id nm cls p ma mu we mi mx kw :
  children (constructed id nm cls p ma mu we mi mx kw) = [].
Proof. unfold constructed. by rewrite fold_setattr_children. Qed.

Lemma Tag_construct_eq id nm cls p ma mu we mi mx kw w :
  Tag_construct id nm cls p ma mu we mi mx kw w =
  (with_heap w
     (match p with
      | ParentTag pa => alter (append_child (length (heap w))) pa (heap w)
      | _ => heap w
      end ++ [constructed id nm cls p ma mu we mi mx kw]),
   Ok (length (heap w))).
Proof. done. Qed.

Lemma Tag_construct_lookup id nm cls p ma mu we mi mx kw w :
  heap (Tag_construct id nm cls p ma mu we mi mx kw w).1 !! length (heap w) =
  Some (constructed id nm cls p ma mu we mi mx kw).
Proof.
  rewrite Tag_construct_eq. simpl.
  rewrite lookup_app_r; destruct p; rewrite ?length_alter; try lia;
    by rewrite Nat.sub_diag.
Qed.

(** C5: the derived attribute [mandatory] is true exactly when the flag
    given to the constructor is true and no [default] attribute is present;
    a [default], whether passed to the constructor or set afterwards as the
    overrides do, makes it false whatever the flag. *)
Theorem C5_mandatory_is_flag_without_default :
  (∀ t, Tag_mandatory t = true ↔
        _mandatory t = true ∧ hasattr t attr_default = false) ∧
  (∀ t, hasattr t attr_default = true → Tag_mandatory t = false) ∧
  (∀ t v, Tag_mandatory (setattr t attr_default v) = false) ∧
  (∀ id nm cls p ma mu we mi mx kw w,
     ∃ a w' t,
       Tag_construct id nm cls p ma mu we mi mx kw w = (w', Ok a) ∧
       heap w' !! a = Some t ∧ _mandatory t = ma ∧
       (Tag_mandatory t = true ↔ ma = true ∧ attr_default ∉ kw.*1)).
Proof.
  split_and!.
  - intros t. unfold Tag_mandatory. destruct (hasattr t attr_default); naive_solver.
  - intros t H. unfold Tag_mandatory. by rewrite H.
  - intros t v. unfold Tag_mandatory, hasattr. simpl. by rewrite lookup_insert_eq.
  - intros. eexists _, _, _. split; [apply Tag_construct_eq|].
    pose proof (Tag_construct_lookup id nm cls p ma mu we mi mx kw w) as Hl.
    rewrite Tag_construct_eq in Hl. split; [exact Hl|].
    pose proof (constructed_statics id nm cls p ma mu we mi mx kw) as Hs.
    unfold statics in Hs. split; [congruence|].
    unfold Tag_mandatory.
    assert (_mandatory (constructed id nm cls p ma mu we mi mx kw) = ma) as -> by congruence.
    unfold constructed. rewrite fold_setattr_hasattr.
    unfold hasattr at 1. simpl.
    case_bool_decide; simpl; naive_solver.
Qed.

Lemma C5_witness :
  Tag_mandatory
    (mkTag 0xB5 "SamplingFrequency" (ParentTag 14) true false true 1 4
           {[attr_default := VFloat "8000.0"]} []) = false.
Proof.
  apply (proj1 (proj2 C5_mandatory_is_flag_without_default)). reflexivity.
Defined.

(** ** Containment *)

(** C6: [is_child] answers true exactly in the three cases listed, and a
    descriptor whose parent is the global wildcard is a child of every
    container, the top level included. *)
Theorem C6_is_child_cases :
  (∀ h d c,
     Tag_is_child h d c = true ↔
       (c = None ∧ (parent d = ParentNone ∨ parent d = ParentStar)) ∨
       (parent_is h (parent d) c ∨ parent d = ParentStar) ∨
       (∃ tc, c = Some tc ∧ ebml_id tc = ebml_id d ∧
              hasattr d attr_recursive = true)) ∧
  (∀ h d c, parent d = ParentStar → Tag_is_child h d c = true).
Proof.
  split.
  - intros h d [tc|]; unfold Tag_is_child, parent_eq, parent_is, is_star, Tag_eq.
    + destruct (parent d) as [| |a]; simpl.
      * destruct (hasattr d attr_recursive); simpl;
          [rewrite bool_decide_eq_true|]; naive_solver.
      * naive_solver.
      * destruct (h !! a) as [pt|] eqn:Hpt; simpl.
        -- case_bool_decide as Hid; simpl; [naive_solver|].
           destruct (hasattr d attr_recursive); simpl;
             [rewrite bool_decide_eq_true|]; naive_solver.
        -- destruct (hasattr d attr_recursive); simpl;
             [rewrite bool_decide_eq_true|]; naive_solver.
    + destruct (parent d); naive_solver.
  - intros h d [tc|] Hp; unfold Tag_is_child; rewrite Hp; [|done].
    unfold is_star. by rewrite orb_true_r.
Qed.

Lemma C6_witness :
  Tag_is_child [] (mkTag 0xEC "Void" ParentStar false true true 1 4 ∅ []) None
  = true.
Proof. apply (proj2 C6_is_child_cases). reflexivity. Defined.

(** ** Lazy initialization *)

Lemma getitem_body_dict key w : _dict (getitem_body key w).1 = _dict w.
Proof.
  unfold getitem_body. destruct (_dict w !! key); [done|]. by destruct key.
Qed.

Lemma getitem_initialized key w :
  _initialized w = true → TagDict_getitem key w = getitem_body key w.
Proof.
  intros H. unfold TagDict_getitem, bind. by rewrite delayed_init_done.
Qed.

(** Inside [delayed_init] the flag is already set, which is why its calls of
    [__init__] look parents up with [getitem_body]. *)
Lemma Tag_init_initialized id nm cls parent ma mu we mi mx kw w :
  _initialized w = true →
  Tag_init id nm cls parent ma mu we mi mx kw w =
  Tag_init_with getitem_body id nm cls parent ma mu we mi mx kw w.
Proof.
  intros Hi. unfold Tag_init, Tag_init_with. destruct parent as [k|]; [|done].
  case_bool_decide; [done|]. unfold bind. by rewrite getitem_initialized.
Qed.

Lemma init_start_initialized w : _initialized (init_start w) = true.
Proof. done. Qed.

(** C7: once [delayed_init] has run, running it again changes nothing, and
    neither does the call every read method starts with: the table (which
    every load extends) and the registry are as they were, and a lookup
    leaves the table, the flag and the dictionary alone. *)
Theorem C7_delayed_init_runs_once :
  ∀ w, let w1 := (delayed_init w).1 in
    delayed_init w1 = (w1, Ok tt) ∧
    TagDict_len w1 = (w1, Ok (size (_dict w1))) ∧
    TagDict_keys w1 = (w1, Ok (dom (_dict w1))) ∧
    (∀ key, TagDict_contains key w1 =
            (w1, Ok (bool_decide (is_Some (_dict w1 !! key))))) ∧
    (∀ key, TagDict_get key w1 = (w1, Ok (_dict w1 !! key))) ∧
    (∀ key, let w2 := (TagDict_getitem key w1).1 in
            _dict w2 = _dict w1 ∧
            MATROSKA_TAG_DATA w2 = MATROSKA_TAG_DATA w1 ∧
            _initialized w2 = true).
Proof.
  intros w w1. pose proof (delayed_init_initialized w) as Hi. fold w1 in Hi.
  pose proof (delayed_init_done w1 Hi) as Hd.
  split_and!; try done.
  - unfold TagDict_len, bind. by rewrite Hd.
  - unfold TagDict_keys, bind. by rewrite Hd.
  - intros key. unfold TagDict_contains, bind. by rewrite Hd.
  - intros key. unfold TagDict_get, bind. by rewrite Hd.
  - intros key w2. unfold w2. rewrite getitem_initialized by done.
    split_and!.
    + apply getitem_body_dict.
    + apply (ev_table _ _ (preserves_getitem_body key w1)).
    + by rewrite (ev_initialized _ _ (preserves_getitem_body key w1)).
Qed.

(** ** Operations that leave the dictionary alone *)

Lemma dict_frame_bind {A B} (m : M A) (k : A → M B) :
  dict_frame m → (∀ a, dict_frame (k a)) → dict_frame (bind m k).
Proof.
  intros Hm Hk w. unfold bind. specialize (Hm w).
  destruct (m w) as [w1 [a|e]]; simpl in *; [|done].
  by rewrite Hk.
Qed.

Lemma dict_frame_getitem_body key : dict_frame (getitem_body key).
Proof. intros w. apply getitem_body_dict. Qed.

Lemma dict_frame_setattrs_at a l : dict_frame (setattrs_at a l).
Proof.
  induction l as [|[n v] l IH]; simpl; [done|].
  apply dict_frame_bind; [done|]. by intros _.
Qed.

Lemma dict_frame_apply_overrides ovs : dict_frame (apply_overrides ovs).
Proof.
  induction ovs as [|[n l] ovs IH]; simpl; [done|].
  apply dict_frame_bind; [done|]. intros b.
  apply dict_frame_bind; [|done].
  destruct b; [|done].
  apply dict_frame_bind; [apply dict_frame_getitem_body|].
  intros a. apply dict_frame_setattrs_at.
Qed.

Lemma dict_frame_Tag_init_with lookup id nm cls p ma mu we mi mx kw :
  (∀ k, dict_frame (lookup k)) →
  dict_frame (Tag_init_with lookup id nm cls p ma mu we mi mx kw).
Proof.
  intros Hl. unfold Tag_init_with. destruct p as [k|]; [|done].
  case_bool_decide; [done|].
  apply dict_frame_bind; [apply Hl|done].
Qed.

(** ** The entries of the dictionary

    Every entry is filed under the id or the name of the object it refers
    to, both keys of that object are present, and the object satisfies a
    property [G] of its identifying fields. *)

Section dict_invariant.
Variable G : Tag → Prop.
Hypothesis G_static : ∀ t t', statics t' = statics t → G t → G t'.

Lemma dict_wf_on_empty h : dict_wf_on G h ∅.
Proof. intros k a Hk. by rewrite lookup_empty in Hk. Qed.

Lemma dict_wf_on_evolves h h' d :
  dict_wf_on G h d → heap_evolves h h' → dict_wf_on G h' d.
Proof using G_static.
  intros Hwf Hev k a Hk. destruct Hev as [_ Hh].
  destruct (Hwf k a Hk) as (t & Ht & Hkey & Hi & Hn & HG).
  destruct (Hh a t Ht) as (t' & Ht' & Hs & _).
  exists t'. unfold statics in Hs. simplify_eq.
  split_and!; try done; try congruence.
  apply (G_static t); [unfold statics; congruence|done].
Qed.

Lemma dict_wf_frame {A} (m : M A) w :
  preserves m → dict_frame m → dict_wf G w → dict_wf G (m w).1.
Proof using G_static.
  intros Hp Hf Hwf. unfold dict_wf. rewrite Hf.
  eapply dict_wf_on_evolves; [done|apply Hp].
Qed.

Lemma dict_wf_on_insert h d a t :
  dict_wf_on G h d → h !! a = Some t → G t →
  dict_wf_on G h (<[KStr (name t) := a]> (<[KInt (ebml_id t) := a]> d)).
Proof.
  intros Hwf Ht HG k a' Hk.
  destruct (decide (k = KStr (name t))) as [->|Hn].
  { rewrite lookup_insert_eq in Hk. simplify_eq. exists t.
    split_and!; try done; [by right| |by rewrite lookup_insert_eq].
    rewrite lookup_insert_ne by done. by rewrite lookup_insert_eq. }
  rewrite lookup_insert_ne in Hk by done.
  destruct (decide (k = KInt (ebml_id t))) as [->|Hi].
  { rewrite lookup_insert_eq in Hk. simplify_eq. exists t.
    split_and!; try done; [by left| |by rewrite lookup_insert_eq].
    rewrite lookup_insert_ne by done. by rewrite lookup_insert_eq. }
  rewrite lookup_insert_ne in Hk by done.
  destruct (Hwf k a' Hk) as (t' & Ht' & Hkey & Hi' & Hn' & HG').
  exists t'. split_and!; try done.
  - rewrite !lookup_insert. repeat case_decide; done.
  - rewrite !lookup_insert. repeat case_decide; done.
Qed.

Lemma dict_wf_insert a w :
  dict_wf G w → (∀ t, heap w !! a = Some t → G t) →
  dict_wf G (TagDict_insert (VTag a) w).1.
Proof.
  intros Hwf HG. unfold TagDict_insert.
  destruct (heap w !! a) as [t|] eqn:Ht; [|done].
  apply dict_wf_on_insert; auto.
Qed.
End dict_invariant.

Lemma built_from_static r t t' :
  statics t' = statics t → built_from r t → built_from r t'.
Proof. unfold statics, built_from. intros Hs H. simplify_eq. naive_solver congruence. Qed.

Lemma row_skipped_config w w' r :
  is_webm w' = is_webm w → version w' = version w →
  row_skipped w' r = row_skipped w r.
Proof. unfold row_skipped. by intros -> ->. Qed.

(** The result of running one row of the table. *)
Lemma load_row_result r w :
  let w' := (load_row r w).1 in
  evolves w w' ∧
  ((load_row r w).2 = Ok tt →
     ∃ a t, heap w' !! a = Some t ∧ built_from r t ∧
            length (heap w) ≤ a ∧
            _dict w' = <[KStr (row_name r) := a]>
                         (<[KInt (row_ebml_id r) := a]> (_dict w))) ∧
  (∀ e, (load_row r w).2 = Raise e → _dict w' = _dict w).
Proof.
  intros w'. split; [apply preserves_load_row|].
  subst w'. unfold load_row, bind.
  destruct (locals_lookup (row_cls_name r) w) as [w1 [cls|e]] eqn:Hc; simpl.
  2:{ split; [done|]. intros _ _.
      unfold locals_lookup in Hc.
      repeat case_match; unfold ret, raise in Hc; by simplify_eq. }
  assert (w1 = w) as ->.
  { unfold locals_lookup in Hc.
    repeat case_match; unfold ret, raise in Hc; by simplify_eq. }
  clear Hc.
  set (kw := List.filter _ _).
  destruct (Tag_init_with getitem_body (row_ebml_id r) (row_name r) cls
              (row_parent r) (row_mandatory r) (row_multiple r) (row_webm r)
              (row_minver r) (row_maxver r) kw w) as [w2 [a|e]] eqn:Hi; simpl.
  2:{ split; [done|]. intros _ _.
      pose proof (dict_frame_Tag_init_with getitem_body (row_ebml_id r)
                    (row_name r) cls (row_parent r) (row_mandatory r)
                    (row_multiple r) (row_webm r) (row_minver r)
                    (row_maxver r) kw dict_frame_getitem_body w) as Hf.
      by rewrite Hi in Hf. }
  assert (∃ p, heap w2 !! a = Some
                 (constructed (row_ebml_id r) (row_name r) cls p
                    (row_mandatory r) (row_multiple r) (row_webm r)
                    (row_minver r) (row_maxver r) kw) ∧
               length (heap w) ≤ a ∧ _dict w2 = _dict w) as (p & Ha & Hlen & Hd).
  { unfold Tag_init_with in Hi. destruct (row_parent r) as [k|].
    - case_bool_decide.
      + exists ParentStar. rewrite Tag_construct_eq in Hi. simplify_eq. simpl.
        split_and!; [|done|done].
        rewrite lookup_app_r by done. by rewrite Nat.sub_diag.
      + unfold bind in Hi.
        pose proof (preserves_getitem_body k w) as Hev.
        pose proof (getitem_body_dict k w) as Hgd.
        destruct (getitem_body k w) as [w3 [pa|e]]; [|done]. simpl in *.
        exists (ParentTag pa). rewrite Tag_construct_eq in Hi. simplify_eq.
        simpl. split_and!; [| |done].
        * rewrite lookup_app_r by by rewrite length_alter.
          by rewrite length_alter, Nat.sub_diag.
        * by destruct Hev as [_ _ _ _ [? _] _].
    - exists ParentNone. rewrite Tag_construct_eq in Hi. simplify_eq. simpl.
      split_and!; [|done|done].
      rewrite lookup_app_r by done. by rewrite Nat.sub_diag. }
  unfold TagDict_insert. rewrite Ha. simpl.
  pose proof (constructed_statics (row_ebml_id r) (row_name r) cls p
                (row_mandatory r) (row_multiple r) (row_webm r)
                (row_minver r) (row_maxver r) kw) as Hs.
  unfold statics in Hs. simplify_eq.
  split; [|done]. intros _. eexists a, _. split; [exact Ha|].
  split_and!; [unfold built_from; split_and!; congruence|done|].
  rewrite Hd. f_equal; [congruence|f_equal; congruence].
Qed.

Lemma load_rows_result (G : Tag → Prop) rows w :
  (∀ t t', statics t' = statics t → G t → G t') →
  let w' := (load_rows rows w).1 in
  evolves w w' ∧
  (dict_wf G w →
   (∀ r t, r ∈ rows → row_skipped w r = false → built_from r t → G t) →
   dict_wf G w') ∧
  ((load_rows rows w).2 = Ok tt →
   ∀ r, r ∈ rows → row_skipped w r = false →
        is_Some (_dict w' !! KInt (row_ebml_id r)) ∧
        is_Some (_dict w' !! KStr (row_name r))).
Proof.
  intros G_static. revert w.
  induction rows as [|r rows IH]; intros w; simpl.
  { split_and!; [reflexivity|done|]. intros _ r Hr. by apply elem_of_nil in Hr. }
  unfold bind.
  destruct (row_skipped w r) eqn:Hskip.
  - destruct (IH w) as (Hev & Hwf & Hcov). split_and!; [done| |].
    + intros H1 H2. apply Hwf; [done|]. intros r' t Hr'. apply H2.
      apply elem_of_cons. by right.
    + intros Hok r' Hr' Hs'. apply elem_of_cons in Hr' as [->|Hr'];
        [congruence|by apply Hcov].
  - destruct (load_row_result r w) as (Hev1 & Hok1 & Herr1).
    destruct (load_row r w) as [w1 [[]|e]] eqn:Hl; simpl in *.
    + destruct (Hok1 eq_refl) as (a & t & Ha & Hb & Hlen & Hd).
      destruct (IH w1) as (Hev & Hwf & Hcov).
      assert (∀ r', row_skipped w1 r' = row_skipped w r') as Hsk.
      { intros r'. apply row_skipped_config; apply Hev1. }
      split_and!; [by etrans| |].
      * intros H1 H2. apply Hwf.
        -- unfold dict_wf. rewrite Hd.
           pose proof Hb as (Hid & Hnm & _). rewrite <- Hid, <- Hnm.
           apply dict_wf_on_insert; [|done|].
           ++ eapply dict_wf_on_evolves; [done|done|apply Hev1].
           ++ apply (H2 r); [apply elem_of_cons; by left|done|done].
        -- intros r' t' Hr'. rewrite Hsk. apply H2. apply elem_of_cons. by right.
      * intros Hok r' Hr' Hs'. apply elem_of_cons in Hr' as [->|Hr'].
        -- pose proof (ev_dom _ _ Hev) as Hdom. rewrite Hd in Hdom.
           split; apply elem_of_dom, Hdom, elem_of_dom.
           ++ rewrite lookup_insert_ne by done. by rewrite lookup_insert_eq.
           ++ by rewrite lookup_insert_eq.
        -- apply Hcov; [done|done|by rewrite Hsk].
    + split_and!; [done| |done].
      intros H1 _. unfold dict_wf. rewrite (Herr1 e eq_refl).
      eapply dict_wf_on_evolves; [done|done|apply Hev1].
Qed.

Lemma init_body_eq w :
  init_body w = bind (load_rows (MATROSKA_TAG_DATA w)) (λ _, overrides_pass) w.
Proof. done. Qed.

Lemma preserves_overrides_pass : preserves overrides_pass.
Proof.
  unfold overrides_pass.
  repeat (apply preserves_bind; [apply preserves_getitem_body|intros ?]).
  apply preserves_apply_overrides.
Qed.

Lemma dict_frame_overrides_pass : dict_frame overrides_pass.
Proof.
  unfold overrides_pass.
  repeat (apply dict_frame_bind; [apply dict_frame_getitem_body|intros ?]).
  apply dict_frame_apply_overrides.
Qed.

Lemma init_body_result (G : Tag → Prop) w :
  (∀ t t', statics t' = statics t → G t → G t') →
  let w' := (init_body w).1 in
  evolves w w' ∧
  (dict_wf G w →
   (∀ r t, r ∈ MATROSKA_TAG_DATA w → row_skipped w r = false →
           built_from r t → G t) →
   dict_wf G w') ∧
  ((init_body w).2 = Ok tt →
   ∀ r, r ∈ MATROSKA_TAG_DATA w → row_skipped w r = false →
        is_Some (_dict w' !! KInt (row_ebml_id r)) ∧
        is_Some (_dict w' !! KStr (row_name r))).
Proof.
  intros G_static w'. split; [apply preserves_init_body|].
  subst w'. rewrite init_body_eq. unfold bind.
  destruct (load_rows_result G (MATROSKA_TAG_DATA w) w G_static)
    as (Hev & Hwf & Hcov).
  destruct (load_rows (MATROSKA_TAG_DATA w) w) as [w1 [[]|e]]; simpl in *.
  - split.
    + intros H1 H2. apply dict_wf_frame;
        auto using preserves_overrides_pass, dict_frame_overrides_pass.
    + intros _ r Hr Hs. rewrite dict_frame_overrides_pass. by apply Hcov.
  - split; [done|done].
Qed.

(** ** Profiles *)

Lemma set_doc_type_and_version_eq doc_type ver w :
  set_doc_type_and_version doc_type ver w =
  if String.eqb doc_type "webm" then
    init_body (init_start (profile_world w true ver))
  else if String.eqb doc_type "matroska" then
    init_body (init_start (profile_world w false ver))
  else (w, Raise AssertionError).
Proof. done. Qed.

Lemma row_skipped_false w r :
  row_skipped w r = false ↔ row_active (is_webm w) (version w) r.
Proof.
  unfold row_skipped, row_active. destruct (is_webm w).
  - by destruct (row_webm r).
  - rewrite orb_false_iff, Z.ltb_ge, Z.gtb_ltb, Z.ltb_ge. done.
Qed.

(** The registry after a successful profile change, in terms of the rows of
    the table as it then is. *)
Lemma profile_registry w web ver w' :
  init_body (init_start (profile_world w web ver)) = (w', Ok tt) →
  MATROSKA_TAG_DATA w' = MATROSKA_TAG_DATA w ++ [LibInternal; LibInternal2] ∧
  is_webm w' = web ∧ version w' = ver ∧
  (∀ k a t, _dict w' !! k = Some a → heap w' !! a = Some t →
     ∃ r, r ∈ MATROSKA_TAG_DATA w' ∧ row_active web ver r ∧ built_from r t ∧
          (k = KInt (row_ebml_id r) ∨ k = KStr (row_name r))) ∧
  (∀ k, is_Some (_dict w' !! k) ↔
     ∃ r, r ∈ MATROSKA_TAG_DATA w' ∧ row_active web ver r ∧
          (k = KInt (row_ebml_id r) ∨ k = KStr (row_name r))).
Proof.
  intros Hrun. set (w0 := init_start (profile_world w web ver)) in *.
  set (G := λ t, ∃ r, r ∈ MATROSKA_TAG_DATA w0 ∧ row_active web ver r ∧
                      built_from r t).
  assert (∀ t t', statics t' = statics t → G t → G t') as G_static.
  { intros t t' Hs (r & ? & ? & ?). exists r.
    eauto using built_from_static. }
  destruct (init_body_result G w0 G_static) as (Hev & Hwf & Hcov).
  rewrite Hrun in *. simpl in *.
  assert (MATROSKA_TAG_DATA w' = MATROSKA_TAG_DATA w0) as Ht by apply Hev.
  assert (dict_wf G w') as Hwf'.
  { apply Hwf; [apply dict_wf_on_empty|].
    intros r t Hr Hs Hb. exists r. split_and!; try done.
    by apply row_skipped_false in Hs. }
  assert (∀ k a t, _dict w' !! k = Some a → heap w' !! a = Some t →
     ∃ r, r ∈ MATROSKA_TAG_DATA w' ∧ row_active web ver r ∧ built_from r t ∧
          (k = KInt (row_ebml_id r) ∨ k = KStr (row_name r))) as Hdesc.
  { intros k a t Hk Ha.
    destruct (Hwf' k a Hk) as (t' & Ht' & Hkey & _ & _ & r & Hr & Hact & Hb).
    assert (t' = t) as -> by congruence.
    exists r. rewrite Ht. split_and!; try done.
    destruct Hb as (<- & <- & _). done. }
  split_and!; try done.
  - by rewrite (ev_is_webm _ _ Hev).
  - by rewrite (ev_version _ _ Hev).
  - intros k. split.
    + intros [a Hk]. destruct (Hwf' k a Hk) as (t & Ha & _).
      destruct (Hdesc k a t Hk Ha) as (r & ? & ? & ? & ?). by exists r.
    + intros (r & Hr & Hact & Hkey). rewrite Ht in Hr.
      destruct (Hcov eq_refl r Hr) as [H1 H2]; [by apply row_skipped_false|].
      by destruct Hkey as [-> | ->].
Qed.

(** C3: after a successful [set_doc_type_and_version], every descriptor in
    the registry was built from a row of the table that applies to the
    selected profile and is filed under that row's id or name; every row
    that applies has both of its keys registered; a row that does not apply
    (and shares neither id nor name with one that does) is absent under both
    of its keys.  Hence under the web profile every registered descriptor is
    web-eligible, and under the full specification at version [ver] every
    registered descriptor has [ver] in its version range. *)
Theorem C3_profile_filtering :
  ∀ w doc_type ver w',
    set_doc_type_and_version doc_type ver w = (w', Ok tt) →
    let web := String.eqb doc_type "webm" in
    let table := MATROSKA_TAG_DATA w' in
    (∀ k a t, _dict w' !! k = Some a → heap w' !! a = Some t →
       ∃ r, r ∈ table ∧ row_active web ver r ∧ built_from r t ∧
            (k = KInt (row_ebml_id r) ∨ k = KStr (row_name r))) ∧
    (∀ r, r ∈ table → row_active web ver r →
       is_Some (_dict w' !! KInt (row_ebml_id r)) ∧
       is_Some (_dict w' !! KStr (row_name r))) ∧
    (∀ r, r ∈ table → ¬ row_active web ver r →
       (∀ r', r' ∈ table → row_active web ver r' →
              row_ebml_id r' ≠ row_ebml_id r ∧ row_name r' ≠ row_name r) →
       _dict w' !! KInt (row_ebml_id r) = None ∧
       _dict w' !! KStr (row_name r) = None) ∧
    (web = true →
       ∀ k a t, _dict w' !! k = Some a → heap w' !! a = Some t →
                webm t = true) ∧
    (web = false →
       ∀ k a t, _dict w' !! k = Some a → heap w' !! a = Some t →
                (minver t ≤ ver ∧ ver ≤ maxver t)%Z).
Proof.
  intros w doc_type ver w' Hrun web table.
  rewrite set_doc_type_and_version_eq in Hrun. fold web in Hrun.
  assert (init_body (init_start (profile_world w web ver)) = (w', Ok tt))
    as Hrun'.
  { destruct web; [done|]. by destruct (String.eqb doc_type "matroska"). }
  destruct (profile_registry w web ver w' Hrun')
    as (_ & _ & _ & Hdesc & Hkeys).
  fold table in Hdesc, Hkeys.
  split_and!; try done.
  - intros r Hr Hact. split; apply Hkeys; exists r; by eauto.
  - intros r Hr Hina Huniq.
    split; apply eq_None_not_Some; intros Hsome;
      apply Hkeys in Hsome as (r' & Hr' & Hact & Hkey);
      destruct (Huniq r' Hr' Hact) as [? ?];
      destruct Hkey; simplify_eq.
  - intros Hweb k a t Hk Ha. rewrite Hweb in Hdesc.
    destruct (Hdesc k a t Hk Ha) as (r & _ & Hact & Hb & _).
    destruct Hb as (_ & _ & _ & _ & -> & _). done.
  - intros Hweb k a t Hk Ha. rewrite Hweb in Hdesc.
    destruct (Hdesc k a t Hk Ha) as (r & _ & Hact & Hb & _).
    destruct Hb as (_ & _ & _ & _ & _ & -> & ->). done.
Qed.

Lemma pair_eta_ok {A} (x : World * Res A) (a : A) :
  x.2 = Ok a → x = (x.1, Ok a).
Proof. destruct x as [w r]. simpl. by intros ->. Qed.

Lemma C3_witness :
  (set_doc_type_and_version "webm" 4 sample_world).2 = Ok tt ∧
  ∀ k a t,
    _dict (set_doc_type_and_version "webm" 4 sample_world).1 !! k = Some a →
    heap (set_doc_type_and_version "webm" 4 sample_world).1 !! a = Some t →
    webm t = true.
Proof.
  split; [vm_compute; reflexivity|].
  refine (proj1 (proj2 (proj2 (proj2
            (C3_profile_filtering sample_world "webm" 4 _
               (pair_eta_ok (set_doc_type_and_version "webm" 4 sample_world)
                            tt _))))) eq_refl).
  vm_compute. reflexivity.
Defined.

(** ** Dual keys *)

Lemma registry_ok_init_body w : registry_ok w → registry_ok (init_body w).1.
Proof.
  intros H. by apply (init_body_result (λ _, True) w).
Qed.

Lemma registry_ok_delayed_init w :
  registry_ok w → registry_ok (delayed_init w).1.
Proof.
  intros H. rewrite delayed_init_unfold. destruct (_initialized w); [done|].
  by apply registry_ok_init_body.
Qed.

Lemma registry_ok_set_doc_type_and_version doc_type ver w :
  doc_type = "webm" ∨ doc_type = "matroska" →
  registry_ok (set_doc_type_and_version doc_type ver w).1.
Proof.
  intros Hd. rewrite set_doc_type_and_version_eq.
  destruct Hd as [-> | ->]; simpl;
    apply registry_ok_init_body, dict_wf_on_empty.
Qed.

(** The registry of the sample table, under the default profile, holds the
    object made for the row ['LibInternal'] under that name; its id is 66,
    and the lookup by 66 returns another object, the one made for
    ['LibInternal2']. *)
Lemma C1_counterexample : ¬ dual_key_identity sample_world.
Proof.
  intros H.
  destruct (H 19 (constructed INTERNAL_ID "LibInternal"
                    (VClass ElementPlaceholder) ParentStar
                    false true true 1 4 [])) as [Hid _].
  - exists (KStr "LibInternal"). vm_compute. reflexivity.
  - vm_compute. reflexivity.
  - vm_compute in Hid. discriminate Hid.
Qed.

Lemma file_lookup h d a t k :
  h !! a = Some t →
  file h d a !! k = if decide (key_of t k) then Some a else d !! k.
Proof.
  intros Ht. unfold file. rewrite Ht.
  destruct (decide (k = KStr (name t))) as [->|Hn].
  { rewrite lookup_insert_eq. rewrite decide_True; [done|by right]. }
  rewrite lookup_insert_ne by done.
  destruct (decide (k = KInt (ebml_id t))) as [->|Hi].
  { rewrite lookup_insert_eq. rewrite decide_True; [done|by left]. }
  rewrite lookup_insert_ne by done.
  rewrite decide_False; [done|]. by intros [?|?].
Qed.

(** A key leads to the object inserted last among those it is a key of. *)
Lemma filed_lookup h l k a :
  Forall (λ a, a < length h) l →
  fold_left (file h) l ∅ !! k = Some a ↔
  ∃ l1 l2 t, l = l1 ++ a :: l2 ∧ h !! a = Some t ∧ key_of t k ∧
             ∀ a' t', a' ∈ l2 → h !! a' = Some t' → ¬ key_of t' k.
Proof.
  induction l as [|x l IH] using rev_ind; intros Hall.
  { simpl. rewrite lookup_empty. split; [done|].
    intros (l1 & l2 & t & Hl & _). by destruct l1. }
  apply Forall_app in Hall as [Hall Hx].
  rewrite Forall_singleton in Hx.
  destruct (lookup_lt_is_Some_2 h x Hx) as [tx Htx].
  rewrite fold_left_app. cbn [fold_left].
  rewrite (file_lookup _ _ _ tx) by done.
  destruct (decide (key_of tx k)) as [Hk|Hk].
  - split.
    + intros [= <-]. exists l, [], tx. split_and!; [done|done|done|].
      intros a' t' Ha'. by apply elem_of_nil in Ha'.
    + intros (l1 & l2 & t & Hl & Ht & Hkt & Hlater).
      destruct l2 as [|y l2 _] using rev_ind.
      * apply app_inj_tail in Hl as [_ ->]. done.
      * rewrite app_comm_cons, app_assoc in Hl.
        apply app_inj_tail in Hl as [_ ->].
        exfalso. apply (Hlater y tx); [|done|done].
        apply elem_of_app. right. by apply list_elem_of_singleton.
  - rewrite IH by done. split.
    + intros (l1 & l2 & t & -> & Ht & Hkt & Hlater).
      exists l1, (l2 ++ [x]), t.
      split_and!; [by rewrite <- app_assoc|done|done|].
      intros a' t' Ha' Ht'. apply elem_of_app in Ha' as [Ha'|Ha'].
      * by eapply Hlater.
      * apply list_elem_of_singleton in Ha' as ->. by simplify_eq.
    + intros (l1 & l2 & t & Hl & Ht & Hkt & Hlater).
      destruct l2 as [|y l2 _] using rev_ind.
      * apply app_inj_tail in Hl as [_ ->]. by simplify_eq.
      * rewrite app_comm_cons, app_assoc in Hl.
        apply app_inj_tail in Hl as [-> ->].
        exists l1, l2, t. split_and!; [done|done|done|].
        intros a' t' Ha'. apply Hlater.
        apply elem_of_app. by left.
Qed.

Lemma fold_file_evolves h h' l d :
  heap_evolves h h' → Forall (λ a, a < length h) l →
  fold_left (file h') l d = fold_left (file h) l d.
Proof.
  intros [_ Hev] Hall. revert d.
  induction Hall as [|a l Ha Hall IH]; intros d; [done|].
  cbn [fold_left]. rewrite IH. f_equal. unfold file.
  destruct (lookup_lt_is_Some_2 h a Ha) as [t Ht].
  destruct (Hev a t Ht) as (t' & Ht' & Hs & _). rewrite Ht, Ht'.
  unfold statics in Hs. injection Hs as Hid Hnm _ _ _ _ _ _.
  by rewrite Hid, Hnm.
Qed.

Lemma inserted_evolves w w' l :
  inserted w l → heap_evolves (heap w) (heap w') → _dict w' = _dict w →
  inserted w' l.
Proof.
  intros [Hall Hd] Hev Hd'. split.
  - eapply Forall_impl; [done|]. intros a Ha. destruct Hev as [Hlen _].
    cbv beta in *. lia.
  - rewrite Hd', Hd. symmetry. by apply fold_file_evolves.
Qed.

Lemma inserted_snoc w w' l a t :
  inserted w l → heap_evolves (heap w) (heap w') →
  heap w' !! a = Some t →
  _dict w' = <[KStr (name t) := a]> (<[KInt (ebml_id t) := a]> (_dict w)) →
  inserted w' (l ++ [a]).
Proof.
  intros [Hall Hd] Hev Ht Hd'. split.
  - apply Forall_app. split.
    + eapply Forall_impl; [done|]. intros x Hx. destruct Hev as [Hlen _].
      cbv beta in *. lia.
    + rewrite Forall_singleton. by eapply lookup_lt_Some.
  - rewrite fold_left_app. cbn [fold_left]. unfold file at 1.
    rewrite Ht, Hd', Hd. by rewrite (fold_file_evolves _ _ _ _ Hev Hall).
Qed.

Lemma inserted_load_row r w l :
  inserted w l → ∃ l', inserted (load_row r w).1 (l ++ l').
Proof.
  intros Hin. destruct (load_row_result r w) as (Hev & Hok & Herr).
  destruct (load_row r w) as [w' [[]|e]]; cbn [fst snd] in *.
  - destruct (Hok eq_refl) as (a & t & Ht & Hb & _ & Hd).
    exists [a]. eapply inserted_snoc; [done|apply Hev|done|].
    destruct Hb as (Hid & Hnm & _). by rewrite Hid, Hnm.
  - exists []. rewrite app_nil_r.
    eapply inserted_evolves; [done|apply Hev|by eapply Herr].
Qed.

Lemma inserted_load_rows rows w l :
  inserted w l → ∃ l', inserted (load_rows rows w).1 (l ++ l').
Proof.
  revert w l. induction rows as [|r rows IH]; intros w l Hin.
  { exists []. by rewrite app_nil_r. }
  cbn [load_rows]. unfold bind. destruct (row_skipped w r).
  - by apply IH.
  - destruct (inserted_load_row r w l Hin) as [l1 H1].
    destruct (load_row r w) as [w1 [[]|e]]; cbn [fst] in *.
    + destruct (IH w1 _ H1) as [l2 H2]. exists (l1 ++ l2).
      by rewrite app_assoc.
    + by exists l1.
Qed.

Lemma inserted_init_body w l :
  inserted w l → ∃ l', inserted (init_body w).1 (l ++ l').
Proof.
  intros Hin. rewrite init_body_eq. unfold bind.
  destruct (inserted_load_rows (MATROSKA_TAG_DATA w) w l Hin) as [l' Hl'].
  exists l'.
  destruct (load_rows (MATROSKA_TAG_DATA w) w) as [w1 [[]|e]];
    cbn [fst] in *; [|done].
  eapply inserted_evolves;
    [done|apply preserves_overrides_pass|apply dict_frame_overrides_pass].
Qed.

Lemma inserted_delayed_init w l :
  inserted w l →
  ∃ l', inserted (delayed_init w).1 (l ++ l') ∧
        (_initialized w = true → l' = []).
Proof.
  intros Hin. rewrite delayed_init_unfold.
  destruct (_initialized w) eqn:Hi.
  - exists []. by rewrite app_nil_r.
  - destruct (inserted_init_body (init_start w) l Hin) as [l' Hl'].
    by exists l'.
Qed.

Lemma inserted_lookup w l k a :
  inserted w l →
  _dict w !! k = Some a ↔
  ∃ l1 l2 t, l = l1 ++ a :: l2 ∧ heap w !! a = Some t ∧ key_of t k ∧
             ∀ a' t', a' ∈ l2 → heap w !! a' = Some t' → ¬ key_of t' k.
Proof. intros [Hall ->]. by apply filed_lookup. Qed.

Lemma getitem_registered w key a :
  _initialized w = true → a < length (heap w) →
  TagDict_getitem key w = (w, Ok a) ↔ _dict w !! key = Some a.
Proof.
  intros Hi Ha. rewrite getitem_initialized by done. unfold getitem_body.
  destruct (_dict w !! key) as [a0|].
  - split; [by intros [= ->]|by intros [= ->]].
  - destruct key as [z|s]; [|done]. rewrite Tag_construct_eq.
    split; [|done]. intros [= _ Hlen]. lia.
Qed.

(** C1, as the code has it.  On an initialized registry, right after
    [insert(d)] the lookup by the id of [d] and the lookup by its name both
    return the object [d] itself; a lookup on a registry that is not
    initialized is the lookup on the registry its initialization leaves.
    The registry is filled by [insert] alone: [TagDict()] starts from no
    insert, [insert] adds one, [delayed_init] adds those of its rows after
    the ones already made, and [set_doc_type_and_version] starts over.
    Every entry of such a registry leads to an inserted object, under its
    id or its name, and a key leads to the object inserted last with that
    key: an inserted descriptor is what the lookup by its id returns
    exactly when no descriptor inserted after it has the same id, and what
    the lookup by its name returns exactly when none inserted after it has
    the same name. *)
Theorem C1_dual_key_last_insert :
  (∀ w a t, _initialized w = true → heap w !! a = Some t →
     ∃ w', TagDict_insert (VTag a) w = (w', Ok tt) ∧
           TagDict_getitem (KInt (ebml_id t)) w' = (w', Ok a) ∧
           TagDict_getitem (KStr (name t)) w' = (w', Ok a)) ∧
  (∀ w key, (delayed_init w).2 = Ok tt →
     TagDict_getitem key w = TagDict_getitem key (delayed_init w).1) ∧
  (∀ table, inserted (TagDict_init table) []) ∧
  (∀ w l a, inserted w l → is_Some (heap w !! a) →
     inserted (TagDict_insert (VTag a) w).1 (l ++ [a])) ∧
  (∀ w l, inserted w l →
     ∃ l', inserted (delayed_init w).1 (l ++ l') ∧
           (_initialized w = true → l' = [])) ∧
  (∀ w doc_type ver, doc_type = "webm" ∨ doc_type = "matroska" →
     ∃ l, inserted (set_doc_type_and_version doc_type ver w).1 l) ∧
  (∀ w l k a, inserted w l → _dict w !! k = Some a →
     a ∈ l ∧ ∃ t, heap w !! a = Some t ∧ key_of t k) ∧
  (∀ w l a t,
     inserted w l → _initialized w = true →
     a ∈ l → heap w !! a = Some t →
     (TagDict_getitem (KInt (ebml_id t)) w = (w, Ok a) ↔
      ∃ l1 l2, l = l1 ++ a :: l2 ∧
               ∀ a' t', a' ∈ l2 → heap w !! a' = Some t' →
                        ebml_id t' ≠ ebml_id t) ∧
     (TagDict_getitem (KStr (name t)) w = (w, Ok a) ↔
      ∃ l1 l2, l = l1 ++ a :: l2 ∧
               ∀ a' t', a' ∈ l2 → heap w !! a' = Some t' →
                        name t' ≠ name t)).
Proof.
  split_and!.
  - intros w a t Hi Ht. unfold TagDict_insert. rewrite Ht.
    eexists. split; [done|].
    rewrite !getitem_initialized by done. unfold getitem_body.
    cbn [_dict with_dict]. split.
    + rewrite lookup_insert_ne by done. by rewrite lookup_insert_eq.
    + by rewrite lookup_insert_eq.
  - intros w key Hok.
    rewrite (getitem_initialized key (delayed_init w).1)
      by apply delayed_init_initialized.
    unfold TagDict_getitem, bind. by rewrite (pair_eta_ok _ _ Hok).
  - intros table. split; [by apply Forall_nil|done].
  - intros w l a Hin [t Ht]. unfold TagDict_insert. rewrite Ht.
    eapply inserted_snoc; [done|apply heap_evolves_refl|done|done].
  - apply inserted_delayed_init.
  - intros w doc_type ver Hd. rewrite set_doc_type_and_version_eq.
    assert (∀ web, ∃ l,
              inserted (init_body (init_start (profile_world w web ver))).1 l)
      as Hall.
    { intros web.
      destruct (inserted_init_body (init_start (profile_world w web ver)) [])
        as [l Hl]; [split; [by apply Forall_nil|done]|].
      by exists l. }
    destruct Hd as [-> | ->]; cbn [String.eqb Ascii.eqb Bool.eqb];
      apply Hall.
  - intros w l k a Hin Hk.
    apply (inserted_lookup w l k a Hin) in Hk
      as (l1 & l2 & t & -> & Ht & Hkt & _).
    split; [|by exists t].
    apply elem_of_app. right. apply elem_of_cons. by left.
  - intros w l a t Hin Hi Ha Ht.
    pose proof (lookup_lt_Some _ _ _ Ht) as Hlt.
    rewrite !getitem_registered by done.
    rewrite !(inserted_lookup w l _ a Hin). split.
    + split.
      * intros (l1 & l2 & t0 & Hl & Ht0 & _ & Hlater).
        exists l1, l2. split; [done|]. intros a' t' Ha' Ht' Heq.
        apply (Hlater a' t' Ha' Ht'). left. by rewrite Heq.
      * intros (l1 & l2 & Hl & Hlater). exists l1, l2, t.
        split_and!; [done|done|by left|].
        intros a' t' Ha' Ht' [Hk|Hk]; [|done].
        injection Hk as Hk. by apply (Hlater a' t' Ha' Ht').
    + split.
      * intros (l1 & l2 & t0 & Hl & Ht0 & _ & Hlater).
        exists l1, l2. split; [done|]. intros a' t' Ha' Ht' Heq.
        apply (Hlater a' t' Ha' Ht'). right. by rewrite Heq.
      * intros (l1 & l2 & Hl & Hlater). exists l1, l2, t.
        split_and!; [done|done|by right|].
        intros a' t' Ha' Ht' [Hk|Hk]; [done|].
        injection Hk as Hk. by apply (Hlater a' t' Ha' Ht').
Qed.

(** The registry of the sample table is the one that the inserts of its
    twenty-one objects, in the order of their addresses, leave. *)
Lemma sample_world_inserted : inserted sample_world (seq 0 21).
Proof.
  assert (length (heap sample_world) = 21) as Hlen
    by (vm_compute; reflexivity).
  split.
  - rewrite Forall_forall. intros a Ha.
    apply list_elem_of_In, in_seq in Ha. rewrite Hlen. lia.
  - vm_cast_no_check (@eq_refl _ (_dict sample_world)).
Qed.

Lemma C1_witness :
  TagDict_getitem (KInt INTERNAL_ID) sample_world = (sample_world, Ok 20) ∧
  TagDict_getitem (KStr "LibInternal2") sample_world = (sample_world, Ok 20) ∧
  TagDict_getitem (KStr "LibInternal") sample_world = (sample_world, Ok 19).
Proof.
  assert (heap sample_world !! 20 = Some tag_LibInternal2) as Ht
    by (vm_compute; reflexivity).
  assert (heap sample_world !! 19 = Some tag_LibInternal) as Ht'
    by (vm_compute; reflexivity).
  assert (_initialized sample_world = true) as Hi
    by (vm_compute; reflexivity).
  assert (∀ same : Tag → Prop,
            ∃ l1 l2, seq 0 21 = l1 ++ 20 :: l2 ∧
              ∀ a' t', a' ∈ l2 → heap sample_world !! a' = Some t' →
                       ¬ same t') as Hlast.
  { intros same. exists (seq 0 20), []. split; [reflexivity|].
    intros a' t' Ha'. destruct (not_elem_of_nil _ Ha'). }
  pose proof (proj2 (proj2 (proj2 (proj2 (proj2 (proj2 (proj2
                C1_dual_key_last_insert))))))
                sample_world (seq 0 21)) as H.
  assert (20 ∈ seq 0 21) as Hel
    by (apply list_elem_of_In; vm_compute; tauto).
  assert (19 ∈ seq 0 21) as Hel'
    by (apply list_elem_of_In; vm_compute; tauto).
  destruct (H 20 tag_LibInternal2 sample_world_inserted Hi Hel Ht)
    as [Hid Hnm].
  destruct (H 19 tag_LibInternal sample_world_inserted Hi Hel' Ht')
    as [_ Hnm'].
  split_and!.
  - apply Hid, (Hlast (λ t', ebml_id t' = ebml_id tag_LibInternal2)).
  - apply Hnm, (Hlast (λ t', name t' = name tag_LibInternal2)).
  - apply Hnm'. exists (seq 0 19), [20]. split; [reflexivity|].
    intros a' t' Ha' Hlook. apply list_elem_of_singleton in Ha'.
    rewrite Ha', Ht in Hlook. injection Hlook as <-.
    intros Heq. vm_compute in Heq. discriminate Heq.
Defined.

(** ** Unknown ids *)

(** C2: when the key is an integer that the registry (as it is once the
    lazy initialization the lookup starts with has run) does not hold, the
    lookup returns a new object: id the key, parent ["*"], not mandatory,
    multiple, webm, versions 1 to 4.  The dictionary is left as it was, so a
    second lookup builds another object, equal to the first by id and at
    another address. *)
Theorem C2_unknown_id_is_synthesized :
  ∀ w k,
    (delayed_init w).2 = Ok tt →
    _dict (delayed_init w).1 !! KInt k = None →
    let w1 := (delayed_init w).1 in
    ∃ a w2 t,
      TagDict_getitem (KInt k) w = (w2, Ok a) ∧
      heap w1 !! a = None ∧ heap w2 !! a = Some t ∧
      ebml_id t = k ∧ parent t = ParentStar ∧ Tag_mandatory t = false ∧
      multiple t = true ∧ webm t = true ∧ minver t = 1%Z ∧ maxver t = 4%Z ∧
      _dict w2 = _dict w1 ∧
      (_initialized w = true → _dict w2 = _dict w) ∧
      ∃ a' w3 t',
        TagDict_getitem (KInt k) w2 = (w3, Ok a') ∧
        a' ≠ a ∧ heap w2 !! a' = None ∧
        heap w3 !! a = Some t ∧ heap w3 !! a' = Some t' ∧
        Tag_eq t t' = true ∧ _dict w3 = _dict w1.
Proof.
  intros w k Hok Hnone w1.
  pose proof (delayed_init_initialized w) as Hinit. fold w1 in Hinit, Hnone.
  assert (delayed_init w = (w1, Ok tt)) as Hrun by by apply pair_eta_ok.
  set (t := constructed k "Unknown" (VStr "ElementUnsupported") ParentStar
                        false true true 1 4 []).
  set (w2 := with_heap w1 (heap w1 ++ [t])).
  set (w3 := with_heap w2 (heap w2 ++ [t])).
  exists (length (heap w1)), w2, t.
  assert (getitem_body (KInt k) w1 = (w2, Ok (length (heap w1)))) as Hg1.
  { unfold getitem_body. by rewrite Hnone. }
  assert (getitem_body (KInt k) w2 = (w3, Ok (length (heap w2)))) as Hg2.
  { unfold getitem_body. simpl. by rewrite Hnone. }
  split_and!; try done.
  - unfold TagDict_getitem, bind. by rewrite Hrun.
  - by apply lookup_ge_None_2.
  - simpl. rewrite lookup_app_r by done. by rewrite Nat.sub_diag.
  - intros Hi. simpl. unfold w1. by rewrite delayed_init_done.
  - exists (length (heap w2)), w3, t. split_and!; try done.
    + rewrite getitem_initialized; done.
    + simpl. rewrite length_app. simpl. lia.
    + by apply lookup_ge_None_2.
    + simpl. rewrite lookup_app_l by (rewrite length_app; simpl; lia).
      rewrite lookup_app_r by done. by rewrite Nat.sub_diag.
    + simpl. rewrite lookup_app_r by done. by rewrite Nat.sub_diag.
    + unfold Tag_eq. by apply bool_decide_eq_true.
Qed.

Lemma C2_witness :
  ∃ a w2, TagDict_getitem (KInt 0x4489) sample_world = (w2, Ok a).
Proof.
  destruct (C2_unknown_id_is_synthesized sample_world 0x4489)
    as (a & w2 & t & H1 & _).
  - vm_compute. reflexivity.
  - vm_compute. reflexivity.
  - exists a, w2. exact H1.
Defined.

(** ** Overrides *)

Lemma with_heap_id w : with_heap w (heap w) = w.
Proof. by destruct w. Qed.

Lemma setattrs_at_eq a l w :
  setattrs_at a l w = (with_heap w (alter (setattrs l) a (heap w)), Ok tt).
Proof.
  revert w. induction l as [|[n v] l IH]; intros w; simpl.
  - unfold ret. by rewrite list_alter_id, with_heap_id.
  - unfold bind, setattr_at. rewrite IH. simpl.
    by rewrite list_alter_alter_eq.
Qed.

Lemma setattrs_other l t a :
  a ∉ l.*1 → getattr (setattrs l t) a = getattr t a.
Proof.
  revert t. induction l as [|[b v] l IH]; intros t Hn; [done|].
  rewrite fmap_cons in Hn. apply not_elem_of_cons in Hn as [Hab Hn].
  unfold setattrs in *. simpl. rewrite IH by done.
  unfold getattr. simpl. by rewrite lookup_insert_ne.
Qed.

Lemma setattrs_assigned l t a v :
  NoDup l.*1 → (a, v) ∈ l → getattr (setattrs l t) a = Some v.
Proof.
  revert t. induction l as [|[b u] l IH]; intros t Hnd Hin.
  { by apply elem_of_nil in Hin. }
  rewrite fmap_cons in Hnd. apply NoDup_cons in Hnd as [Hb Hnd].
  apply elem_of_cons in Hin as [[= <- <-]|Hin].
  - change (getattr (setattrs l (setattr t a v)) a = Some v).
    rewrite setattrs_other by done. unfold getattr. simpl.
    by rewrite lookup_insert_eq.
  - by apply (IH (setattr t b u)).
Qed.

Lemma assoc_None {A} (l : list (string * A)) k :
  k ∉ l.*1 → assoc l k = None.
Proof.
  induction l as [|[k' v] l IH]; intros Hn; [done|]. simpl.
  rewrite fmap_cons in Hn. apply not_elem_of_cons in Hn as [Hk Hn].
  destruct (String.eqb_spec k k'); [done|]. by apply IH.
Qed.

Lemma assoc_Some {A} (l : list (string * A)) k v :
  NoDup l.*1 → (k, v) ∈ l → assoc l k = Some v.
Proof.
  induction l as [|[k' v'] l IH]; intros Hnd Hin.
  { by apply elem_of_nil in Hin. }
  rewrite fmap_cons in Hnd. apply NoDup_cons in Hnd as [Hk Hnd]. simpl.
  apply elem_of_cons in Hin as [Heq|Hin].
  - simplify_eq. by rewrite String.eqb_refl.
  - destruct (String.eqb_spec k k') as [->|]; [|by apply IH].
    destruct Hk. apply list_elem_of_fmap. by exists (k', v).
Qed.

Lemma registry_ok_names w : registry_ok w → names_ok w.
Proof.
  intros Hok n a Hn. destruct (Hok _ _ Hn) as (t & Ht & Hkey & _).
  exists t. split; [done|]. destruct Hkey; by simplify_eq.
Qed.

Lemma setattrs_name l t : name (setattrs l t) = name t.
Proof.
  pose proof (fold_setattr_statics l t) as H. unfold statics in H.
  unfold setattrs. by simplify_eq.
Qed.

Lemma getitem_body_str s w :
  getitem_body (KStr s) w =
  (w, match _dict w !! KStr s with
      | Some a => Ok a
      | None => Raise (KeyError (KStr s))
      end).
Proof. unfold getitem_body. by destruct (_dict w !! KStr s). Qed.

Lemma apply_overrides_result ovs w :
  names_ok w → NoDup ovs.*1 →
  ∃ h', apply_overrides ovs w = (with_heap w h', Ok tt) ∧
        length h' = length (heap w) ∧
        ∀ a t, heap w !! a = Some t →
               h' !! a = Some (overridden ovs (_dict w) a t).
Proof.
  revert w. induction ovs as [|[n l] ovs IH]; intros w Hnames Hnd.
  { exists (heap w). simpl. unfold ret. rewrite with_heap_id.
    split_and!; try done. }
  rewrite fmap_cons in Hnd. apply NoDup_cons in Hnd as [Hn Hnd].
  simpl. unfold bind, contains_body. simpl.
  set (w1 := match _dict w !! KStr n with
             | Some a0 => with_heap w (alter (setattrs l) a0 (heap w))
             | None => w
             end).
  assert ((if bool_decide (is_Some (_dict w !! KStr n))
           then bind (getitem_body (KStr n)) (λ tag, setattrs_at tag l)
           else ret tt) w = (w1, Ok tt)) as Hstep.
  { subst w1. destruct (_dict w !! KStr n) as [a0|] eqn:Hd.
    - rewrite bool_decide_eq_true_2 by by eexists.
      unfold bind. rewrite getitem_body_str, Hd. apply setattrs_at_eq.
    - rewrite bool_decide_eq_false_2; [done|]. by intros [? ?]. }
  unfold bind in Hstep. rewrite Hstep.
  assert (_dict w1 = _dict w) as Hd1 by (subst w1; by destruct (_dict w !! KStr n)).
  assert (length (heap w1) = length (heap w)) as Hl1.
  { subst w1. destruct (_dict w !! KStr n); simpl; [apply length_alter|done]. }
  assert (∀ a t, heap w !! a = Some t →
            heap w1 !! a = Some (if decide (_dict w !! KStr n = Some a)
                                 then setattrs l t else t)) as Hh1.
  { intros a t Ht. subst w1. destruct (_dict w !! KStr n) as [a0|] eqn:Hd.
    - cbn [heap with_heap]. rewrite list_lookup_alter.
      destruct (decide (a0 = a)) as [->|Hne].
      + rewrite Ht. cbn [fmap option_fmap option_map]. by rewrite decide_True.
      + rewrite Ht. rewrite decide_False by congruence. done.
    - rewrite decide_False by done. done. }
  assert (names_ok w1) as Hnames1.
  { intros n' a Hn'. rewrite Hd1 in Hn'.
    destruct (Hnames n' a Hn') as (t & Ht & Hname).
    rewrite (Hh1 a t Ht). eexists. split; [done|].
    case_decide; [by rewrite setattrs_name|done]. }
  destruct (IH w1 Hnames1 Hnd) as (h' & Hrun & Hlen & Hh').
  exists h'. split_and!.
  - rewrite Hrun. f_equal. subst w1. by destruct (_dict w !! KStr n).
  - congruence.
  - intros a t Ht. rewrite (Hh' _ _ (Hh1 a t Ht)). f_equal.
    rewrite Hd1. unfold overridden. simpl.
    destruct (decide (_dict w !! KStr n = Some a)) as [Hna|Hna].
    + destruct (Hnames n a Hna) as (t0 & Ht0 & Hname).
      assert (t0 = t) as -> by congruence.
      rewrite setattrs_name, Hname, String.eqb_refl.
      rewrite (assoc_None ovs n Hn). by rewrite decide_True.
    + destruct (String.eqb_spec (name t) n) as [Heq|Hne]; [|done].
      rewrite Heq, (assoc_None ovs n Hn). by rewrite decide_False.
Qed.

Lemma overrides_names_NoDup pw ph sf : NoDup (overrides_table pw ph sf).*1.
Proof. apply (bool_decide_unpack _). vm_compute. exact I. Qed.

Lemma overrides_attrs_NoDup pw ph sf :
  Forall (λ e, NoDup e.2.*1) (overrides_table pw ph sf).
Proof.
  unfold overrides_table. cbv zeta.
  repeat (apply Forall_cons; split;
          [cbn [fst snd fmap list_fmap];
           apply (bool_decide_unpack _); vm_compute; exact I|]).
  by apply Forall_nil.
Qed.

Lemma overrides_pass_result w w' :
  names_ok w → overrides_pass w = (w', Ok tt) →
  ∃ pw ph sf,
    _dict w !! KStr "PixelWidth" = Some pw ∧
    _dict w !! KStr "PixelHeight" = Some ph ∧
    _dict w !! KStr "SamplingFrequency" = Some sf ∧
    _dict w' = _dict w ∧ length (heap w') = length (heap w) ∧
    ∀ a t, heap w !! a = Some t →
           heap w' !! a =
           Some (overridden (overrides_table pw ph sf) (_dict w) a t).
Proof.
  intros Hnames Hrun. unfold overrides_pass, bind in Hrun.
  rewrite !getitem_body_str in Hrun.
  destruct (_dict w !! KStr "PixelWidth") as [pw|]; [|done].
  destruct (_dict w !! KStr "PixelHeight") as [ph|]; [|done].
  destruct (_dict w !! KStr "SamplingFrequency") as [sf|]; [|done].
  destruct (apply_overrides_result (overrides_table pw ph sf) w Hnames
              (overrides_names_NoDup pw ph sf)) as (h' & Hrun' & Hlen & Hh').
  rewrite Hrun' in Hrun. simplify_eq. by exists pw, ph, sf.
Qed.

Lemma constructed_default_size id nm cls p ma mu we mi mx kw a :
  a = attr_header_size_min ∨ a = attr_data_size_min → a ∉ kw.*1 →
  getattr (constructed id nm cls p ma mu we mi mx kw) a = Some (VInt 0).
Proof.
  intros Ha Hn. unfold constructed. fold (setattrs kw).
  rewrite setattrs_other by done. unfold getattr. simpl.
  destruct Ha as [-> | ->]; [|by rewrite lookup_insert_eq].
  rewrite lookup_insert_ne by done. by rewrite lookup_insert_eq.
Qed.

(** C4: after a successful initialization, for every entry of [overrides]
    whose name is registered, the descriptor registered under that name
    carries, for each attribute the entry lists, the entry's value.  So a
    registry built for the full specification at version 4 from a table with
    a row ["Segment"] that applies has a descriptor of that name whose
    [header_size_min] is 8, where the constructor had set 0. *)
Theorem C4_overrides_applied :
  ∀ w w',
    registry_ok w → _initialized w = false → delayed_init w = (w', Ok tt) →
    ∃ pw ph sf,
      _dict w' !! KStr "PixelWidth" = Some pw ∧
      _dict w' !! KStr "PixelHeight" = Some ph ∧
      _dict w' !! KStr "SamplingFrequency" = Some sf ∧
      (∀ n l a, (n, l) ∈ overrides_table pw ph sf →
                _dict w' !! KStr n = Some a →
         ∃ t, heap w' !! a = Some t ∧ name t = n ∧
              ∀ attr v, (attr, v) ∈ l → getattr t attr = Some v) ∧
      (is_webm w = false → version w = 4%Z →
       (∃ r, r ∈ MATROSKA_TAG_DATA w ∧ row_name r = "Segment" ∧
             (row_minver r ≤ 4 ∧ 4 ≤ row_maxver r)%Z) →
       ∃ a t, _dict w' !! KStr "Segment" = Some a ∧ heap w' !! a = Some t ∧
              name t = "Segment" ∧
              getattr t attr_header_size_min = Some (VInt 8)) ∧
      (∀ id nm cls p ma mu we mi mx kw,
         attr_header_size_min ∉ kw.*1 →
         getattr (constructed id nm cls p ma mu we mi mx kw)
                 attr_header_size_min = Some (VInt 0)).
Proof.
  intros w w' Hok Hinit Hrun.
  rewrite delayed_init_unfold, Hinit, init_body_eq in Hrun.
  set (w0 := init_start w) in *. unfold bind in Hrun.
  destruct (load_rows_result (λ _, True) (MATROSKA_TAG_DATA w0) w0)
    as (Hev & Hwf & Hcov); [done|].
  destruct (load_rows (MATROSKA_TAG_DATA w0) w0) as [w1 [[]|e]]; [|done].
  simpl in *.
  assert (registry_ok w1) as Hok1 by by apply Hwf.
  pose proof (registry_ok_names w1 Hok1) as Hnames.
  destruct (overrides_pass_result w1 w' Hnames Hrun)
    as (pw & ph & sf & Hpw & Hph & Hsf & Hd & Hlen & Hh).
  assert (∀ n l a, (n, l) ∈ overrides_table pw ph sf →
                   _dict w' !! KStr n = Some a →
            ∃ t, heap w' !! a = Some t ∧ name t = n ∧
                 ∀ attr v, (attr, v) ∈ l → getattr t attr = Some v) as Hov.
  { intros n l a Hin Hn. rewrite Hd in Hn.
    destruct (Hnames n a Hn) as (t1 & Ht1 & Hname).
    exists (setattrs l t1). split_and!.
    - rewrite (Hh a t1 Ht1). f_equal. unfold overridden.
      rewrite Hname, (assoc_Some _ n l (overrides_names_NoDup pw ph sf) Hin).
      by rewrite decide_True.
    - by rewrite setattrs_name.
    - intros attr v Hav. apply setattrs_assigned; [|done].
      pose proof (overrides_attrs_NoDup pw ph sf) as Hall.
      rewrite Forall_forall in Hall. apply (Hall (n, l) Hin). }
  exists pw, ph, sf. rewrite Hd. split_and!; try done.
  - intros n l a. rewrite <- Hd. apply Hov.
  - intros Hweb Hver (r & Hr & Hname & Hrange).
    destruct (Hcov eq_refl r) as [_ [a Ha]].
    + subst w0. simpl. apply elem_of_app. by left.
    + apply row_skipped_false. subst w0. simpl. rewrite Hweb, Hver. done.
    + rewrite Hname in Ha. rewrite <- Hd in Ha.
      destruct (Hov "Segment" [(attr_cls, VClass ElementSegment);
                               (attr_header_size_min, VInt 8)] a)
        as (t & Ht & Hnm & Hattrs); [|done|].
      { apply (list_elem_of_lookup_2 _ 3). reflexivity. }
      exists a, t. rewrite <- Hd. split_and!; try done.
      apply Hattrs. apply elem_of_cons. right. apply elem_of_cons. by left.
  - intros. apply constructed_default_size; auto.
Qed.

Lemma C4_witness :
  ∃ a t, _dict sample_world !! KStr "Segment" = Some a ∧
         heap sample_world !! a = Some t ∧
         getattr t attr_header_size_min = Some (VInt 8).
Proof.
  destruct (C4_overrides_applied (TagDict_init sample_table) sample_world)
    as (pw & ph & sf & _ & _ & _ & _ & Hseg & _).
  - apply dict_wf_on_empty.
  - reflexivity.
  - unfold sample_world. apply pair_eta_ok. vm_compute. reflexivity.
  - destruct Hseg as (a & t & Ha & Ht & _ & Hsize).
    + reflexivity.
    + reflexivity.
    + exists (mkRow 0x18538067 "Segment" "ElementMaster" None
                    true true true 1 4 []).
      split; [|split; [reflexivity|simpl; lia]].
      apply (list_elem_of_lookup_2 _ 2). reflexivity.
    + exists a, t. split; [exact Ha|]. split; [exact Ht|exact Hsize].
Defined.

(** ** Child lists *)

Lemma linked_length h p : length (linked h p) = length h.
Proof. destruct p; simpl; by rewrite ?length_alter. Qed.

Lemma linked_lookup h p d td :
  h !! d = Some td →
  ∃ td', linked h p !! d = Some td' ∧ parent td' = parent td ∧
         children td' = if decide (p = ParentTag d)
                        then children td ++ [length h] else children td.
Proof.
  intros Hd. destruct p as [| |pa]; cbn [linked].
  - exists td. by rewrite decide_False.
  - exists td. by rewrite decide_False.
  - rewrite list_lookup_alter. destruct (decide (pa = d)) as [->|Hne].
    + rewrite Hd. cbn [fmap option_fmap option_map]. eexists.
      split; [done|]. by rewrite decide_True.
    + exists td. rewrite decide_False by congruence. done.
Qed.

Lemma linked_lookup_inv h p d td' :
  linked h p !! d = Some td' →
  ∃ td, h !! d = Some td ∧ parent td' = parent td ∧
        children td' = if decide (p = ParentTag d)
                       then children td ++ [length h] else children td.
Proof.
  intros Hd.
  assert (d < length h) as Hlt.
  { rewrite <- (linked_length h p). by eapply lookup_lt_Some. }
  destruct (lookup_lt_is_Some_2 h d Hlt) as [td Htd].
  destruct (linked_lookup h p d td Htd) as (td2 & H2 & Hp & Hc).
  exists td. by simplify_eq.
Qed.

Lemma heap_wf_children_lt h d td c :
  heap_wf h → h !! d = Some td → c ∈ children td → c < length h.
Proof.
  intros Hwf Hd Hc. destruct (Hwf d td Hd) as [H1 _].
  destruct (H1 c Hc) as (tc & Htc & _). by eapply lookup_lt_Some.
Qed.

Lemma count_occ_snoc (l : list nat) x y :
  count_occ Nat.eq_dec (l ++ [y]) x =
  count_occ Nat.eq_dec l x + (if decide (y = x) then 1 else 0).
Proof.
  rewrite count_occ_app. simpl.
  destruct (Nat.eq_dec y x), (decide (y = x)); done.
Qed.

Lemma heap_wf_construct h p tn :
  heap_wf h → (∀ pa, p = ParentTag pa → pa < length h) →
  parent tn = p → children tn = [] →
  heap_wf (linked h p ++ [tn]).
Proof.
  intros Hwf Hp Hpt Hct d td' Hd.
  assert (∀ x tx, h !! x = Some tx →
            ∃ tx', (linked h p ++ [tn]) !! x = Some tx' ∧
                   parent tx' = parent tx ∧
                   children tx' = if decide (p = ParentTag x)
                                  then children tx ++ [length h]
                                  else children tx) as Hfwd.
  { intros x tx Hx. destruct (linked_lookup h p x tx Hx) as (tx' & ? & ? & ?).
    exists tx'. split_and!; try done. by apply lookup_app_l_Some. }
  assert ((linked h p ++ [tn]) !! length h = Some tn) as Hnew.
  { rewrite lookup_app_r by by rewrite linked_length.
    by rewrite linked_length, Nat.sub_diag. }
  apply lookup_app_Some in Hd as [Hd|[Hge Hd]].
  - destruct (linked_lookup_inv h p d td' Hd) as (td & Htd & Hpar & Hch).
    assert (d < length h) as Hlt by by eapply lookup_lt_Some.
    destruct (Hwf d td Htd) as [Hc1 Hp1]. split.
    + intros c Hc. rewrite Hch in Hc.
      assert (c ∈ children td ∨ (p = ParentTag d ∧ c = length h)) as [Hin|[Hpd ->]].
      { case_decide; [|by left]. apply elem_of_app in Hc as [?|Hc]; [by left|].
        right. apply list_elem_of_singleton in Hc. done. }
      * destruct (Hc1 c Hin) as (tc & Htc & Hpc).
        destruct (Hfwd c tc Htc) as (tc' & Htc' & Hpc' & _).
        exists tc'. split; [done|congruence].
      * exists tn. split; [done|congruence].
    + intros p0 Hp0. rewrite Hpar in Hp0.
      destruct (Hp1 p0 Hp0) as (tp & Htp & Hcnt).
      destruct (Hfwd p0 tp Htp) as (tp' & Htp' & _ & Hch').
      exists tp'. split; [done|]. rewrite Hch'.
      case_decide; [|done]. rewrite count_occ_snoc, Hcnt.
      rewrite decide_False by lia. lia.
  - rewrite linked_length in *.
    assert (d = length h) as ->.
    { apply lookup_lt_Some in Hd. simpl in Hd. lia. }
    rewrite Nat.sub_diag in Hd. simpl in Hd. simplify_eq. split.
    + intros c Hc. rewrite Hct in Hc. by apply elem_of_nil in Hc.
    + intros pa Hpa.
      destruct (lookup_lt_is_Some_2 h pa) as [tp Htp]; [by apply Hp|].
      destruct (Hfwd pa tp Htp) as (tp' & Htp' & _ & Hch').
      exists tp'. split; [done|]. rewrite Hch', decide_True by done.
      rewrite count_occ_snoc, decide_True by done.
      rewrite (proj1 (count_occ_not_In Nat.eq_dec (children tp) (length h))); [done|].
      intros Hin. apply list_elem_of_In in Hin.
      pose proof (heap_wf_children_lt h pa tp _ Hwf Htp Hin). lia.
Qed.

Lemma heap_wf_alter h (f : Tag → Tag) a :
  heap_wf h → (∀ t, parent (f t) = parent t ∧ children (f t) = children t) →
  heap_wf (alter f a h).
Proof.
  intros Hwf Hf.
  assert (∀ x tx, h !! x = Some tx →
            ∃ tx', alter f a h !! x = Some tx' ∧ parent tx' = parent tx ∧
                   children tx' = children tx) as Hfwd.
  { intros x tx Hx. rewrite list_lookup_alter. case_decide; simplify_eq.
    - rewrite Hx. simpl. eexists. split; [done|apply Hf].
    - by exists tx. }
  intros d td' Hd.
  assert (d < length h) as Hlt.
  { rewrite <- (length_alter f h a). by eapply lookup_lt_Some. }
  destruct (lookup_lt_is_Some_2 h d Hlt) as [td Htd].
  destruct (Hfwd d td Htd) as (td2 & Htd2 & Hpar & Hch). simplify_eq.
  destruct (Hwf d td Htd) as [Hc1 Hp1]. split.
  - intros c Hc. rewrite Hch in Hc.
    destruct (Hc1 c Hc) as (tc & Htc & Hpc).
    destruct (Hfwd c tc Htc) as (tc' & ? & ? & _).
    exists tc'. split; [done|congruence].
  - intros p0 Hp0. rewrite Hpar in Hp0.
    destruct (Hp1 p0 Hp0) as (tp & Htp & Hcnt).
    destruct (Hfwd p0 tp Htp) as (tp' & ? & _ & Hch').
    exists tp'. split; [done|congruence].
Qed.

Lemma hoare_wf_Tag_construct id nm cls p ma mu we mi mx kw :
  hoare (λ w, world_wf w ∧ ∀ pa, p = ParentTag pa → pa < length (heap w))
        (Tag_construct id nm cls p ma mu we mi mx kw) wf_at world_wf.
Proof.
  intros w [[Hh Hd] Hp]. rewrite Tag_construct_eq.
  fold (linked (heap w) p). unfold wf_at, world_wf, dict_valid.
  cbn [heap _dict with_heap]. rewrite length_app, linked_length.
  split; [split|simpl; lia].
  - apply (heap_wf_construct (heap w) p); try done.
    + pose proof (constructed_statics id nm cls p ma mu we mi mx kw) as Hs.
      unfold statics in Hs. by simplify_eq.
    + apply constructed_children.
  - intros k a Hk. specialize (Hd k a Hk). lia.
Qed.

Lemma hoare_wf_getitem_body key :
  hoare world_wf (getitem_body key) wf_at world_wf.
Proof.
  intros w Hwf. unfold getitem_body.
  destruct (_dict w !! key) as [a|] eqn:Hk.
  - split; [done|]. by apply (proj2 Hwf key).
  - destruct key; [|done].
    apply (hoare_wf_Tag_construct _ _ _ ParentStar). by split.
Qed.

Lemma hoare_wf_Tag_init_with lookup id nm cls parent ma mu we mi mx kw :
  (∀ k, hoare world_wf (lookup k) wf_at world_wf) →
  hoare world_wf (Tag_init_with lookup id nm cls parent ma mu we mi mx kw)
        wf_at world_wf.
Proof.
  intros Hl. unfold Tag_init_with. destruct parent as [k|].
  - case_bool_decide.
    + intros w Hw. apply (hoare_wf_Tag_construct _ _ _ ParentStar). by split.
    + eapply hoare_bind; [apply Hl|]. intros pa w [Hw Hpa].
      apply (hoare_wf_Tag_construct _ _ _ (ParentTag pa)).
      split; [done|]. by intros ? [= <-].
  - intros w Hw. apply (hoare_wf_Tag_construct _ _ _ ParentNone). by split.
Qed.

Lemma hoare_wf_insert tag :
  hoare world_wf (TagDict_insert tag) (λ _, world_wf) world_wf.
Proof.
  intros w [Hh Hd]. unfold TagDict_insert. destruct tag; try done.
  destruct (heap w !! a) as [t|] eqn:Ht; [|done].
  split; [done|]. intros k a' Hk. simpl in *.
  apply lookup_lt_Some in Ht.
  rewrite !lookup_insert in Hk. repeat case_decide; simplify_eq; eauto.
Qed.

Lemma hoare_wf_locals_lookup s :
  hoare world_wf (locals_lookup s) (λ _, world_wf) world_wf.
Proof.
  intros w Hw. unfold locals_lookup.
  repeat case_match; unfold ret, raise in *; by simplify_eq.
Qed.

Lemma hoare_wf_load_row r :
  hoare world_wf (load_row r) (λ _, world_wf) world_wf.
Proof.
  unfold load_row. eapply hoare_bind; [apply hoare_wf_locals_lookup|].
  intros cls. eapply hoare_bind.
  - apply hoare_wf_Tag_init_with, hoare_wf_getitem_body.
  - intros a. eapply hoare_conseq; [apply hoare_wf_insert| |done|done].
    by intros w [Hw _].
Qed.

Lemma hoare_wf_load_rows rows :
  hoare world_wf (load_rows rows) (λ _, world_wf) world_wf.
Proof.
  induction rows as [|r rows IH]; simpl; [by apply hoare_ret|].
  eapply (hoare_bind _ _ _ (λ _, world_wf)); [|intros _; apply IH].
  intros w Hw. destruct (row_skipped w r); [done|].
  by apply hoare_wf_load_row.
Qed.

Lemma hoare_wf_setattrs_at a l :
  hoare world_wf (setattrs_at a l) (λ _, world_wf) world_wf.
Proof.
  intros w [Hh Hd]. rewrite setattrs_at_eq. split; simpl.
  - apply heap_wf_alter; [done|]. intros t.
    pose proof (fold_setattr_statics l t) as Hs. unfold statics in Hs.
    split; [unfold setattrs; by simplify_eq|apply fold_setattr_children].
  - intros k a' Hk. simpl in *. rewrite length_alter. by apply (Hd k).
Qed.

Lemma hoare_wf_apply_overrides ovs :
  hoare world_wf (apply_overrides ovs) (λ _, world_wf) world_wf.
Proof.
  induction ovs as [|[n l] ovs IH]; simpl; [by apply hoare_ret|].
  eapply (hoare_bind _ _ _ (λ _, world_wf)); [by intros w Hw|].
  intros b. eapply (hoare_bind _ _ _ (λ _, world_wf)); [|intros _; apply IH].
  destruct b; [|by apply hoare_ret].
  eapply hoare_bind; [apply hoare_wf_getitem_body|].
  intros a. eapply hoare_conseq; [apply hoare_wf_setattrs_at| |done|done].
  by intros w [Hw _].
Qed.

Lemma hoare_wf_overrides_pass :
  hoare world_wf overrides_pass (λ _, world_wf) world_wf.
Proof.
  unfold overrides_pass.
  eapply hoare_bind; [apply hoare_wf_getitem_body|]. intros pw.
  eapply hoare_bind.
  { eapply hoare_conseq; [apply hoare_wf_getitem_body| |done|done].
    by intros w [Hw _]. }
  intros ph. eapply hoare_bind.
  { eapply hoare_conseq; [apply hoare_wf_getitem_body| |done|done].
    by intros w [Hw _]. }
  intros sf. eapply hoare_conseq; [apply hoare_wf_apply_overrides| |done|done].
  by intros w [Hw _].
Qed.

Lemma hoare_wf_init_body : hoare world_wf init_body (λ _, world_wf) world_wf.
Proof.
  intros w Hw. rewrite init_body_eq.
  apply (hoare_bind world_wf (load_rows (MATROSKA_TAG_DATA w)) _
                    (λ _, world_wf)); [apply hoare_wf_load_rows| |done].
  intros _. apply hoare_wf_overrides_pass.
Qed.

Lemma hoare_wf_delayed_init :
  hoare world_wf delayed_init (λ _, world_wf) world_wf.
Proof.
  intros w Hw. rewrite delayed_init_unfold.
  destruct (_initialized w); [done|]. by apply hoare_wf_init_body.
Qed.

Lemma hoare_wf_getitem key : hoare world_wf (TagDict_getitem key) wf_at world_wf.
Proof.
  unfold TagDict_getitem.
  eapply (hoare_bind _ _ _ (λ _, world_wf)); [apply hoare_wf_delayed_init|].
  intros _. apply hoare_wf_getitem_body.
Qed.

Lemma hoare_wf_set_doc_type_and_version doc_type ver :
  hoare world_wf (set_doc_type_and_version doc_type ver)
        (λ _, world_wf) world_wf.
Proof.
  intros w [Hh Hd]. rewrite set_doc_type_and_version_eq.
  assert (∀ web, world_wf (init_start (profile_world w web ver))) as Hw.
  { intros web. split; [done|]. intros k a Hk. simpl in Hk.
    by rewrite lookup_empty in Hk. }
  destruct (String.eqb doc_type "webm"); [by apply hoare_wf_init_body|].
  destruct (String.eqb doc_type "matroska"); [by apply hoare_wf_init_body|].
  done.
Qed.

Lemma hoare_world {A} (P : World → Prop) (m : M A) (Q : A → World → Prop)
    (I : World → Prop) w :
  hoare P m (λ a w', Q a w' ∧ I w') I → P w → I (m w).1.
Proof.
  intros H HP. specialize (H w HP). destruct (m w) as [w' [a|e]]; simpl.
  - by destruct H.
  - done.
Qed.

Lemma heap_evolves_delayed_init w :
  heap_evolves (heap w) (heap (delayed_init w).1).
Proof.
  rewrite delayed_init_unfold. destruct (_initialized w).
  - apply heap_evolves_refl.
  - apply (ev_heap _ _ (preserves_init_body (init_start w))).
Qed.

Lemma filter_elem_of (f : nat → bool) (l : list nat) x :
  x ∈ List.filter f l ↔ x ∈ l ∧ f x = true.
Proof. rewrite !list_elem_of_In. apply filter_In. Qed.

(** Construction with a concrete parent, whatever [MATROSKA_TAGS[parent]]
    is run with. *)
Lemma construct_child lookup id nm cls k ma mu we mi mx kw w w' d :
  (∀ k, hoare world_wf (lookup k) wf_at world_wf) →
  (∀ k w, heap_evolves (heap w) (heap (lookup k w).1)) →
  world_wf w → k ≠ KStr "*" →
  Tag_init_with lookup id nm cls (Some k) ma mu we mi mx kw w = (w', Ok d) →
  ∃ p td tp' l,
    heap w' !! d = Some td ∧ parent td = ParentTag p ∧
    heap w' !! p = Some tp' ∧ children tp' = l ++ [d] ∧ (d ∉ l) ∧
    count_occ Nat.eq_dec (children tp') d = 1 ∧
    (∀ tp, heap w !! p = Some tp → children tp `prefix_of` l) ∧
    world_wf w'.
Proof.
  intros Hl Hev Hw Hk Hrun. unfold Tag_init_with in Hrun.
  rewrite bool_decide_eq_false_2 in Hrun by done. unfold bind in Hrun.
  specialize (Hl k w Hw). specialize (Hev k w).
  destruct (lookup k w) as [w1 [pa|e]]; [|done]. simpl in Hev.
  destruct Hl as [Hw1 Hpa].
  pose proof (hoare_wf_Tag_construct id nm cls (ParentTag pa) ma mu we mi mx kw
                w1) as Hc.
  rewrite Hrun in Hc. destruct Hc as [Hw' _].
  { split; [done|]. by intros ? [= <-]. }
  rewrite Tag_construct_eq in Hrun. simplify_eq.
  destruct (lookup_lt_is_Some_2 _ _ Hpa) as [tp1 Htp1].
  set (tn := constructed id nm cls (ParentTag pa) ma mu we mi mx kw).
  assert (length (heap w1) ∉ children tp1) as Hfresh.
  { intros Hin. pose proof (heap_wf_children_lt _ _ _ _ (proj1 Hw1) Htp1 Hin).
    lia. }
  exists pa, tn, (append_child (length (heap w1)) tp1), (children tp1).
  simpl. split_and!; try done.
  - rewrite lookup_app_r by by rewrite length_alter.
    by rewrite length_alter, Nat.sub_diag.
  - pose proof (constructed_statics id nm cls (ParentTag pa) ma mu we mi mx kw)
      as Hs. unfold statics in Hs. subst tn. by simplify_eq.
  - rewrite lookup_app_l by by rewrite length_alter.
    by rewrite list_lookup_alter_eq, Htp1.
  - rewrite count_occ_snoc, decide_True by done.
    rewrite (proj1 (count_occ_not_In Nat.eq_dec (children tp1) _)); [done|].
    intros Hin. by apply list_elem_of_In in Hin.
  - intros tp Htp. destruct Hev as [_ Hev].
    destruct (Hev pa tp Htp) as (tp2 & Htp2 & _ & Hpre). by simplify_eq.
Qed.

(** C9: a descriptor constructed with a concrete parent is appended to the
    end of that parent's child list, where it was not before, so it occurs
    there exactly once, and what the list held before stays in front of it;
    this shape of the heap is kept by every operation of the registry.  A
    child is produced by the parent's [required_children] exactly when its
    [mandatory] is true, and by [unique_children] exactly when its
    [multiple] is false. *)
Theorem C9_child_lists :
  (∀ w id nm cls k ma mu we mi mx kw w' d,
     world_wf w → k ≠ KStr "*" →
     (Tag_init id nm cls (Some k) ma mu we mi mx kw w = (w', Ok d) ∨
      Tag_init_with getitem_body id nm cls (Some k) ma mu we mi mx kw w
        = (w', Ok d)) →
     ∃ p td tp' l,
       heap w' !! d = Some td ∧ parent td = ParentTag p ∧
       heap w' !! p = Some tp' ∧ children tp' = l ++ [d] ∧ (d ∉ l) ∧
       count_occ Nat.eq_dec (children tp') d = 1 ∧
       (∀ tp, heap w !! p = Some tp → children tp `prefix_of` l) ∧
       world_wf w') ∧
  (∀ table, world_wf (TagDict_init table)) ∧
  (∀ w, world_wf w →
     world_wf (delayed_init w).1 ∧
     (∀ doc_type ver, world_wf (set_doc_type_and_version doc_type ver w).1) ∧
     (∀ key, world_wf (TagDict_getitem key w).1) ∧
     (∀ tag, world_wf (TagDict_insert tag w).1) ∧
     (∀ a t, heap w !! a = Some t →
             ∃ t', heap (delayed_init w).1 !! a = Some t' ∧
                   children t `prefix_of` children t')) ∧
  (∀ w d td p, world_wf w → heap w !! d = Some td → parent td = ParentTag p →
     ∃ tp, heap w !! p = Some tp ∧
           count_occ Nat.eq_dec (children tp) d = 1) ∧
  (∀ h tp c tc, c ∈ children tp → h !! c = Some tc →
     (c ∈ Tag_required_children h tp ↔ Tag_mandatory tc = true) ∧
     (c ∈ Tag_unique_children h tp ↔ multiple tc = false)).
Proof.
  split_and!.
  - intros w id nm cls k ma mu we mi mx kw w' d Hw Hk [Hrun|Hrun].
    + eapply (construct_child TagDict_getitem); try done.
      * apply hoare_wf_getitem.
      * intros k0 w0. unfold TagDict_getitem, bind.
        pose proof (heap_evolves_delayed_init w0) as H1.
        destruct (delayed_init w0) as [w1 [[]|e]]; simpl in *; [|done].
        eapply heap_evolves_trans; [done|].
        apply (ev_heap _ _ (preserves_getitem_body k0 w1)).
    + eapply (construct_child getitem_body); try done.
      * apply hoare_wf_getitem_body.
      * intros k0 w0. apply (ev_heap _ _ (preserves_getitem_body k0 w0)).
  - intros table. split.
    + intros d td Hd. by destruct d.
    + intros k a Hk. simpl in Hk. by rewrite lookup_empty in Hk.
  - intros w Hw. split_and!.
    + apply (hoare_world world_wf delayed_init (λ _ _, True) world_wf); [|done].
      eapply hoare_conseq; [apply hoare_wf_delayed_init|done| |done].
      by intros.
    + intros doc_type ver.
      apply (hoare_world world_wf _ (λ _ _, True) world_wf); [|done].
      eapply hoare_conseq;
        [apply hoare_wf_set_doc_type_and_version|done| |done].
      by intros.
    + intros key.
      apply (hoare_world world_wf _ (λ _ _, True) world_wf); [|done].
      eapply hoare_conseq; [apply hoare_wf_getitem|done| |done].
      by intros ? ? [? ?].
    + intros tag.
      apply (hoare_world world_wf _ (λ _ _, True) world_wf); [|done].
      eapply hoare_conseq; [apply hoare_wf_insert|done| |done].
      by intros.
    + intros a t Ht. destruct (heap_evolves_delayed_init w) as [_ Hev].
      destruct (Hev a t Ht) as (t' & ? & _ & ?). by exists t'.
  - intros w d td p [Hh _] Hd Hp. by apply (Hh d td Hd).
  - intros h tp c tc Hc Htc.
    unfold Tag_required_children, Tag_unique_children.
    rewrite !filter_elem_of, Htc. split; [naive_solver|].
    rewrite negb_true_iff. naive_solver.
Qed.

Lemma C9_witness :
  ∃ tp, heap sample_world !! 9 = Some tp ∧
        count_occ Nat.eq_dec (children tp) 11 = 1.
Proof.
  destruct C9_child_lists as (_ & Hinit & Hkeep & Honce & _).
  refine (Honce sample_world 11
            (mkTag 0xB0 "PixelWidth" (ParentTag 9) true false true 1 4
               (<[attr_min_val := VInt 1]>
                  (<[attr_data_size_min := VInt 0]>
                     (<[attr_header_size_min := VInt 0]>
                        (<[attr_cls := VClass ElementUnsigned]> ∅))))
               []) 9 _ _ _).
  - apply (proj1 (Hkeep (TagDict_init sample_table) (Hinit sample_table))).
  - vm_compute. reflexivity.
  - reflexivity.
Defined.

(** ** The rows appended at every initialization *)

Lemma init_body_over w : init_body w = init_over (MATROSKA_TAG_DATA w) w.
Proof. done. Qed.

Lemma set_doc_type_and_version_table doc_type ver w :
  doc_type = "webm" ∨ doc_type = "matroska" →
  MATROSKA_TAG_DATA (set_doc_type_and_version doc_type ver w).1 =
  MATROSKA_TAG_DATA w ++ [LibInternal; LibInternal2].
Proof.
  intros Hd. rewrite set_doc_type_and_version_eq.
  destruct Hd as [-> | ->]; simpl;
    by rewrite (ev_table _ _ (preserves_init_body _)).
Qed.

Lemma reinit_table profiles w :
  Forall (λ p, p.1 = "webm" ∨ p.1 = "matroska") profiles →
  MATROSKA_TAG_DATA (reinit profiles w) =
  MATROSKA_TAG_DATA w ++ internal_rows (length profiles).
Proof.
  revert w. induction profiles as [|[doc_type ver] ps IH]; intros w Hall; simpl.
  - by rewrite app_nil_r.
  - apply Forall_cons in Hall as [Hd Hall]. rewrite IH by done.
    rewrite set_doc_type_and_version_table by done.
    by rewrite <- app_assoc.
Qed.

Lemma internal_rows_length n : length (internal_rows n) = 2 * n.
Proof. induction n; simpl; lia. Qed.

Lemma load_rows_app rows1 rows2 w :
  load_rows (rows1 ++ rows2) w =
  bind (load_rows rows1) (λ _, load_rows rows2) w.
Proof.
  revert w. induction rows1 as [|r rows1 IH]; intros w; [done|].
  simpl. unfold bind.
  destruct (if row_skipped w r then (w, Ok tt) else load_row r w)
    as [w1 [[]|e]]; [|done].
  by rewrite IH.
Qed.

(** A row for a global tag of a known class runs without raising. *)
Lemma load_row_star r c w :
  assoc element_classes (row_cls_name r) = Some c →
  row_parent r = Some (KStr "*") →
  load_row r w =
  (with_dict
     (with_heap w
        (heap w ++
         [constructed (row_ebml_id r) (row_name r) (VClass c) ParentStar
            (row_mandatory r) (row_multiple r) (row_webm r)
            (row_minver r) (row_maxver r)
            (List.filter (λ kv, negb (bool_decide (kv.1 = attr_cls)))
                         (row_extra r))]))
     (<[KStr (row_name r) := length (heap w)]>
        (<[KInt (row_ebml_id r) := length (heap w)]> (_dict w))),
   Ok tt).
Proof.
  intros Hc Hp. unfold load_row, bind, locals_lookup. rewrite Hc. unfold ret.
  unfold Tag_init_with. rewrite Hp. rewrite bool_decide_eq_true_2 by done.
  rewrite Tag_construct_eq. unfold TagDict_insert. cbn [heap with_heap].
  rewrite lookup_app_r by done. rewrite Nat.sub_diag. cbn [lookup list_lookup].
  set (t := constructed _ _ _ _ _ _ _ _ _ _).
  pose proof (constructed_statics (row_ebml_id r) (row_name r) (VClass c)
                ParentStar (row_mandatory r) (row_multiple r) (row_webm r)
                (row_minver r) (row_maxver r)
                (List.filter (λ kv, negb (bool_decide (kv.1 = attr_cls)))
                             (row_extra r))) as Hs.
  fold t in Hs. unfold statics in Hs.
  assert (ebml_id t = row_ebml_id r) as -> by congruence.
  assert (name t = row_name r) as -> by congruence.
  done.
Qed.

Lemma load_internal_pair w :
  load_rows [LibInternal; LibInternal2] w =
  (if row_skipped w LibInternal then w else add_internal w, Ok tt).
Proof.
  assert (∀ w', row_skipped w' LibInternal2 = row_skipped w' LibInternal)
    as Hsk by done.
  cbn [load_rows]. unfold bind. destruct (row_skipped w LibInternal) eqn:Hs.
  { by rewrite Hsk, Hs. }
  rewrite (load_row_star LibInternal ElementPlaceholder) by done.
  rewrite Hsk. rewrite (row_skipped_config w) by done. rewrite Hs.
  rewrite (load_row_star LibInternal2 ElementPlaceholder) by done.
  unfold ret, add_internal. cbn [heap _dict with_heap with_dict].
  rewrite length_app, <- app_assoc. cbn [length app].
  by rewrite Nat.add_1_r.
Qed.

Lemma add_internal_view w k :
  internal_key k → view (add_internal w) k = Some (internal_tag k).
Proof.
  intros Hk. unfold view, add_internal. cbn [_dict heap with_dict with_heap].
  destruct Hk as [-> | [-> | ->]].
  - rewrite lookup_insert_ne by done. rewrite lookup_insert_eq.
    rewrite lookup_app_r by lia.
    by replace (S (length (heap w)) - length (heap w)) with 1 by lia.
  - rewrite lookup_insert_ne by done. rewrite lookup_insert_ne by done.
    rewrite lookup_insert_eq.
    rewrite lookup_app_r by lia. by rewrite Nat.sub_diag.
  - rewrite lookup_insert_eq. rewrite lookup_app_r by lia.
    by replace (S (length (heap w)) - length (heap w)) with 1 by lia.
Qed.

Lemma add_internal_other w k :
  ¬ internal_key k → _dict (add_internal w) !! k = _dict w !! k.
Proof.
  intros Hk. unfold add_internal. cbn [_dict with_dict with_heap].
  unfold internal_key in Hk.
  rewrite !lookup_insert_ne; [done|..]; intros <-; tauto.
Qed.

Lemma sim_add_internal_refl w : sim (add_internal w) (add_internal w).
Proof.
  split; try done.
  - exists []. by rewrite app_nil_r.
  - intros k Hk. by rewrite add_internal_view.
Qed.

Lemma sim_add_internal w1 w2 : sim w1 w2 → sim w1 (add_internal w2).
Proof.
  intros [[ext Hh] Hw Hv Ho Hi]. split.
  - exists (ext ++ [tag_LibInternal; tag_LibInternal2]).
    unfold add_internal. cbn [heap with_dict with_heap]. by rewrite Hh, app_assoc.
  - done.
  - done.
  - intros k Hk. rewrite add_internal_other by done. by apply Ho.
  - intros k Hk. split; [by apply Hi|by apply add_internal_view].
Qed.

Lemma load_internal_rows n w1 w2 :
  sim w1 w2 → row_skipped w1 LibInternal = false →
  ∃ w3, load_rows (internal_rows n) w2 = (w3, Ok tt) ∧ sim w1 w3.
Proof.
  revert w2. induction n as [|n IH]; intros w2 Hsim Hs.
  { by exists w2. }
  change (internal_rows (S n))
    with ([LibInternal; LibInternal2] ++ internal_rows n).
  rewrite load_rows_app. unfold bind. rewrite load_internal_pair.
  rewrite (row_skipped_config w1), Hs
    by (by destruct Hsim).
  apply IH; [by apply sim_add_internal|done].
Qed.

Lemma load_internal_rows_skipped n w :
  row_skipped w LibInternal = true →
  load_rows (internal_rows n) w = (w, Ok tt).
Proof.
  intros Hs. induction n as [|n IH]; [done|].
  change (internal_rows (S n))
    with ([LibInternal; LibInternal2] ++ internal_rows n).
  rewrite load_rows_app. unfold bind. by rewrite load_internal_pair, Hs.
Qed.

Lemma overrides_pass_eq w :
  overrides_pass w =
  match overrides_lookup (_dict w) with
  | Ok (pw, ph, sf) => apply_overrides (overrides_table pw ph sf) w
  | Raise e => (w, Raise e)
  end.
Proof.
  unfold overrides_pass, overrides_lookup, bind. rewrite !getitem_body_str.
  destruct (_dict w !! KStr "PixelWidth"); [|done].
  destruct (_dict w !! KStr "PixelHeight"); [|done].
  by destruct (_dict w !! KStr "SamplingFrequency").
Qed.

#[global] Instance internal_key_dec k : Decision (internal_key k).
Proof. unfold internal_key. apply _. Defined.

Lemma sim_lookup w1 w2 a t :
  sim w1 w2 → heap w1 !! a = Some t → heap w2 !! a = Some t.
Proof.
  intros [[ext Hh] _ _ _ _] Ha. rewrite Hh. by apply lookup_app_l_Some.
Qed.

Lemma sim_view w1 w2 k :
  sim w1 w2 → dict_valid w1 → view w2 k = view w1 k.
Proof.
  intros Hsim Hval. destruct (decide (internal_key k)) as [Hk|Hk].
  - destruct (sim_internal _ _ Hsim k Hk) as [-> ->]. done.
  - unfold view. rewrite (sim_other _ _ Hsim k Hk).
    destruct (_dict w1 !! k) as [a|] eqn:Hd; [|done].
    destruct (lookup_lt_is_Some_2 _ _ (Hval k a Hd)) as [t Ht].
    rewrite Ht. by apply (sim_lookup w1).
Qed.

Lemma sim_names_ok w1 w2 : sim w1 w2 → names_ok w1 → names_ok w2.
Proof.
  intros Hsim Hn n a Ha. destruct (decide (internal_key (KStr n))) as [Hk|Hk].
  - destruct (sim_internal _ _ Hsim _ Hk) as [_ Hv].
    unfold view in Hv. rewrite Ha in Hv. eexists. split; [done|].
    destruct Hk as [? | [[= ->] | [= ->]]]; done.
  - rewrite (sim_other _ _ Hsim _ Hk) in Ha.
    destruct (Hn n a Ha) as (t & Ht & Hname).
    exists t. split; [by apply (sim_lookup w1)|done].
Qed.

Lemma overrides_skip_internal pw ph sf k t l :
  assoc (overrides_table pw ph sf) (name t) = Some l →
  (name t = "LibInternal" ∨ name t = "LibInternal2" → False) ∧
  (k = KStr (name t) → ¬ internal_key k).
Proof.
  intros Hl.
  assert (name t = "LibInternal" ∨ name t = "LibInternal2" → False) as Hno.
  { intros [Hn|Hn]; rewrite Hn in Hl; discriminate Hl. }
  split; [done|]. intros -> [? | [[= Hn] | [= Hn]]]; [done|tauto|tauto].
Qed.

Lemma sim_overrides_pass w1 w2 :
  sim w1 w2 → names_ok w1 → dict_valid w1 →
  (overrides_pass w2).2 = (overrides_pass w1).2 ∧
  ∀ k, view (overrides_pass w2).1 k = view (overrides_pass w1).1 k.
Proof.
  intros Hsim Hnames Hval.
  pose proof (sim_names_ok _ _ Hsim Hnames) as Hnames2.
  rewrite !overrides_pass_eq.
  assert (overrides_lookup (_dict w2) = overrides_lookup (_dict w1)) as ->.
  { unfold overrides_lookup.
    rewrite !(sim_other _ _ Hsim); [done|..];
      intros [? | [? | ?]]; done. }
  destruct (overrides_lookup (_dict w1)) as [[[pw ph] sf]|e]; cbv beta iota.
  2:{ split; [done|]. intros k. by apply sim_view. }
  destruct (apply_overrides_result (overrides_table pw ph sf) w1 Hnames
              (overrides_names_NoDup pw ph sf)) as (h1 & -> & Hl1 & Hh1).
  destruct (apply_overrides_result (overrides_table pw ph sf) w2 Hnames2
              (overrides_names_NoDup pw ph sf)) as (h2 & -> & Hl2 & Hh2).
  split; [done|]. intros k. unfold view. cbn [fst _dict heap with_heap].
  destruct (decide (internal_key k)) as [Hk|Hk].
  - destruct (sim_internal _ _ Hsim k Hk) as [Hv1 Hv2]. unfold view in Hv1, Hv2.
    destruct (_dict w1 !! k) as [a1|]; [|done].
    destruct (_dict w2 !! k) as [a2|]; [|done].
    rewrite (Hh1 _ _ Hv1), (Hh2 _ _ Hv2). f_equal. unfold overridden.
    assert (assoc (overrides_table pw ph sf) (name (internal_tag k)) = None)
      as ->; [|done].
    unfold internal_tag. by case_decide.
  - rewrite (sim_other _ _ Hsim k Hk).
    destruct (_dict w1 !! k) as [a|] eqn:Hd; [|done].
    destruct (lookup_lt_is_Some_2 _ _ (Hval k a Hd)) as [t Ht].
    rewrite (Hh1 _ _ Ht), (Hh2 _ _ (sim_lookup _ _ _ _ Hsim Ht)). f_equal.
    unfold overridden.
    destruct (assoc (overrides_table pw ph sf) (name t)) as [l|] eqn:Hl; [|done].
    destruct (overrides_skip_internal pw ph sf (KStr (name t)) t l Hl)
      as [_ Hni].
    by rewrite (sim_other _ _ Hsim _ (Hni eq_refl)).
Qed.

Lemma registry_ok_valid w : registry_ok w → dict_valid w.
Proof.
  intros Hok k a Hk. destruct (Hok k a Hk) as (t & Ht & _).
  by eapply lookup_lt_Some.
Qed.

(** Loading further copies of the pair does not change what any key leads
    to. *)
Lemma init_over_duplicates rows n w :
  registry_ok w →
  (init_over (rows ++ internal_rows (S n)) w).2 =
  (init_over (rows ++ internal_rows 1) w).2 ∧
  ∀ k, view (init_over (rows ++ internal_rows (S n)) w).1 k =
       view (init_over (rows ++ internal_rows 1) w).1 k.
Proof.
  intros Hok. unfold init_over, bind.
  assert (load_rows (rows ++ internal_rows (S n)) w =
          bind (load_rows (rows ++ internal_rows 1))
               (λ _, load_rows (internal_rows n)) w) as ->.
  { change (internal_rows (S n)) with (internal_rows 1 ++ internal_rows n).
    by rewrite app_assoc, load_rows_app. }
  unfold bind.
  destruct (load_rows_result (λ _, True) (rows ++ internal_rows 1) w)
    as (_ & Hwf & _); [done|].
  assert (load_rows (rows ++ internal_rows 1) w =
          match load_rows rows w with
          | (w0, Ok _) =>
              (if row_skipped w0 LibInternal then w0 else add_internal w0,
               Ok tt)
          | (w0, Raise e) => (w0, Raise e)
          end) as Hload.
  { rewrite load_rows_app. unfold bind.
    destruct (load_rows rows w) as [w0 [[]|e]]; [|done].
    apply load_internal_pair. }
  rewrite Hload in *. clear Hload.
  destruct (load_rows rows w) as [w0 [[]|e]]; [|done].
  cbn [fst snd] in Hwf.
  destruct (row_skipped w0 LibInternal) eqn:Hs.
  - by rewrite load_internal_rows_skipped.
  - assert (registry_ok (add_internal w0)) as Hok1 by by apply Hwf.
    destruct (load_internal_rows n (add_internal w0) (add_internal w0))
      as (w3 & -> & Hsim); [apply sim_add_internal_refl|done|].
    apply sim_overrides_pass;
      [done|by apply registry_ok_names|by apply registry_ok_valid].
Qed.

(** C10: every run of the initializer first appends the rows ['LibInternal']
    and ['LibInternal2'], both with the reserved id 66, to
    [MATROSKA_TAG_DATA] and then loads the table so extended; a profile
    change runs it again, so after [n] profile changes the table is longer
    by [2 * n] rows.  Loading the table with any number of copies of the
    pair at its end gives the same outcome, and leads every key to an object
    with the same contents, as loading it with one copy. *)
Theorem C10_internal_rows_accumulate :
  (row_ebml_id LibInternal = INTERNAL_ID ∧
   row_ebml_id LibInternal2 = INTERNAL_ID ∧ INTERNAL_ID = 66%Z ∧
   row_name LibInternal = "LibInternal" ∧
   row_name LibInternal2 = "LibInternal2") ∧
  (∀ w, _initialized w = false →
     delayed_init w =
     init_over (MATROSKA_TAG_DATA w ++ [LibInternal; LibInternal2])
               (init_start w) ∧
     MATROSKA_TAG_DATA (delayed_init w).1 =
     MATROSKA_TAG_DATA w ++ [LibInternal; LibInternal2]) ∧
  (∀ doc_type ver w, doc_type = "webm" ∨ doc_type = "matroska" →
     MATROSKA_TAG_DATA (set_doc_type_and_version doc_type ver w).1 =
     MATROSKA_TAG_DATA w ++ [LibInternal; LibInternal2]) ∧
  (∀ profiles w,
     Forall (λ p, p.1 = "webm" ∨ p.1 = "matroska") profiles →
     MATROSKA_TAG_DATA (reinit profiles w) =
     MATROSKA_TAG_DATA w ++ internal_rows (length profiles) ∧
     length (MATROSKA_TAG_DATA (reinit profiles w)) =
     length (MATROSKA_TAG_DATA w) + 2 * length profiles) ∧
  (∀ rows n w, registry_ok w →
     (init_over (rows ++ internal_rows (S n)) w).2 =
     (init_over (rows ++ internal_rows 1) w).2 ∧
     ∀ k, view (init_over (rows ++ internal_rows (S n)) w).1 k =
          view (init_over (rows ++ internal_rows 1) w).1 k).
Proof.
  split_and!; try done.
  - intros w Hi. split; [|by apply delayed_init_table].
    by rewrite delayed_init_unfold, Hi.
  - intros doc_type ver w. apply set_doc_type_and_version_table.
  - intros profiles w Hall. rewrite reinit_table by done.
    split; [done|]. by rewrite length_app, internal_rows_length.
  - intros rows n w. apply init_over_duplicates.
Qed.

Lemma C10_witness :
  length (MATROSKA_TAG_DATA
            (reinit [("webm", 4%Z); ("matroska", 2%Z); ("matroska", 4%Z)]
                    sample_world)) =
  length (MATROSKA_TAG_DATA sample_world) + 6.
Proof.
  refine (proj2 (proj1 (proj2 (proj2 (proj2 C10_internal_rows_accumulate)))
                   [("webm", 4%Z); ("matroska", 2%Z); ("matroska", 4%Z)]
                   sample_world _)).
  repeat (apply Forall_cons; split; [simpl; tauto|]). by apply Forall_nil.
Defined.

(** ** Failures *)

(** On the registry of the sample table, initialized under the default
    profile, [remove] of an id that is not registered raises [KeyError]. *)
Lemma C8_counterexample : ¬ only_listed_failures sample_world.
Proof.
  intros H.
  destruct (H (op_remove (KInt 5)) (KeyError (KInt 5))) as [Hf|Hf].
  - vm_compute. reflexivity.
  - by destruct Hf as (tag & Ho & _).
  - by destruct Hf as (s & Ho & _).
Qed.

Lemma locals_lookup_cases c :
  (unbound c ∧ ∀ w, locals_lookup c w = (w, Raise (KeyError (KStr c)))) ∨
  (¬ unbound c ∧ ∃ v, ∀ w, locals_lookup c w = (w, Ok v)).
Proof.
  unfold unbound, locals_lookup.
  destruct (assoc element_classes c) as [cl|].
  { right. split; [by intros [? _]|]. by eexists. }
  destruct (String.eqb_spec c "cls_name") as [->|H1].
  { right. split; [|by eexists]. intros [_ Hn]. apply Hn. set_solver. }
  destruct (String.eqb_spec c "self") as [->|H2].
  { right. split; [|by eexists]. intros [_ Hn]. apply Hn. set_solver. }
  destruct (String.eqb_spec c "MATROSKA_TAG_DATA") as [->|H3].
  { right. split; [|by eexists]. intros [_ Hn]. apply Hn. set_solver. }
  destruct (String.eqb_spec c "tag_data") as [->|H4].
  { right. split; [|by eexists]. intros [_ Hn]. apply Hn. set_solver. }
  left. split; [|done]. split; [done|]. set_solver.
Qed.

Lemma Tag_construct_live id nm cls p ma mu we mi mx kw w :
  ∃ w' a, Tag_construct id nm cls p ma mu we mi mx kw w = (w', Ok a) ∧
          is_Some (heap w' !! a).
Proof.
  exists (Tag_construct id nm cls p ma mu we mi mx kw w).1, (length (heap w)).
  split; [by rewrite Tag_construct_eq|].
  rewrite Tag_construct_lookup. by eexists.
Qed.

(** [Tag.__init__] inside [delayed_init] raises in one case only: the
    parent is a name, other than ["*"], that the dictionary does not hold. *)
Lemma Tag_init_with_cases id nm cls parent ma mu we mi mx kw w :
  match Tag_init_with getitem_body id nm cls parent ma mu we mi mx kw w with
  | (w', Ok a) =>
      is_Some (heap w' !! a) ∧
      ¬ ∃ p, parent = Some (KStr p) ∧ p ≠ "*" ∧ _dict w !! KStr p = None
  | (w', Raise e) =>
      ∃ p, parent = Some (KStr p) ∧ p ≠ "*" ∧ _dict w !! KStr p = None ∧
           e = KeyError (KStr p)
  end.
Proof.
  unfold Tag_init_with. destruct parent as [k|].
  2:{ destruct (Tag_construct_live id nm cls ParentNone ma mu we mi mx kw w)
        as (w' & a & -> & Hlive).
      split; [done|]. by intros (p & ? & _). }
  case_bool_decide as Hstar.
  { destruct (Tag_construct_live id nm cls ParentStar ma mu we mi mx kw w)
      as (w' & a & -> & Hlive).
    split; [done|]. intros (p & [= ->] & Hne & _). by simplify_eq. }
  unfold bind, getitem_body. destruct (_dict w !! k) as [pa|] eqn:Hk.
  { destruct (Tag_construct_live id nm cls (ParentTag pa) ma mu we mi mx kw w)
      as (w' & a & -> & Hlive).
    split; [done|]. intros (p & [= ->] & _ & Hnone). congruence. }
  destruct k as [z|s].
  - rewrite Tag_construct_eq.
    match goal with
    | |- context [Tag_construct id nm cls ?p ma mu we mi mx kw ?w0] =>
        destruct (Tag_construct_live id nm cls p ma mu we mi mx kw w0)
          as (w' & a & -> & Hlive)
    end.
    split; [done|]. by intros (p & ? & _).
  - exists s. split_and!; [done| |done|done]. by intros ->.
Qed.

Lemma load_row_raises r w e :
  (load_row r w).2 = Raise e ↔ row_fails w r e.
Proof.
  unfold load_row, bind.
  destruct (locals_lookup_cases (row_cls_name r)) as [[Hun Hl]|[Hb [v Hl]]];
    rewrite Hl.
  { cbn [snd]. split.
    - intros [= <-]. by constructor.
    - intros H. inversion H; subst; [done|contradiction]. }
  pose proof (Tag_init_with_cases (row_ebml_id r) (row_name r) v
                (row_parent r) (row_mandatory r) (row_multiple r)
                (row_webm r) (row_minver r) (row_maxver r)
                (List.filter (λ kv, negb (bool_decide (kv.1 = attr_cls)))
                             (row_extra r)) w) as Hcases.
  destruct (Tag_init_with getitem_body _ _ _ _ _ _ _ _ _ _ w)
    as [w' [a|e']].
  - destruct Hcases as [[t Ht] Hno]. unfold TagDict_insert. rewrite Ht.
    cbn [snd]. split; [done|].
    intros H. inversion H as [Hun|p Hnb Hp Hne Hnone]; subst; [done|].
    destruct Hno. by exists p.
  - destruct Hcases as (p & Hp & Hne & Hnone & ->). cbn [snd]. split.
    + intros [= <-]. by eapply row_fails_parent.
    + intros H. inversion H as [Hun|p' Hnb Hp' Hne' Hnone']; subst; [done|].
      congruence.
Qed.

(** Loading raises at the first row that is not skipped and fails. *)
Lemma load_rows_raises rows w e :
  (load_rows rows w).2 = Raise e ↔
  ∃ pre r post w1,
    rows = pre ++ r :: post ∧ load_rows pre w = (w1, Ok tt) ∧
    row_skipped w1 r = false ∧ (load_row r w1).2 = Raise e.
Proof.
  revert w. induction rows as [|r0 rows IH]; intros w.
  { cbn [load_rows]. split; [done|].
    intros (pre & r & post & w1 & Hl & _). by destruct pre. }
  cbn [load_rows]. unfold bind.
  destruct (row_skipped w r0) eqn:Hskip.
  - rewrite IH. split.
    + intros (pre & r & post & w1 & -> & Hpre & Hs & Hr).
      exists (r0 :: pre), r, post, w1. split_and!; [done| |done|done].
      cbn [load_rows]. unfold bind. by rewrite Hskip.
    + intros (pre & r & post & w1 & Hl & Hpre & Hs & Hr).
      destruct pre as [|r1 pre].
      * cbn [app] in Hl. injection Hl as <- <-.
        cbn [load_rows] in Hpre. injection Hpre as <-. congruence.
      * cbn [app] in Hl. injection Hl as <- ->.
        cbn [load_rows] in Hpre. unfold bind in Hpre. rewrite Hskip in Hpre.
        by exists pre, r, post, w1.
  - destruct (load_row r0 w) as [w' [[]|e0]] eqn:Hr0.
    + rewrite IH. split.
      * intros (pre & r & post & w1 & -> & Hpre & Hs & Hr).
        exists (r0 :: pre), r, post, w1. split_and!; [done| |done|done].
        cbn [load_rows]. unfold bind. by rewrite Hskip, Hr0.
      * intros (pre & r & post & w1 & Hl & Hpre & Hs & Hr).
        destruct pre as [|r1 pre].
        -- cbn [app] in Hl. injection Hl as <- <-.
           cbn [load_rows] in Hpre. injection Hpre as <-.
           rewrite Hr0 in Hr. done.
        -- cbn [app] in Hl. injection Hl as <- ->.
           cbn [load_rows] in Hpre. unfold bind in Hpre.
           rewrite Hskip, Hr0 in Hpre.
           by exists pre, r, post, w1.
    + cbn [snd]. split.
      * intros [= <-]. exists [], r0, rows, w.
        split_and!; [done|done|done|]. by rewrite Hr0.
      * intros (pre & r & post & w1 & Hl & Hpre & Hs & Hr).
        destruct pre as [|r1 pre].
        -- cbn [app] in Hl. injection Hl as <- <-.
           cbn [load_rows] in Hpre. injection Hpre as <-.
           rewrite Hr0 in Hr. cbn [snd] in Hr. congruence.
        -- cbn [app] in Hl. injection Hl as <- ->.
           cbn [load_rows] in Hpre. unfold bind in Hpre.
           rewrite Hskip, Hr0 in Hpre. done.
Qed.

(** The loop over the overrides raises nothing. *)
Lemma apply_overrides_ok ovs w : (apply_overrides ovs w).2 = Ok tt.
Proof.
  revert w. induction ovs as [|[n l] ovs IH]; intros w; [done|].
  cbn [apply_overrides]. unfold bind, contains_body.
  case_bool_decide as Hp.
  - rewrite getitem_body_str. destruct Hp as [a Ha]. rewrite Ha.
    rewrite setattrs_at_eq. apply IH.
  - apply IH.
Qed.

Lemma delayed_init_raises w e :
  (delayed_init w).2 = Raise e ↔ init_fails w e.
Proof.
  split.
  - rewrite delayed_init_unfold. destruct (_initialized w) eqn:Hi; [done|].
    rewrite init_body_eq. unfold bind.
    change (MATROSKA_TAG_DATA (init_start w))
      with (MATROSKA_TAG_DATA w ++ [LibInternal; LibInternal2]).
    destruct (load_rows (MATROSKA_TAG_DATA w ++ [LibInternal; LibInternal2])
                (init_start w)) as [w1 [[]|e1]] eqn:Hload.
    + rewrite overrides_pass_eq.
      destruct (overrides_lookup (_dict w1)) as [[[pw ph] sf]|e1] eqn:Hov.
      * by rewrite apply_overrides_ok.
      * cbn [snd]. intros [= <-]. by eapply init_fails_overrides.
    + cbn [snd]. intros [= <-].
      assert ((load_rows (MATROSKA_TAG_DATA w ++ [LibInternal; LibInternal2])
                 (init_start w)).2 = Raise e1) as Hr by by rewrite Hload.
      apply load_rows_raises in Hr
        as (pre & r & post & w2 & Hl & Hpre & Hs & Hr).
      pose proof (preserves_load_rows pre (init_start w)) as Hev.
      rewrite Hpre in Hev. cbn [fst] in Hev.
      eapply init_fails_row; [done|done|done| |by apply load_row_raises].
      rewrite <- Hs. symmetry.
      apply row_skipped_config; apply Hev.
  - intros H. rewrite delayed_init_unfold.
    inversion H as [pre r post w1 e' Hi Hl Hpre Hs Hr|w1 e' Hi Hload Hov];
      subst; rewrite Hi, init_body_eq; unfold bind;
      change (MATROSKA_TAG_DATA (init_start w))
        with (MATROSKA_TAG_DATA w ++ [LibInternal; LibInternal2]).
    + pose proof (preserves_load_rows pre (init_start w)) as Hev.
      rewrite Hpre in Hev. cbn [fst] in Hev.
      assert ((load_rows (MATROSKA_TAG_DATA w ++ [LibInternal; LibInternal2])
                 (init_start w)).2 = Raise e) as Hraise.
      { apply load_rows_raises. exists pre, r, post, w1.
        split_and!; [done|done| |by apply load_row_raises].
        rewrite <- Hs. apply row_skipped_config; apply Hev. }
      destruct (load_rows (MATROSKA_TAG_DATA w ++ [LibInternal; LibInternal2])
                  (init_start w)) as [w2 [[]|e2]];
        cbn [snd] in *; [done|done].
    + rewrite Hload, overrides_pass_eq, Hov. done.
Qed.

(** Every value of the dictionary stays the address of an object. *)
Lemma dict_valid_evolves w w' :
  dict_valid w → heap_evolves (heap w) (heap w') → _dict w' = _dict w →
  dict_valid w'.
Proof.
  intros Hv [Hlen _] Hd k a Hk. rewrite Hd in Hk.
  specialize (Hv k a Hk). lia.
Qed.

Lemma dict_valid_load_rows rows w :
  dict_valid w → dict_valid (load_rows rows w).1.
Proof.
  revert w. induction rows as [|r rows IH]; intros w Hv; [done|].
  cbn [load_rows]. unfold bind. destruct (row_skipped w r); [by apply IH|].
  destruct (load_row_result r w) as (Hev & Hok & Herr).
  destruct (load_row r w) as [w1 [[]|e]]; cbn [fst snd] in *.
  - apply IH. destruct (Hok eq_refl) as (a & t & Ht & _ & _ & Hd).
    intros k a' Hk. rewrite Hd in Hk.
    assert (a' = a ∨ _dict w !! k = Some a') as [->|Hold].
    { rewrite !lookup_insert in Hk. repeat case_decide; simplify_eq; auto. }
    + by eapply lookup_lt_Some.
    + specialize (Hv k a' Hold). destruct (ev_heap _ _ Hev) as [Hlen _]. lia.
  - eapply dict_valid_evolves; [done|apply Hev|by eapply Herr].
Qed.

Lemma dict_valid_delayed_init w :
  dict_valid w → dict_valid (delayed_init w).1.
Proof.
  intros Hv. rewrite delayed_init_unfold. destruct (_initialized w); [done|].
  rewrite init_body_eq. unfold bind.
  pose proof (dict_valid_load_rows (MATROSKA_TAG_DATA (init_start w))
                (init_start w) Hv) as Hv1.
  destruct (load_rows _ (init_start w)) as [w1 [[]|e]]; cbn [fst] in *;
    [|done].
  eapply dict_valid_evolves;
    [done|apply preserves_overrides_pass|apply dict_frame_overrides_pass].
Qed.

(** A method that calls [delayed_init] and then only reads raises what
    [delayed_init] raises, and nothing else. *)
Lemma read_raises {A} (body : M A) w e :
  (∀ w1, ∃ a, body w1 = (w1, Ok a)) →
  (bind (bind delayed_init (λ _, body)) (λ _, ret tt) w).2 = Raise e ↔
  (delayed_init w).2 = Raise e.
Proof.
  intros Hb. unfold bind, ret.
  destruct (delayed_init w) as [w1 [[]|e1]]; cbn [snd]; [|done].
  destruct (Hb w1) as [a ->]. done.
Qed.

Lemma read_keeps_valid {A} (body : M A) w :
  (∀ w1, ∃ a, body w1 = (w1, Ok a)) → dict_valid w →
  dict_valid (bind (bind delayed_init (λ _, body)) (λ _, ret tt) w).1.
Proof.
  intros Hb Hv. unfold bind, ret.
  pose proof (dict_valid_delayed_init w Hv) as Hv1.
  destruct (delayed_init w) as [w1 [[]|e1]]; cbn [fst] in *; [|done].
  destruct (Hb w1) as [a ->]. done.
Qed.

Lemma failure_read o w e :
  init_state o w = Some w →
  (∀ e', failure w o e' → ∃ w0, init_state o w = Some w0 ∧ init_fails w0 e') →
  failure w o e ↔ (delayed_init w).2 = Raise e.
Proof.
  intros Hs Hinv. rewrite delayed_init_raises. split.
  - intros H. destruct (Hinv e H) as (w0 & Hw0 & Hf). congruence.
  - intros H. by eapply fail_init.
Qed.

Lemma dict_valid_run_op w o : dict_valid w → dict_valid (run_op o w).1.
Proof.
  intros Hv.
  destruct o as [key| |key| |key| | | | |tag|key| |doc_type ver];
    cbn [run_op];
    try (apply read_keeps_valid; [intros w1; by eexists|done]).
  - unfold TagDict_getitem, bind, ret.
    pose proof (dict_valid_delayed_init w Hv) as Hv1.
    destruct (delayed_init w) as [w1 [[]|e1]]; cbn [fst] in *; [|done].
    pose proof (preserves_getitem_body key w1) as Hev.
    pose proof (getitem_body_dict key w1) as Hd.
    destruct (getitem_body key w1) as [w2 [a|e2]]; cbn [fst] in *;
      eapply dict_valid_evolves; done || apply Hev.
  - unfold TagDict_insert. destruct tag; try done.
    destruct (heap w !! a) as [t|] eqn:Ht; [|done].
    intros k a' Hk. cbn [fst _dict with_dict heap] in *.
    rewrite !lookup_insert in Hk.
    repeat case_decide; simplify_eq; try by eapply lookup_lt_Some.
    by apply (Hv k).
  - unfold TagDict_remove. destruct (_dict w !! key) as [a|]; [|done].
    cbv zeta.
    match goal with
    | |- context [delete key (_dict w) !! ?k'] =>
        destruct (delete key (_dict w) !! k')
    end; intros k a' Hk; cbn [fst _dict with_dict heap] in *.
    + apply lookup_delete_Some in Hk as [_ Hk].
      apply lookup_delete_Some in Hk as [_ Hk]. by apply (Hv k).
    + apply lookup_delete_Some in Hk as [_ Hk]. by apply (Hv k).
  - by apply dict_valid_delayed_init.
  - rewrite set_doc_type_and_version_eq.
    assert (∀ web, dict_valid
                     (init_body (init_start (profile_world w web ver))).1)
      as Hall.
    { intros web.
      apply (dict_valid_delayed_init (profile_world w web ver)).
      intros k a Hk. cbn [_dict profile_world with_dict] in Hk.
      by rewrite lookup_empty in Hk. }
    destruct (String.eqb doc_type "webm"); [apply Hall|].
    destruct (String.eqb doc_type "matroska"); [apply Hall|done].
Qed.

Lemma run_op_raises w o e :
  dict_valid w → (run_op o w).2 = Raise e ↔ failure w o e.
Proof.
  intros Hv.
  assert (∀ o', init_state o' w = Some w →
            (∀ tag, o' ≠ op_insert tag) → (∀ key, o' ≠ op_getitem key) →
            (∀ key, o' ≠ op_remove key) →
            (∀ d v, o' ≠ op_set_doc_type_and_version d v) →
            failure w o' e ↔ (delayed_init w).2 = Raise e) as Hread.
  { intros o' Hs H1 H2 H3 H4. rewrite delayed_init_raises. split.
    - intros H.
      inversion H as [tag Hn|s Hok Hnone|key Hn|key a t Ha Ht Hor
                     |d v Hd1 Hd2|o'' w0 e' Hs' Hf]; subst;
        [by destruct (H1 tag)|by destruct (H2 (KStr s))
        |by destruct (H3 key)|by destruct (H3 key)
        |by destruct (H4 d v)|congruence].
    - intros H. by eapply fail_init. }
  destruct o as [key| |key| |key| | | | |tag|key| |doc_type ver];
    cbn [run_op];
    try (rewrite Hread by done;
         apply read_raises; intros w1; by eexists).
  - (* __getitem__ *)
    unfold TagDict_getitem, bind, ret.
    destruct (delayed_init w) as [w1 [[]|e1]] eqn:Hrun.
    + assert (∀ e', ¬ init_fails w e') as Hnf.
      { intros e' Hf. apply delayed_init_raises in Hf.
        rewrite Hrun in Hf. done. }
      unfold getitem_body. destruct (_dict w1 !! key) as [a|] eqn:Hk.
      { cbn [snd]. split; [done|]. intros H.
        inversion H as [|s Hok Hnone| | | |o' w0 e' Hs Hf]; subst.
        - rewrite Hrun in Hnone. cbn [fst] in Hnone. congruence.
        - cbn [init_state] in Hs. injection Hs as <-. by destruct (Hnf e). }
      destruct key as [z|s].
      { rewrite Tag_construct_eq. cbn [snd]. split; [done|]. intros H.
        inversion H as [| | | | |o' w0 e' Hs Hf]; subst.
        cbn [init_state] in Hs. injection Hs as <-. by destruct (Hnf e). }
      cbn [snd]. split.
      * intros [= <-]. apply fail_getitem_unknown_name; by rewrite Hrun.
      * intros H.
        inversion H as [|s' Hok Hnone| | | |o' w0 e' Hs Hf]; subst;
          [done|].
        cbn [init_state] in Hs. injection Hs as <-. by destruct (Hnf e).
    + cbn [snd]. split.
      * intros [= <-]. eapply fail_init; [done|].
        apply delayed_init_raises. by rewrite Hrun.
      * intros H.
        inversion H as [|s Hok Hnone| | | |o' w0 e' Hs Hf]; subst.
        -- rewrite Hrun in Hok. done.
        -- cbn [init_state] in Hs. injection Hs as <-.
           apply delayed_init_raises in Hf. rewrite Hrun in Hf.
           cbn [snd] in Hf. congruence.
  - (* insert *)
    unfold TagDict_insert. split.
    + intros H. assert (e = ValueError) as ->.
      { destruct tag; try (by injection H as <-).
        destruct (heap w !! a); [done|by injection H as <-]. }
      constructor. intros a ->. by destruct (heap w !! a).
    + intros H. inversion H as [tag' Hn| | | | |o' w0 e' Hs Hf]; subst.
      * destruct tag; try done. by rewrite (Hn a eq_refl).
      * done.
  - (* remove *)
    unfold TagDict_remove. destruct (_dict w !! key) as [a|] eqn:Hk.
    2:{ cbn [snd]. split.
        - intros [= <-]. by constructor.
        - intros H.
          inversion H as [| |key' Hn|key' a' t' Ha' Ht' Hor| |o' w0 e' Hs Hf];
            subst; [done|congruence|done]. }
    destruct (lookup_lt_is_Some_2 _ _ (Hv key a Hk)) as [t Ht].
    rewrite Ht. cbv zeta.
    destruct (delete key (_dict w) !! KStr (name t)) as [b|] eqn:Hn.
    + cbn [snd]. split; [done|]. intros H.
      apply lookup_delete_Some in Hn as [Hne Hn].
      inversion H as [| |key' Hn'|key' a' t' Ha' Ht' Hor| |o' w0 e' Hs Hf];
        subst; [congruence| |done].
      assert (a' = a) as -> by congruence.
      assert (t' = t) as -> by congruence.
      destruct Hor; congruence.
    + cbn [snd]. apply lookup_delete_None in Hn. split.
      * intros [= <-]. eapply fail_remove_unknown_name; [done|done|].
        destruct Hn; auto.
      * intros H.
        inversion H as [| |key' Hn'|key' a' t' Ha' Ht' Hor| |o' w0 e' Hs Hf];
          subst; [congruence| |done].
        assert (a' = a) as -> by congruence.
        assert (t' = t) as -> by congruence. done.
  - (* delayed_init *)
    by rewrite Hread.
  - (* set_doc_type_and_version *)
    unfold set_doc_type_and_version.
    assert (∀ web w0,
              init_state (op_set_doc_type_and_version doc_type ver) w
                = Some w0 →
              w0 = profile_world w web ver →
              (delayed_init (profile_world w web ver)).2 = Raise e ↔
              failure w (op_set_doc_type_and_version doc_type ver) e)
      as Hvalid.
    { intros web w0 Hs ->. rewrite delayed_init_raises. split.
      - intros H. by eapply fail_init.
      - intros H.
        inversion H as [| | | |d v Hd1 Hd2|o' w0 e' Hs' Hf]; subst.
        + cbn [init_state] in Hs.
          destruct (String.eqb_spec doc_type "webm"); [done|].
          destruct (String.eqb_spec doc_type "matroska"); done.
        + congruence. }
    cbn [init_state] in Hvalid.
    destruct (String.eqb_spec doc_type "webm") as [Hw|Hw].
    { exact (Hvalid true _ eq_refl eq_refl). }
    destruct (String.eqb_spec doc_type "matroska") as [Hm|Hm].
    { exact (Hvalid false _ eq_refl eq_refl). }
    cbn [snd]. split.
    + intros [= <-]. by constructor.
    + intros H.
      inversion H as [| | | |d v Hd1 Hd2|o' w0 e' Hs' Hf]; subst; [done|].
      cbn [init_state] in Hs'.
      destruct (String.eqb_spec doc_type "webm"); [done|].
      destruct (String.eqb_spec doc_type "matroska"); done.
Qed.

Lemma init_fails_KeyError w e :
  init_fails w e → _initialized w = false ∧ ∃ s, e = KeyError (KStr s).
Proof.
  intros H.
  inversion H as [pre r post w1 e' Hi Hl Hpre Hs Hr|w1 e' Hi Hload Hov];
    subst; (split; [done|]).
  - inversion Hr; subst; by eexists.
  - unfold overrides_lookup in Hov.
    repeat (destruct (_dict w1 !! _); [|injection Hov as <-; by eexists]).
    done.
Qed.

(** On an initialized registry the methods that only read, other than the
    lookup, do not fail. *)
Lemma read_never_fails w o e :
  _initialized w = true → init_state o w = Some w →
  (∀ key, o ≠ op_getitem key) →
  (∀ d v, o ≠ op_set_doc_type_and_version d v) →
  ¬ failure w o e.
Proof.
  intros Hi Hs Hng Hnp H.
  inversion H as [tag Hn|s Hok Hnone|key Hn|key a t Ha Ht Hor
                 |d v Hd1 Hd2|o' w0 e' Hs' Hf]; subst;
    [done|by destruct (Hng (KStr s))|done|done|by destruct (Hnp d v)|].
  assert (w0 = w) as -> by congruence.
  destruct (init_fails_KeyError _ _ Hf) as [Hi' _]. congruence.
Qed.

(** C8, as the code has it.  The operations of the registry fail in
    exactly these ways, and return normally in every other case.
    [insert] of anything but a [Tag] raises [ValueError] and changes
    nothing.  A lookup by a name that the registry, once initialized, does
    not hold raises [KeyError] for that name.  [remove] raises [KeyError]
    for its key when the key is not registered, and otherwise for the name
    of the object found when that name is the key itself or is not
    registered.  [set_doc_type_and_version] with a document type other than
    ['webm'] and ['matroska'] raises [AssertionError] and changes nothing.
    Last, every operation but [insert] and [remove] runs [delayed_init]
    ([set_doc_type_and_version] on the emptied registry) and raises what it
    raises: nothing on an initialized registry, and otherwise a [KeyError]
    at the first row that is not skipped and fails to load, for its class
    name when that is not bound and else for its parent when that is a name,
    other than ["*"], not registered when the row is reached, or, all rows
    loaded, for the first of ['PixelWidth'], ['PixelHeight'],
    ['SamplingFrequency'] that is not registered.  The states are those in
    which every value of the dictionary is an object, which holds of
    [TagDict()] and is kept by every operation. *)
Theorem C8_failure_modes :
  (∀ table, dict_valid (TagDict_init table)) ∧
  (∀ w o, dict_valid w → dict_valid (run_op o w).1) ∧
  (∀ w o e, dict_valid w → ((run_op o w).2 = Raise e ↔ failure w o e)) ∧
  (∀ w o, dict_valid w → (∀ e, ¬ failure w o e) → (run_op o w).2 = Ok tt) ∧
  (∀ w e, init_fails w e ↔ (delayed_init w).2 = Raise e) ∧
  (∀ w e, init_fails w e →
     _initialized w = false ∧ ∃ s, e = KeyError (KStr s)) ∧
  (∀ w tag, (∀ a, tag = VTag a → heap w !! a = None) →
     TagDict_insert tag w = (w, Raise ValueError)) ∧
  (∀ w s, (delayed_init w).2 = Ok tt →
     _dict (delayed_init w).1 !! KStr s = None →
     TagDict_getitem (KStr s) w =
     ((delayed_init w).1, Raise (KeyError (KStr s)))) ∧
  (∀ w key, _dict w !! key = None →
     TagDict_remove key w = (w, Raise (KeyError key))) ∧
  (∀ w doc_type ver, doc_type ≠ "webm" → doc_type ≠ "matroska" →
     set_doc_type_and_version doc_type ver w = (w, Raise AssertionError)) ∧
  (∀ w, _initialized w = true →
     TagDict_len w = (w, Ok (size (_dict w))) ∧
     TagDict_keys w = (w, Ok (dom (_dict w))) ∧
     delayed_init w = (w, Ok tt) ∧
     (∀ key, TagDict_contains key w =
             (w, Ok (bool_decide (is_Some (_dict w !! key))))) ∧
     (∀ key, TagDict_get key w = (w, Ok (_dict w !! key))) ∧
     (∀ key a, _dict w !! key = Some a →
               TagDict_getitem key w = (w, Ok a)) ∧
     (∀ k, ∃ a w', TagDict_getitem (KInt k) w = (w', Ok a)) ∧
     (∀ a, is_Some (heap w !! a) →
           ∃ w', TagDict_insert (VTag a) w = (w', Ok tt))).
Proof.
  split_and!.
  - intros table k a Hk. cbn [_dict TagDict_init] in Hk.
    by rewrite lookup_empty in Hk.
  - apply dict_valid_run_op.
  - intros w o e. apply run_op_raises.
  - intros w o Hv Hno. destruct (run_op o w) as [w' [[]|e]] eqn:Hrun; [done|].
    destruct (Hno e). apply run_op_raises; [done|]. by rewrite Hrun.
  - intros w e. symmetry. apply delayed_init_raises.
  - apply init_fails_KeyError.
  - intros w tag Hn. unfold TagDict_insert. destruct tag; try done.
    by rewrite (Hn a eq_refl).
  - intros w s Hok Hnone. unfold TagDict_getitem, bind.
    rewrite (pair_eta_ok _ _ Hok). unfold getitem_body. by rewrite Hnone.
  - intros w key Hk. unfold TagDict_remove. by rewrite Hk.
  - intros w doc_type ver Hw Hm. unfold set_doc_type_and_version.
    destruct (String.eqb_spec doc_type "webm"); [done|].
    destruct (String.eqb_spec doc_type "matroska"); done.
  - intros w Hi. pose proof (delayed_init_done w Hi) as Hd.
    split_and!; try done.
    + unfold TagDict_len, bind. by rewrite Hd.
    + unfold TagDict_keys, bind. by rewrite Hd.
    + intros key. unfold TagDict_contains, bind. by rewrite Hd.
    + intros key. unfold TagDict_get, bind. by rewrite Hd.
    + intros key a Hk. rewrite getitem_initialized by done.
      unfold getitem_body. by rewrite Hk.
    + intros k. rewrite getitem_initialized by done. unfold getitem_body.
      destruct (_dict w !! KInt k); [by eauto|].
      rewrite Tag_construct_eq. by eauto.
    + intros a [t Ht]. unfold TagDict_insert. rewrite Ht. by eauto.
Qed.

Lemma C8_witness :
  (run_op (op_remove (KInt 5)) sample_world).2 = Raise (KeyError (KInt 5)) ∧
  (run_op (op_remove (KStr "Void")) sample_world).2
    = Raise (KeyError (KStr "Void")) ∧
  (run_op (op_set_doc_type_and_version "mkv" 4) sample_world).2
    = Raise AssertionError ∧
  (run_op op_len sample_world).2 = Ok tt.
Proof.
  assert (dict_valid sample_world) as Hv.
  { apply registry_ok_valid, registry_ok_delayed_init, dict_wf_on_empty. }
  assert (_initialized sample_world = true) as Hi
    by (vm_compute; reflexivity).
  pose proof (proj1 (proj2 (proj2 C8_failure_modes)) sample_world) as Hiff.
  pose proof (proj1 (proj2 (proj2 (proj2 C8_failure_modes))) sample_world)
    as Hok.
  split_and!.
  - apply (Hiff _ _ Hv). apply fail_remove_unknown_key.
    vm_compute. reflexivity.
  - apply (Hiff _ _ Hv).
    apply (fail_remove_unknown_name sample_world (KStr "Void") 1
             (constructed 0xEC "Void" (VClass ElementVoid) ParentStar
                          false true true 1 4 [])).
    + vm_compute. reflexivity.
    + vm_compute. reflexivity.
    + left. reflexivity.
  - apply (Hiff _ _ Hv). apply fail_doc_type; intros [=].
  - apply (Hok _ Hv). intros e.
    apply read_never_fails; [exact Hi|reflexivity| |]; intros; discriminate.
Defined.

(** * Further properties of the code *)

(** ** Construction with a parent that is not registered *)

(** X1: [Tag.__init__] with the name of a parent that the registry does not
    hold (once the lazy initialization of the lookup has run) raises
    [KeyError] for that name; no object is added to the heap and no child
    list is touched. *)
Theorem Tag_init_unknown_parent_name :
  ∀ w n id nm cls ma mu we mi mx kw,
    n ≠ "*" → (delayed_init w).2 = Ok tt →
    _dict (delayed_init w).1 !! KStr n = None →
    Tag_init id nm cls (Some (KStr n)) ma mu we mi mx kw w =
    ((delayed_init w).1, Raise (KeyError (KStr n))).
Proof.
  intros w n id nm cls ma mu we mi mx kw Hn Hok Hnone.
  unfold Tag_init, Tag_init_with.
  rewrite bool_decide_eq_false_2 by (intros [= ->]; done).
  unfold bind, TagDict_getitem, bind. rewrite (pair_eta_ok _ _ Hok).
  by rewrite getitem_body_str, Hnone.
Qed.

Lemma Tag_init_unknown_parent_name_witness :
  Tag_init 0xD7 "TrackNumber" (VClass ElementUnsigned)
           (Some (KStr "TrackEntries")) true false true 1 4 [] sample_world =
  ((delayed_init sample_world).1, Raise (KeyError (KStr "TrackEntries"))).
Proof.
  apply Tag_init_unknown_parent_name.
  - discriminate.
  - vm_compute. reflexivity.
  - vm_compute. reflexivity.
Defined.

(** X2: with an integer parent that the registry does not hold nothing is
    raised: the lookup makes up the "Unknown" descriptor for that id, the
    new object takes it as its parent and is its only child, and the
    dictionary is left as it was, so this parent is not registered. *)
Theorem Tag_init_unknown_parent_id :
  ∀ w k id nm cls ma mu we mi mx kw,
    _initialized w = true → _dict w !! KInt k = None →
    let n := length (heap w) in
    ∃ w',
      Tag_init id nm cls (Some (KInt k)) ma mu we mi mx kw w = (w', Ok (S n)) ∧
      heap w' =
        heap w ++
        [append_child (S n)
           (constructed k "Unknown" (VStr "ElementUnsupported") ParentStar
                        false true true 1 4 []);
         constructed id nm cls (ParentTag n) ma mu we mi mx kw] ∧
      _dict w' = _dict w.
Proof.
  intros w k id nm cls ma mu we mi mx kw Hi Hnone n.
  rewrite Tag_init_initialized by done. unfold Tag_init_with.
  rewrite bool_decide_eq_false_2 by done. unfold bind, getitem_body.
  rewrite Hnone, Tag_construct_eq, Tag_construct_eq.
  cbn [heap with_heap _dict]. eexists. split.
  - f_equal. f_equal. rewrite length_app. simpl. lia.
  - cbn [heap with_heap _dict]. split; [|done].
    rewrite length_app. cbn [length].
    replace (length (heap w) + 1) with (S n) by (subst n; lia).
    rewrite <- (Nat.add_0_r (length (heap w))) at 1.
    rewrite alter_app_r. cbn [alter list_alter]. by rewrite <- app_assoc.
Qed.

Lemma Tag_init_unknown_parent_id_witness :
  ∃ w', Tag_init 0x4489 "Duration" (VClass ElementFloat) (Some (KInt 7))
                 false false true 1 4 [] sample_world = (w', Ok 22) ∧
        _dict w' = _dict sample_world.
Proof.
  destruct (Tag_init_unknown_parent_id sample_world 7 0x4489 "Duration"
              (VClass ElementFloat) false false true 1 4 [])
    as (w' & H1 & _ & H3).
  - vm_compute. reflexivity.
  - vm_compute. reflexivity.
  - exists w'. split; [exact H1|exact H3].
Defined.

(** ** remove *)

(** X3: [remove] of a registered key whose object is also filed under its
    name deletes these two entries and nothing else: every other key, the
    heap, the flag and the table are as before (no lazy initialization is
    started). *)
Theorem remove_registered :
  ∀ w key a t,
    _dict w !! key = Some a → heap w !! a = Some t →
    key ≠ KStr (name t) → is_Some (_dict w !! KStr (name t)) →
    ∃ w', TagDict_remove key w = (w', Ok tt) ∧
          _dict w' !! key = None ∧ _dict w' !! KStr (name t) = None ∧
          (∀ k, k ≠ key → k ≠ KStr (name t) → _dict w' !! k = _dict w !! k) ∧
          heap w' = heap w ∧ _initialized w' = _initialized w ∧
          MATROSKA_TAG_DATA w' = MATROSKA_TAG_DATA w.
Proof.
  intros w key a t Hk Ht Hne [an Hn]. unfold TagDict_remove.
  rewrite Hk, Ht. rewrite lookup_delete_ne, Hn by done.
  eexists. split; [done|]. cbn [_dict heap with_dict _initialized
                                MATROSKA_TAG_DATA].
  split_and!; try done.
  - rewrite lookup_delete_ne by done. by rewrite lookup_delete_eq.
  - by rewrite lookup_delete_eq.
  - intros k H1 H2. by rewrite !lookup_delete_ne.
Qed.

Lemma remove_registered_witness :
  ∃ w', TagDict_remove (KInt 0xEC) sample_world = (w', Ok tt) ∧
        _dict w' !! KInt 0xEC = None ∧ _dict w' !! KStr "Void" = None.
Proof.
  destruct (remove_registered sample_world (KInt 0xEC) 1
              (mkTag 0xEC "Void" ParentStar false true true 1 4
                 (<[attr_cls := VClass ElementVoid]>
                    (<[attr_data_size_min := VInt 0]>
                       (<[attr_header_size_min := VInt 0]> ∅))) []))
    as (w' & H1 & H2 & H3 & _).
  - vm_compute. reflexivity.
  - vm_compute. reflexivity.
  - discriminate.
  - exists 1. vm_compute. reflexivity.
  - exists w'. split; [exact H1|]. split; [exact H2|exact H3].
Defined.

(** X4: [insert] of a descriptor neither of whose keys is taken, followed by
    [remove] of its id, gives back the state before the two calls. *)
Theorem insert_remove_round_trip :
  ∀ w a t,
    heap w !! a = Some t →
    _dict w !! KInt (ebml_id t) = None → _dict w !! KStr (name t) = None →
    bind (TagDict_insert (VTag a)) (λ _, TagDict_remove (KInt (ebml_id t))) w
    = (w, Ok tt).
Proof.
  intros w a t Ht Hi Hn. unfold bind, TagDict_insert, TagDict_remove.
  rewrite Ht. cbn [_dict heap with_dict].
  rewrite lookup_insert_ne by done. rewrite lookup_insert_eq, Ht.
  rewrite (delete_insert_ne _ (KInt (ebml_id t)) (KStr (name t))) by done.
  rewrite delete_insert_eq, lookup_insert_eq.
  rewrite delete_insert_eq.
  rewrite (delete_id (_dict w) (KInt (ebml_id t))) by done.
  rewrite delete_id by done.
  by destruct w.
Qed.

Lemma insert_remove_round_trip_witness :
  bind (TagDict_insert (VTag 0)) (λ _, TagDict_remove (KInt 0x1A45DFA3))
       (with_dict sample_world ∅)
  = (with_dict sample_world ∅, Ok tt).
Proof.
  apply (insert_remove_round_trip (with_dict sample_world ∅) 0
           (mkTag 0x1A45DFA3 "EBML" ParentNone true true true 1 4
              (<[attr_cls := VClass ElementEBML]>
                 (<[attr_data_size_min := VInt 0]>
                    (<[attr_header_size_min := VInt 0]> ∅))) [])).
  - vm_compute. reflexivity.
  - reflexivity.
  - reflexivity.
Defined.

(** X5: [remove] called with a name instead of an id never returns
    normally: it deletes the entry of the name and then raises [KeyError]
    for that same name, leaving the entry of the id in place. *)
Theorem remove_by_name_fails :
  ∀ w n a,
    registry_ok w → _dict w !! KStr n = Some a →
    TagDict_remove (KStr n) w =
    (with_dict w (delete (KStr n) (_dict w)), Raise (KeyError (KStr n))).
Proof.
  intros w n a Hok Hn.
  destruct (registry_ok_names w Hok n a Hn) as (t & Ht & Hname).
  unfold TagDict_remove. rewrite Hn, Ht, Hname.
  by rewrite lookup_delete_eq.
Qed.

Lemma remove_by_name_fails_witness :
  TagDict_remove (KStr "Void") sample_world =
  (with_dict sample_world (delete (KStr "Void") (_dict sample_world)),
   Raise (KeyError (KStr "Void"))).
Proof.
  apply (remove_by_name_fails sample_world "Void" 1).
  - apply registry_ok_delayed_init, dict_wf_on_empty.
  - vm_compute. reflexivity.
Defined.

(** ** How initialization ends *)

(** X6: an initialization ends in one of three ways.  If a row fails to
    load, that exception is raised.  If all rows load but one of
    ['PixelWidth'], ['PixelHeight'], ['SamplingFrequency'] is not registered,
    [KeyError] is raised for the first one missing, before any override is
    applied: the state is the one the rows left.  Otherwise it returns
    normally: the loop over the overrides raises nothing and registers
    nothing. *)
Theorem delayed_init_outcome :
  ∀ w, _initialized w = false → registry_ok w →
    let loaded :=
      load_rows (MATROSKA_TAG_DATA w ++ [LibInternal; LibInternal2])
                (init_start w) in
    match loaded.2 with
    | Raise e => delayed_init w = (loaded.1, Raise e)
    | Ok _ =>
        match overrides_lookup (_dict loaded.1) with
        | Raise e => delayed_init w = (loaded.1, Raise e)
        | Ok _ => (delayed_init w).2 = Ok tt ∧
                  _dict (delayed_init w).1 = _dict loaded.1
        end
    end.
Proof.
  intros w Hi Hok loaded. rewrite delayed_init_unfold, Hi, init_body_eq.
  unfold bind. change (MATROSKA_TAG_DATA (init_start w))
    with (MATROSKA_TAG_DATA w ++ [LibInternal; LibInternal2]).
  destruct (load_rows_result (λ _, True)
              (MATROSKA_TAG_DATA w ++ [LibInternal; LibInternal2])
              (init_start w)) as (_ & Hwf & _); [done|].
  fold loaded in Hwf |- *. destruct loaded as [w1 [[]|e]]; simpl in *; [|done].
  assert (registry_ok w1) as Hok1 by by apply Hwf.
  rewrite overrides_pass_eq.
  destruct (overrides_lookup (_dict w1)) as [[[pw ph] sf]|e]; [|done].
  destruct (apply_overrides_result (overrides_table pw ph sf) w1
              (registry_ok_names w1 Hok1) (overrides_names_NoDup pw ph sf))
    as (h' & -> & _ & _).
  done.
Qed.

Lemma delayed_init_outcome_witness :
  delayed_init (TagDict_init []) =
  ((load_rows [LibInternal; LibInternal2] (init_start (TagDict_init []))).1,
   Raise (KeyError (KStr "PixelWidth"))).
Proof.
  exact (delayed_init_outcome (TagDict_init []) eq_refl
           (dict_wf_on_empty (λ _, True) [])).
Defined.

(** Loading stops at the first row that raises. *)
Lemma delayed_init_stops w pre r post w1 w2 e :
  _initialized w = false →
  MATROSKA_TAG_DATA w = pre ++ r :: post →
  load_rows pre (init_start w) = (w1, Ok tt) →
  row_skipped w r = false →
  load_row r w1 = (w2, Raise e) →
  delayed_init w = (w2, Raise e).
Proof.
  intros Hi Ht Hpre Hs Hr. rewrite delayed_init_unfold, Hi, init_body_eq.
  pose proof (preserves_load_rows pre (init_start w)) as Hev.
  rewrite Hpre in Hev. cbn [fst] in Hev.
  change (MATROSKA_TAG_DATA (init_start w))
    with (MATROSKA_TAG_DATA w ++ [LibInternal; LibInternal2]).
  rewrite Ht, <- app_assoc. unfold bind. rewrite load_rows_app.
  unfold bind. rewrite Hpre. cbn [app load_rows]. unfold bind.
  rewrite (row_skipped_config w), Hs, Hr; [done|apply Hev|apply Hev].
Qed.

(** X7: rows must list a parent before its children.  When the rows before
    [r] load and [r], which applies to the profile, names a parent that is
    not registered at that point, the initialization raises [KeyError] for
    that name in the state those rows left: [r] and the rows after it are
    not loaded.  The flag stays set, so a later call does not try again. *)
Theorem delayed_init_parent_not_registered :
  ∀ w pre r post c p w1,
    _initialized w = false →
    MATROSKA_TAG_DATA w = pre ++ r :: post →
    load_rows pre (init_start w) = (w1, Ok tt) →
    row_skipped w r = false →
    assoc element_classes (row_cls_name r) = Some c →
    row_parent r = Some (KStr p) → p ≠ "*" →
    _dict w1 !! KStr p = None →
    delayed_init w = (w1, Raise (KeyError (KStr p))) ∧
    delayed_init w1 = (w1, Ok tt).
Proof.
  intros w pre r post c p w1 Hi Ht Hpre Hs Hc Hp Hstar Hnone. split.
  - eapply delayed_init_stops; try done.
    unfold load_row, bind, locals_lookup. rewrite Hc. unfold ret.
    unfold Tag_init_with. rewrite Hp.
    rewrite bool_decide_eq_false_2 by (intros [= ->]; done).
    unfold bind. by rewrite getitem_body_str, Hnone.
  - apply delayed_init_done.
    pose proof (ev_initialized _ _ (preserves_load_rows pre (init_start w)))
      as H. by rewrite Hpre in H.
Qed.

Lemma delayed_init_parent_not_registered_witness :
  delayed_init
    (TagDict_init
       [mkRow 0x1549A966 "Info" "ElementMaster" (Some (KStr "Segment"))
              true true true 1 4 [];
        mkRow 0x18538067 "Segment" "ElementMaster" None true true true 1 4 []])
  = (init_start
       (TagDict_init
          [mkRow 0x1549A966 "Info" "ElementMaster" (Some (KStr "Segment"))
                 true true true 1 4 [];
           mkRow 0x18538067 "Segment" "ElementMaster" None
                 true true true 1 4 []]),
     Raise (KeyError (KStr "Segment"))).
Proof.
  refine (proj1 (delayed_init_parent_not_registered _ [] _
                   [mkRow 0x18538067 "Segment" "ElementMaster" None
                          true true true 1 4 []]
                   ElementMaster "Segment" _ _ _ _ _ _ _ _ _));
    try reflexivity.
  discriminate.
Defined.

(** X8: when the rows before [r] load and the class name of [r] is not
    bound to anything where [locals()[cls_name]] is evaluated, the
    initialization raises [KeyError] for that class name in the state those
    rows left: no object is built for [r], whatever its parent. *)
Theorem delayed_init_unknown_class :
  ∀ w pre r post w1,
    _initialized w = false →
    MATROSKA_TAG_DATA w = pre ++ r :: post →
    load_rows pre (init_start w) = (w1, Ok tt) →
    row_skipped w r = false →
    assoc element_classes (row_cls_name r) = None →
    row_cls_name r ∉ ["cls_name"; "self"; "MATROSKA_TAG_DATA"; "tag_data"] →
    delayed_init w = (w1, Raise (KeyError (KStr (row_cls_name r)))).
Proof.
  intros w pre r post w1 Hi Ht Hpre Hs Hc Hloc.
  eapply delayed_init_stops; try done.
  unfold load_row, bind, locals_lookup. rewrite Hc.
  destruct (String.eqb_spec (row_cls_name r) "cls_name") as [Heq|_];
    [exfalso; apply Hloc; rewrite Heq; set_solver|].
  destruct (String.eqb_spec (row_cls_name r) "self") as [Heq|_];
    [exfalso; apply Hloc; rewrite Heq; set_solver|].
  destruct (String.eqb_spec (row_cls_name r) "MATROSKA_TAG_DATA") as [Heq|_];
    [exfalso; apply Hloc; rewrite Heq; set_solver|].
  destruct (String.eqb_spec (row_cls_name r) "tag_data") as [Heq|_];
    [exfalso; apply Hloc; rewrite Heq; set_solver|].
  done.
Qed.

Lemma delayed_init_unknown_class_witness :
  delayed_init
    (TagDict_init
       [mkRow 0x18538067 "Segment" "ElementContainer" None
              true true true 1 4 []])
  = (init_start
       (TagDict_init
          [mkRow 0x18538067 "Segment" "ElementContainer" None
                 true true true 1 4 []]),
     Raise (KeyError (KStr "ElementContainer"))).
Proof.
  refine (delayed_init_unknown_class _ []
            (mkRow 0x18538067 "Segment" "ElementContainer" None
                   true true true 1 4 []) [] _ _ _ _ _ _ _);
    try reflexivity.
  apply (bool_decide_unpack _). vm_compute. exact I.
Defined.

(** X9: lazy initialization leaves the profile alone and takes nothing
    away: the version and the document type are as before, every key that
    was registered still is, and every object that existed keeps its id,
    name, parent, flags and version range, its child list being at most
    appended to. *)
Theorem delayed_init_keeps :
  ∀ w, let w' := (delayed_init w).1 in
    version w' = version w ∧ is_webm w' = is_webm w ∧
    dom (_dict w) ⊆ dom (_dict w') ∧
    heap_evolves (heap w) (heap w').
Proof.
  intros w w'. subst w'. rewrite delayed_init_unfold.
  destruct (_initialized w).
  - split_and!; try done. apply heap_evolves_refl.
  - destruct (preserves_init_body (init_start w)) as [_ Hv Hw _ Hh Hd].
    done.
Qed.

(** X10: a profile change that raises part of the way has still filtered
    what it registered: in the state it leaves, every registered
    descriptor was built from a row that applies to the new profile. *)
Theorem profile_filter_on_any_outcome :
  ∀ w doc_type ver,
    doc_type = "webm" ∨ doc_type = "matroska" →
    let w' := (set_doc_type_and_version doc_type ver w).1 in
    ∀ k a t, _dict w' !! k = Some a → heap w' !! a = Some t →
      ∃ r, r ∈ MATROSKA_TAG_DATA w' ∧
           row_active (String.eqb doc_type "webm") ver r ∧ built_from r t.
Proof.
  intros w doc_type ver Hdoc w' k a t Hk Ha.
  set (web := String.eqb doc_type "webm").
  assert (w' = (init_body (init_start (profile_world w web ver))).1) as Hw'.
  { subst w' web. rewrite set_doc_type_and_version_eq.
    by destruct Hdoc as [-> | ->]. }
  set (w0 := init_start (profile_world w web ver)) in *.
  set (G := λ t, ∃ r, r ∈ MATROSKA_TAG_DATA w0 ∧ row_active web ver r ∧
                      built_from r t).
  destruct (init_body_result G w0) as (Hev & Hwf & _).
  { intros t1 t2 Hs (r & ? & ? & ?). exists r.
    eauto using built_from_static. }
  rewrite <- Hw' in *.
  destruct (Hwf (dict_wf_on_empty G _)) with (k := k) (a := a)
    as (t' & Ht' & _ & _ & _ & r & Hr & Hact & Hb); [|done|].
  { intros r t0 Hr Hs Hb. exists r. split_and!; try done.
    by apply row_skipped_false in Hs. }
  assert (t' = t) as -> by congruence.
  exists r. by rewrite (ev_table _ _ Hev).
Qed.

Lemma profile_filter_on_any_outcome_witness :
  (set_doc_type_and_version "matroska" 5 sample_world).2 =
    Raise (KeyError (KStr "PixelWidth")) ∧
  ∀ k a t,
    _dict (set_doc_type_and_version "matroska" 5 sample_world).1 !! k = Some a →
    heap (set_doc_type_and_version "matroska" 5 sample_world).1 !! a = Some t →
    ∃ r, r ∈ MATROSKA_TAG_DATA
               (set_doc_type_and_version "matroska" 5 sample_world).1 ∧
         row_active false 5 r ∧ built_from r t.
Proof.
  split; [vm_compute; reflexivity|].
  apply (profile_filter_on_any_outcome sample_world "matroska" 5).
  by right.
Defined.

(** ** Views and containment *)

Lemma filter_filter_bool {A} (f g : A → bool) (l : list A) :
  List.filter g (List.filter f l) = List.filter (λ x, f x && g x) l.
Proof.
  induction l as [|x l IH]; [done|]. simpl.
  destruct (f x); simpl; [|done]. destruct (g x); by rewrite IH.
Qed.

(** X11: the two views are computed from the objects as they are when the
    view is taken.  Once a [default] is set on the object at [c], as the
    overrides do, the [required_children] of any descriptor are those of
    before without [c], in the same order, and its [unique_children] are
    unchanged. *)
Theorem default_drops_required :
  ∀ w p tp c v,
    heap w !! p = Some tp →
    let w' := (setattr_at c attr_default v w).1 in
    ∃ tp', heap w' !! p = Some tp' ∧ children tp' = children tp ∧
      Tag_required_children (heap w') tp' =
        List.filter (λ x, negb (Nat.eqb x c))
                    (Tag_required_children (heap w) tp) ∧
      Tag_unique_children (heap w') tp' = Tag_unique_children (heap w) tp.
Proof.
  intros w p tp c v Hp w'. subst w'. unfold setattr_at. cbn [fst heap with_heap].
  set (h' := alter (λ t, setattr t attr_default v) c (heap w)).
  assert (∀ x, h' !! x = if decide (c = x)
                         then (λ t, setattr t attr_default v) <$> heap w !! x
                         else heap w !! x) as Hh'.
  { intros x. subst h'. rewrite list_lookup_alter. by case_decide; subst. }
  assert (∃ tp', h' !! p = Some tp' ∧ children tp' = children tp)
    as (tp' & Htp' & Hch).
  { rewrite Hh', Hp. case_decide; eexists; done. }
  exists tp'. split_and!; try done.
  - unfold Tag_required_children. rewrite Hch, filter_filter_bool.
    apply filter_ext. intros x. rewrite Hh'.
    destruct (decide (c = x)) as [->|Hne].
    + rewrite Nat.eqb_refl, andb_false_r.
      destruct (heap w !! x) as [tx|]; [|done]. simpl.
      unfold Tag_mandatory, hasattr. simpl. by rewrite lookup_insert_eq.
    + rewrite (proj2 (Nat.eqb_neq x c)) by done. by rewrite andb_true_r.
  - unfold Tag_unique_children. rewrite Hch.
    apply filter_ext. intros x. rewrite Hh'.
    destruct (decide (c = x)) as [->|Hne]; [|done].
    by destruct (heap w !! x).
Qed.

Lemma default_drops_required_witness :
  ∃ tp', heap (setattr_at 12 attr_default (VInt 1) sample_world).1 !! 9
         = Some tp' ∧
         Tag_required_children
           (heap (setattr_at 12 attr_default (VInt 1) sample_world).1) tp'
         = [11].
Proof.
  destruct (default_drops_required sample_world 9
              (mkTag 0xE0 "Video" (ParentTag 7) false false true 1 4
                 (<[attr_cls := VClass ElementVideo]>
                    (<[attr_data_size_min := VInt 0]>
                       (<[attr_header_size_min := VInt 0]> ∅)))
                 [10; 11; 12; 13])
              12 (VInt 1)) as (tp' & H1 & _ & H2 & _).
  - vm_compute. reflexivity.
  - exists tp'. split; [exact H1|]. rewrite H2. vm_compute. reflexivity.
Defined.

(** X12: [is_child] tests whether the attribute [recursive] exists, not
    what it holds: a descriptor on which it is set, to any value, is
    accepted as a child of itself; and without it a descriptor with a
    concrete parent is accepted by a container only if the container has
    the id of that parent. *)
Theorem recursive_is_tested_by_presence :
  (∀ h d v, getattr d attr_recursive = Some v →
            Tag_is_child h d (Some d) = true) ∧
  (∀ h d c p tp,
     getattr d attr_recursive = None → parent d = ParentTag p →
     h !! p = Some tp → ebml_id tp ≠ ebml_id c →
     Tag_is_child h d (Some c) = false).
Proof.
  split.
  - intros h d v Hv. unfold Tag_is_child, hasattr. unfold getattr in Hv.
    rewrite Hv.
    assert (Tag_eq d d = true) as Heq by by apply bool_decide_eq_true_2.
    rewrite Heq.
    by destruct (parent_eq h (parent d) d || is_star (parent d)).
  - intros h d c p tp Hn Hp Htp Hid. unfold Tag_is_child, hasattr, parent_eq.
    unfold getattr in Hn. rewrite Hn, Hp, Htp. unfold Tag_eq, is_star.
    by rewrite bool_decide_eq_false_2.
Qed.

Lemma recursive_is_tested_by_presence_witness :
  Tag_is_child []
    (mkTag 0xB6 "ChapterAtom" ParentNone true true true 1 4
           {[attr_recursive := VBool false]} [])
    (Some (mkTag 0xB6 "ChapterAtom" ParentNone true true true 1 4
                 {[attr_recursive := VBool false]} []))
  = true.
Proof.
  apply (proj1 recursive_is_tested_by_presence _ _ (VBool false)).
  reflexivity.
Defined.

Lemma world_wf_TagDict_init table : world_wf (TagDict_init table).
Proof.
  split.
  - intros d td Hd. by destruct d.
  - intros k a Hk. simpl in Hk. by rewrite lookup_empty in Hk.
Qed.

Lemma world_wf_delayed_init w : world_wf w → world_wf (delayed_init w).1.
Proof.
  intros Hw.
  apply (hoare_world world_wf delayed_init (λ _ _, True) world_wf); [|done].
  eapply hoare_conseq; [apply hoare_wf_delayed_init|done| |done].
  by intros.
Qed.

(** X13: child lists and [is_child] agree.  In a well-formed state every
    object found in the child list of a descriptor is accepted by
    [is_child] with that descriptor as the container. *)
Theorem children_are_accepted :
  ∀ w p tp c tc,
    world_wf w → heap w !! p = Some tp → c ∈ children tp →
    heap w !! c = Some tc →
    Tag_is_child (heap w) tc (Some tp) = true.
Proof.
  intros w p tp c tc [Hh _] Hp Hc Htc.
  destruct (Hh p tp Hp) as [Hch _].
  destruct (Hch c Hc) as (tc' & Htc' & Hpar).
  assert (tc' = tc) as -> by congruence.
  unfold Tag_is_child, parent_eq. rewrite Hpar, Hp. unfold Tag_eq.
  by rewrite bool_decide_eq_true_2.
Qed.

Lemma children_are_accepted_witness :
  Tag_is_child (heap sample_world)
    (mkTag 0xB0 "PixelWidth" (ParentTag 9) true false true 1 4
       (<[attr_min_val := VInt 1]>
          (<[attr_data_size_min := VInt 0]>
             (<[attr_header_size_min := VInt 0]>
                (<[attr_cls := VClass ElementUnsigned]> ∅)))) [])
    (Some (mkTag 0xE0 "Video" (ParentTag 7) false false true 1 4
             (<[attr_cls := VClass ElementVideo]>
                (<[attr_data_size_min := VInt 0]>
                   (<[attr_header_size_min := VInt 0]> ∅)))
             [10; 11; 12; 13]))
  = true.
Proof.
  apply (children_are_accepted sample_world 9 _ 11).
  - apply world_wf_delayed_init, world_wf_TagDict_init.
  - vm_compute. reflexivity.
  - apply (bool_decide_unpack _). vm_compute. exact I.
  - vm_compute. reflexivity.
Defined.

(** ** Counting and listing *)

(** X14: [len] counts keys, not descriptors: after [insert] of a
    descriptor it has grown by one for each of the two keys that was not
    taken, so by two for a descriptor that is new under its id and its
    name, and not at all for one that replaces another under both. *)
Theorem insert_len :
  ∀ w a t,
    _initialized w = true → heap w !! a = Some t →
    bind (TagDict_insert (VTag a)) (λ _, TagDict_len) w =
    ((TagDict_insert (VTag a) w).1,
     Ok (size (_dict w) +
         (match _dict w !! KInt (ebml_id t) with Some _ => 0 | None => 1 end) +
         (match _dict w !! KStr (name t) with Some _ => 0 | None => 1 end))).
Proof.
  intros w a t Hi Ht. unfold bind, TagDict_insert. rewrite Ht.
  unfold TagDict_len, bind. rewrite delayed_init_done by done.
  cbn [fst _dict with_dict]. f_equal. f_equal.
  rewrite !map_size_insert. rewrite lookup_insert_ne by done.
  destruct (_dict w !! KInt (ebml_id t)), (_dict w !! KStr (name t));
    simpl; lia.
Qed.

Lemma insert_len_witness :
  (bind (TagDict_insert (VTag 2)) (λ _, TagDict_len)
        (with_dict sample_world ∅)).2 = Ok 2.
Proof.
  rewrite (insert_len (with_dict sample_world ∅) 2
             (mkTag 0x18538067 "Segment" ParentNone true true true 1 4
                (<[attr_cls := VClass ElementSegment]>
                   (<[attr_header_size_min := VInt 8]>
                      (<[attr_data_size_min := VInt 0]> ∅)))
                [3; 6; 16])).
  - reflexivity.
  - vm_compute. reflexivity.
  - vm_compute. reflexivity.
Defined.

(** X15: on an initialized registry whose entries are filed under the keys
    of their objects, [level0s] yields exactly the objects registered under
    an integer key whose parent is [None], and each of them once, although
    every descriptor is stored a second time under its name. *)
Theorem level0s_yields_each_once :
  ∀ w, _initialized w = true → registry_ok w →
    ∃ l, TagDict_level0s w = (w, Ok l) ∧ NoDup l ∧
         ∀ a, a ∈ l ↔
              ∃ k t, _dict w !! KInt k = Some a ∧ heap w !! a = Some t ∧
                     parent t = ParentNone.
Proof.
  intros w Hi Hok. eexists. split.
  { unfold TagDict_level0s, bind. by rewrite delayed_init_done. }
  unfold level0s_items.
  set (f := λ kv : Key * addr, match kv.1 with
                               | KInt _ => _
                               | KStr _ => false
                               end).
  assert (∀ k a, (k, a) ∈ List.filter f (map_to_list (_dict w)) ↔
                 ∃ z t, k = KInt z ∧ _dict w !! k = Some a ∧
                        heap w !! a = Some t ∧ parent t = ParentNone) as Hin.
  { intros k a. rewrite list_elem_of_In, filter_In, <- list_elem_of_In.
    rewrite elem_of_map_to_list. subst f. simpl. split.
    - intros [Hk Hf]. destruct k as [z|s]; [|done].
      destruct (heap w !! a) as [t|]; [|done].
      apply bool_decide_eq_true in Hf. by exists z, t.
    - intros (z & t & -> & Hk & Ht & Hp). split; [done|].
      rewrite Ht. by apply bool_decide_eq_true. }
  split.
  - apply NoDup_fmap_2_strong.
    + intros [k1 a1] [k2 a2] H1 H2 Heq. simpl in Heq. subst a2.
      apply Hin in H1 as (z1 & t1 & -> & Hk1 & Ht1 & _).
      apply Hin in H2 as (z2 & t2 & -> & Hk2 & Ht2 & _).
      destruct (Hok _ _ Hk1) as (t1' & ? & [?|?] & _); [|done].
      destruct (Hok _ _ Hk2) as (t2' & ? & [?|?] & _); [|done].
      by simplify_eq.
    + apply NoDup_ListNoDup, List.NoDup_filter, NoDup_ListNoDup,
        NoDup_map_to_list.
  - intros a. rewrite list_elem_of_fmap. split.
    + intros ([k a'] & -> & Hka). apply Hin in Hka
        as (z & t & -> & Hk & Ht & Hp). by exists z, t.
    + intros (z & t & Hk & Ht & Hp). exists (KInt z, a). split; [done|].
      apply Hin. by exists z, t.
Qed.

Lemma level0s_yields_each_once_witness :
  ∃ l, TagDict_level0s sample_world = (sample_world, Ok l) ∧ NoDup l.
Proof.
  destruct (level0s_yields_each_once sample_world) as (l & H1 & H2 & _).
  - vm_compute. reflexivity.
  - apply registry_ok_delayed_init, dict_wf_on_empty.
  - exists l. split; [exact H1|exact H2].
Defined.

(** ** What a profile change leaves of the old registry *)

Lemma prefix_alter_above (h0 h : list Tag) (f : Tag → Tag) a :
  h0 `prefix_of` h → length h0 ≤ a → h0 `prefix_of` alter f a h.
Proof.
  intros [l ->] Ha. replace a with (length h0 + (a - length h0)) by lia.
  rewrite alter_app_r. by eexists.
Qed.

Section anew.
Variable h0 : list Tag.

Lemma hoare_anew_Tag_construct id nm cls p ma mu we mi mx kw :
  hoare (λ w, built_anew h0 w ∧ ∀ pa, p = ParentTag pa → length h0 ≤ pa)
        (Tag_construct id nm cls p ma mu we mi mx kw)
        (λ a w, built_anew h0 w ∧ length h0 ≤ a) (built_anew h0).
Proof.
  intros w [[Hpre Hd] Hp]. rewrite Tag_construct_eq.
  unfold built_anew. cbn [heap _dict with_heap].
  split; [split; [|done]|by apply prefix_length].
  apply prefix_app_r. destruct p as [| |pa]; try done.
  apply prefix_alter_above; auto.
Qed.

Lemma hoare_anew_getitem_body key :
  hoare (built_anew h0) (getitem_body key)
        (λ a w, built_anew h0 w ∧ length h0 ≤ a) (built_anew h0).
Proof.
  intros w Hw. unfold getitem_body.
  destruct (_dict w !! key) as [a|] eqn:Hk.
  - split; [done|]. by apply (proj2 Hw key).
  - destruct key; [|done].
    apply (hoare_anew_Tag_construct _ _ _ ParentStar). by split.
Qed.

Lemma hoare_anew_load_row r :
  hoare (built_anew h0) (load_row r) (λ _, built_anew h0) (built_anew h0).
Proof.
  unfold load_row.
  eapply (hoare_bind _ _ _ (λ _, built_anew h0)).
  { intros w Hw. unfold locals_lookup.
    repeat case_match; unfold ret, raise in *; by simplify_eq. }
  intros cls. eapply hoare_bind.
  - unfold Tag_init_with. destruct (row_parent r) as [k|].
    + case_bool_decide.
      * intros w Hw. apply (hoare_anew_Tag_construct _ _ _ ParentStar).
        by split.
      * eapply hoare_bind; [apply hoare_anew_getitem_body|].
        intros pa w [Hw Hpa].
        apply (hoare_anew_Tag_construct _ _ _ (ParentTag pa)).
        split; [done|]. by intros ? [= <-].
    + intros w Hw. apply (hoare_anew_Tag_construct _ _ _ ParentNone).
      by split.
  - intros a w [[Hpre Hd] Ha]. unfold TagDict_insert.
    destruct (heap w !! a) as [t|]; [|done].
    split; [done|]. intros k a' Hk. cbn [_dict with_dict] in Hk.
    rewrite !lookup_insert in Hk. repeat case_decide; simplify_eq; eauto.
Qed.

Lemma hoare_anew_load_rows rows :
  hoare (built_anew h0) (load_rows rows) (λ _, built_anew h0) (built_anew h0).
Proof.
  induction rows as [|r rows IH]; simpl; [by apply hoare_ret|].
  eapply (hoare_bind _ _ _ (λ _, built_anew h0)); [|intros _; apply IH].
  intros w Hw. destruct (row_skipped w r); [done|].
  by apply hoare_anew_load_row.
Qed.

Lemma hoare_anew_apply_overrides ovs :
  hoare (built_anew h0) (apply_overrides ovs)
        (λ _, built_anew h0) (built_anew h0).
Proof.
  induction ovs as [|[n l] ovs IH]; simpl; [by apply hoare_ret|].
  eapply (hoare_bind _ _ _ (λ _, built_anew h0)); [by intros w Hw|].
  intros b. eapply (hoare_bind _ _ _ (λ _, built_anew h0));
    [|intros _; apply IH].
  destruct b; [|by apply hoare_ret].
  eapply hoare_bind; [apply hoare_anew_getitem_body|].
  intros a w [[Hpre Hd] Ha]. rewrite setattrs_at_eq.
  split; [|done]. cbn [heap with_heap]. by apply prefix_alter_above.
Qed.

Lemma hoare_anew_init_body :
  hoare (built_anew h0) init_body (λ _, built_anew h0) (built_anew h0).
Proof.
  intros w Hw. rewrite init_body_eq.
  apply (hoare_bind (built_anew h0) (load_rows (MATROSKA_TAG_DATA w)) _
                    (λ _, built_anew h0)); [apply hoare_anew_load_rows| |done].
  intros _. unfold overrides_pass.
  eapply hoare_bind; [apply hoare_anew_getitem_body|]. intros pw.
  eapply hoare_bind.
  { eapply hoare_conseq; [apply hoare_anew_getitem_body| |done|done].
    by intros w' [? _]. }
  intros ph. eapply hoare_bind.
  { eapply hoare_conseq; [apply hoare_anew_getitem_body| |done|done].
    by intros w' [? _]. }
  intros sf.
  eapply hoare_conseq; [apply hoare_anew_apply_overrides| |done|done].
  by intros w' [? _].
Qed.
End anew.

(** X16: a profile change builds a new graph of descriptors and leaves the
    old one alone.  Whether or not it returns normally, every object that
    existed before is exactly as it was (attributes and child list
    included), every registered descriptor is an object made by this call,
    and the profile asked for is the one in force. *)
Theorem profile_change_builds_anew :
  ∀ w doc_type ver,
    doc_type = "webm" ∨ doc_type = "matroska" →
    let w' := (set_doc_type_and_version doc_type ver w).1 in
    heap w `prefix_of` heap w' ∧
    (∀ k a, _dict w' !! k = Some a → length (heap w) ≤ a) ∧
    is_webm w' = String.eqb doc_type "webm" ∧ version w' = ver ∧
    _initialized w' = true.
Proof.
  intros w doc_type ver Hdoc w'.
  set (web := String.eqb doc_type "webm").
  assert (w' = (init_body (init_start (profile_world w web ver))).1) as ->.
  { subst w' web. rewrite set_doc_type_and_version_eq.
    by destruct Hdoc as [-> | ->]. }
  set (w0 := init_start (profile_world w web ver)).
  destruct (preserves_init_body w0) as [Hi Hv Hw _ _ _].
  assert (built_anew (heap w) (init_body w0).1) as [Hpre Hd].
  { apply (hoare_world (built_anew (heap w)) init_body (λ _ _, True)).
    - eapply hoare_conseq; [apply hoare_anew_init_body|done| |done].
      by intros.
    - split; [done|]. intros k a Hk. simpl in Hk.
      by rewrite lookup_empty in Hk. }
  split_and!; try done.
Qed.

Lemma profile_change_builds_anew_witness :
  heap sample_world
    `prefix_of` heap (set_doc_type_and_version "webm" 4 sample_world).1 ∧
  is_webm (set_doc_type_and_version "webm" 4 sample_world).1 = true.
Proof.
  destruct (profile_change_builds_anew sample_world "webm" 4)
    as (H1 & _ & H2 & _).
  - by left.
  - split; [exact H1|exact H2].
Defined.

(** ** The attributes of a registered descriptor *)

Lemma attrs_kept_refl h : attrs_kept h h.
Proof. intros a t Ht. by exists t. Qed.

Lemma attrs_kept_trans h1 h2 h3 :
  attrs_kept h1 h2 → attrs_kept h2 h3 → attrs_kept h1 h3.
Proof.
  intros H1 H2 a t Ht. destruct (H1 a t Ht) as (t2 & Ht2 & Hs2 & Ha2).
  destruct (H2 a t2 Ht2) as (t3 & Ht3 & Hs3 & Ha3).
  exists t3. split_and!; [done|congruence|congruence].
Qed.

Lemma keeps_attrs_bind {A B} (m : M A) (k : A → M B) :
  keeps_attrs m → (∀ a, keeps_attrs (k a)) → keeps_attrs (bind m k).
Proof.
  intros Hm Hk w. unfold bind. specialize (Hm w).
  destruct (m w) as [w1 [a|e]]; simpl in *; [|done].
  eapply attrs_kept_trans; [exact Hm|apply Hk].
Qed.

Lemma keeps_attrs_Tag_construct id nm cls p ma mu we mi mx kw :
  keeps_attrs (Tag_construct id nm cls p ma mu we mi mx kw).
Proof.
  intros w a t Ht. rewrite Tag_construct_eq. cbn [fst heap with_heap].
  destruct p as [| |pa]; try (exists t; split; [by apply lookup_app_l_Some|done]).
  destruct (decide (pa = a)) as [->|Hne].
  - exists (append_child (length (heap w)) t). split; [|done].
    apply lookup_app_l_Some. by rewrite list_lookup_alter_eq, Ht.
  - exists t. split; [|done].
    apply lookup_app_l_Some. by rewrite list_lookup_alter_ne.
Qed.

Lemma keeps_attrs_getitem_body key : keeps_attrs (getitem_body key).
Proof.
  intros w. unfold getitem_body.
  destruct (_dict w !! key); [apply attrs_kept_refl|].
  destruct key; [apply keeps_attrs_Tag_construct|apply attrs_kept_refl].
Qed.

Lemma keeps_attrs_load_row r : keeps_attrs (load_row r).
Proof.
  unfold load_row. apply keeps_attrs_bind.
  { intros w. unfold locals_lookup.
    repeat case_match; apply attrs_kept_refl. }
  intros cls. apply keeps_attrs_bind.
  - unfold Tag_init_with. destruct (row_parent r) as [k|].
    + case_bool_decide; [apply keeps_attrs_Tag_construct|].
      apply keeps_attrs_bind; [apply keeps_attrs_getitem_body|].
      intros pa. apply keeps_attrs_Tag_construct.
    + apply keeps_attrs_Tag_construct.
  - intros a w. unfold TagDict_insert.
    destruct (heap w !! a); apply attrs_kept_refl.
Qed.

Lemma setattrs_attrs l t : attrs (setattrs l t) = apply_attrs l (attrs t).
Proof.
  revert t. induction l as [|[a v] l IH]; intros t; [done|].
  unfold setattrs, apply_attrs in *. simpl. by rewrite IH.
Qed.

Lemma constructed_attrs id nm cls p ma mu we mi mx kw :
  attrs (constructed id nm cls p ma mu we mi mx kw) =
  apply_attrs kw (<[attr_data_size_min := VInt 0]>
                    (<[attr_header_size_min := VInt 0]>
                       (<[attr_cls := cls]> ∅))).
Proof. unfold constructed. fold (setattrs kw). by rewrite setattrs_attrs. Qed.

Lemma locals_lookup_pure s :
  ∃ r, ∀ w, locals_lookup s w = (w, r).
Proof.
  unfold locals_lookup.
  destruct (assoc element_classes s); [by eexists|].
  repeat case_match; by eexists.
Qed.

(** The object a row registers. *)
Lemma load_row_object r w w' :
  load_row r w = (w', Ok tt) →
  ∃ a t cls,
    (∀ w0, locals_lookup (row_cls_name r) w0 = (w0, Ok cls)) ∧
    heap w' !! a = Some t ∧ built_from r t ∧ attrs t = row_attrs r cls ∧
    _dict w' = <[KStr (row_name r) := a]>
                 (<[KInt (row_ebml_id r) := a]> (_dict w)).
Proof.
  intros Hrun. unfold load_row, bind in Hrun.
  destruct (locals_lookup_pure (row_cls_name r)) as [res Hres].
  rewrite Hres in Hrun. destruct res as [cls|e]; [|done].
  set (kw := List.filter _ _) in Hrun.
  destruct (Tag_init_with getitem_body (row_ebml_id r) (row_name r) cls
              (row_parent r) (row_mandatory r) (row_multiple r) (row_webm r)
              (row_minver r) (row_maxver r) kw w) as [w2 [a|e]] eqn:Hi;
    [|done].
  assert (∃ p, heap w2 !! a = Some
                 (constructed (row_ebml_id r) (row_name r) cls p
                    (row_mandatory r) (row_multiple r) (row_webm r)
                    (row_minver r) (row_maxver r) kw) ∧
               _dict w2 = _dict w) as (p & Ha & Hd).
  { unfold Tag_init_with in Hi. destruct (row_parent r) as [k|].
    - case_bool_decide.
      + exists ParentStar. rewrite Tag_construct_eq in Hi. simplify_eq. simpl.
        split; [|done].
        rewrite lookup_app_r by done. by rewrite Nat.sub_diag.
      + unfold bind in Hi.
        pose proof (getitem_body_dict k w) as Hgd.
        destruct (getitem_body k w) as [w3 [pa|e]]; [|done]. simpl in *.
        exists (ParentTag pa). rewrite Tag_construct_eq in Hi. simplify_eq.
        simpl. split; [|done].
        rewrite lookup_app_r by by rewrite length_alter.
        by rewrite length_alter, Nat.sub_diag.
    - exists ParentNone. rewrite Tag_construct_eq in Hi. simplify_eq. simpl.
      split; [|done].
      rewrite lookup_app_r by done. by rewrite Nat.sub_diag. }
  unfold TagDict_insert in Hrun. rewrite Ha in Hrun.
  pose proof (constructed_statics (row_ebml_id r) (row_name r) cls p
                (row_mandatory r) (row_multiple r) (row_webm r)
                (row_minver r) (row_maxver r) kw) as Hs.
  unfold statics in Hs.
  set (t := constructed _ _ _ p _ _ _ _ _ _) in *.
  injection Hs as Hid Hnm Hp Hma Hmu Hwe Hmi Hmx.
  injection Hrun as <-. cbn [heap _dict with_dict].
  exists a, t, cls. split_and!; [done|done| | |].
  - by unfold built_from.
  - unfold row_attrs. fold kw. subst t. by rewrite !constructed_attrs.
  - by rewrite Hd, Hid, Hnm.
Qed.

Lemma loaded_from_kept rows web ver t t' :
  statics t' = statics t → attrs t' = attrs t →
  loaded_from rows web ver t → loaded_from rows web ver t'.
Proof.
  intros Hs Ha (r & cls & Hr & Hact & Hb & Hres & Hattrs).
  exists r, cls. split_and!; try done.
  - by eapply built_from_static.
  - congruence.
Qed.

Lemma load_rows_loaded rows0 rows w :
  (∀ r, r ∈ rows → r ∈ rows0) →
  dict_loaded rows0 w → dict_loaded rows0 (load_rows rows w).1.
Proof.
  revert w. induction rows as [|r rows IH]; intros w Hsub Hl; [done|].
  simpl. unfold bind.
  assert (∀ r', r' ∈ rows → r' ∈ rows0) as Hsub'.
  { intros r' Hr'. apply Hsub, elem_of_cons. by right. }
  destruct (row_skipped w r) eqn:Hskip; [by apply IH|].
  pose proof (preserves_load_row r w) as Hev.
  pose proof (keeps_attrs_load_row r w) as Hkeep.
  destruct (load_row_result r w) as (_ & _ & Herr).
  pose proof (load_row_object r w) as Hobj.
  destruct (load_row r w) as [w1 [[]|e]]; simpl in *.
  - apply IH; [done|].
    destruct (Hobj w1 eq_refl) as (a & t & cls & Hres & Ht & Hb & Hattrs & Hd).
    intros k a' Hk. rewrite Hd in Hk.
    rewrite (ev_is_webm _ _ Hev), (ev_version _ _ Hev).
    assert (a' = a ∨ _dict w !! k = Some a') as [->|Hold].
    { rewrite !lookup_insert in Hk. repeat case_decide; simplify_eq; auto. }
    + exists t. split; [done|]. exists r, cls. split_and!; try done.
      * apply Hsub, elem_of_cons. by left.
      * by apply row_skipped_false.
    + destruct (Hl k a' Hold) as (t0 & Ht0 & Hfrom).
      destruct (Hkeep a' t0 Ht0) as (t1 & Ht1 & Hs1 & Ha1).
      exists t1. split; [done|]. by eapply loaded_from_kept.
  - intros k a' Hk. rewrite (Herr e eq_refl) in Hk.
    rewrite (ev_is_webm _ _ Hev), (ev_version _ _ Hev).
    destruct (Hl k a' Hk) as (t0 & Ht0 & Hfrom).
    destruct (Hkeep a' t0 Ht0) as (t1 & Ht1 & Hs1 & Ha1).
    exists t1. split; [done|]. by eapply loaded_from_kept.
Qed.

(** X17: what a registered descriptor is made of.  After an initialization
    that started from an empty dictionary and returned normally, every
    registered descriptor was built from a row of the table that applies to
    the profile, its class being the one the row's [cls_name] resolves to;
    its attributes are those the constructor set from that row, with the
    assignments of its entry in [overrides] made on top when it is the
    descriptor registered under its name and has such an entry, and
    untouched otherwise. *)
Theorem registered_is_row_with_overrides :
  ∀ w w',
    _initialized w = false → _dict w = ∅ → delayed_init w = (w', Ok tt) →
    ∃ pw ph sf,
      _dict w' !! KStr "PixelWidth" = Some pw ∧
      _dict w' !! KStr "PixelHeight" = Some ph ∧
      _dict w' !! KStr "SamplingFrequency" = Some sf ∧
      ∀ k a t, _dict w' !! k = Some a → heap w' !! a = Some t →
        ∃ r cls,
          r ∈ MATROSKA_TAG_DATA w' ∧
          row_active (is_webm w) (version w) r ∧ built_from r t ∧
          (∀ w0, locals_lookup (row_cls_name r) w0 = (w0, Ok cls)) ∧
          attrs t =
            match assoc (overrides_table pw ph sf) (name t) with
            | Some l =>
                if decide (_dict w' !! KStr (name t) = Some a)
                then apply_attrs l (row_attrs r cls) else row_attrs r cls
            | None => row_attrs r cls
            end.
Proof.
  intros w w' Hi Hempty Hrun.
  pose proof (delayed_init_table w Hi) as Htable. rewrite Hrun in Htable.
  simpl in Htable.
  rewrite delayed_init_unfold, Hi, init_body_eq in Hrun.
  set (w0 := init_start w) in *. unfold bind in Hrun.
  assert (dict_loaded (MATROSKA_TAG_DATA w0) w0) as Hl0.
  { intros k a Hk. simpl in Hk. rewrite Hempty in Hk.
    by rewrite lookup_empty in Hk. }
  pose proof (load_rows_loaded (MATROSKA_TAG_DATA w0) (MATROSKA_TAG_DATA w0) w0
                (λ _ H, H) Hl0) as Hl1.
  pose proof (preserves_load_rows (MATROSKA_TAG_DATA w0) w0) as Hev.
  destruct (load_rows_result (λ _, True) (MATROSKA_TAG_DATA w0) w0)
    as (_ & Hwf & _); [done|].
  destruct (load_rows (MATROSKA_TAG_DATA w0) w0) as [w1 [[]|e]]; [|done].
  cbn [fst snd] in *.
  assert (registry_ok w1) as Hok1.
  { apply Hwf; [|done]. intros k a Hk. simpl in Hk. rewrite Hempty in Hk.
    by rewrite lookup_empty in Hk. }
  destruct (overrides_pass_result w1 w' (registry_ok_names w1 Hok1) Hrun)
    as (pw & ph & sf & Hpw & Hph & Hsf & Hd & _ & Hh).
  exists pw, ph, sf. rewrite Hd.
  split; [exact Hpw|]. split; [exact Hph|]. split; [exact Hsf|].
  generalize dependent (overrides_table pw ph sf). intros ovs Hh.
  intros k a t Hk Ht.
  destruct (Hl1 k a Hk) as (t1 & Ht1 & r & cls & Hr & Hact & Hb & Hres & Hattrs).
  rewrite (Hh a t1 Ht1) in Ht. injection Ht as <-.
  rewrite (ev_is_webm _ _ Hev), (ev_version _ _ Hev) in Hact.
  assert (statics (overridden ovs (_dict w1) a t1) = statics t1) as Hst.
  { unfold overridden. destruct (assoc ovs (name t1)); [|done].
    case_decide; [|done]. apply fold_setattr_statics. }
  assert (name (overridden ovs (_dict w1) a t1) = name t1) as Hname.
  { unfold statics in Hst. congruence. }
  exists r, cls. rewrite Htable, Hname.
  split; [exact Hr|]. split; [exact Hact|].
  split; [by eapply built_from_static|]. split; [exact Hres|].
  unfold overridden. destruct (assoc ovs (name t1)); [|exact Hattrs].
  case_decide; [|exact Hattrs]. by rewrite setattrs_attrs, Hattrs.
Qed.

Lemma registered_is_row_with_overrides_witness :
  ∃ pw ph sf,
    _dict sample_world !! KStr "PixelWidth" = Some pw ∧
    _dict sample_world !! KStr "PixelHeight" = Some ph ∧
    _dict sample_world !! KStr "SamplingFrequency" = Some sf.
Proof.
  destruct (registered_is_row_with_overrides (TagDict_init sample_table)
              sample_world) as (pw & ph & sf & H1 & H2 & H3 & _).
  - reflexivity.
  - reflexivity.
  - unfold sample_world. apply pair_eta_ok. vm_compute. reflexivity.
  - exists pw, ph, sf. split; [exact H1|]. split; [exact H2|exact H3].
Defined.
